(** * House / hospital grid: placement and local-search optimiser

    A shallow embedding of [Coordinate] and [HospitalDistribution]
    (profundisacion.py; profundizacion.py holds the same two classes,
    line for line) and the properties of the placement and of the
    hill-climbing pass. *)

From Stdlib Require Import ZArith List Bool Lia Permutation.
Import ListNotations.
Local Open Scope Z_scope.

(** ** Outcomes of a Python call

    A call returns, raises, or is still running when the supply of loop
    iterations given to the model (fuel, or random draws) is used up. *)

Inductive exn : Type := IndexError | KeyError | ValueError.

Inductive outcome (A : Type) : Type :=
| Ret (a : A)
| Raise (e : exn)
| Timeout.
Arguments Ret {A} a.
Arguments Raise {A} e.
Arguments Timeout {A}.

Definition bind {A B : Type} (m : outcome A) (k : A -> outcome B) : outcome B :=
  match m with
  | Ret a => k a
  | Raise e => Raise e
  | Timeout => Timeout
  end.

Notation "v <- m ;; k" := (bind m (fun v => k))
  (at level 61, m at next level, right associativity).

(** [for v in l: body] over a loop state. *)
Fixpoint for_each {A S : Type} (l : list A) (body : A -> S -> outcome S) (st : S)
  : outcome S :=
  match l with
  | [] => Ret st
  | a :: l' => st' <- body a st ;; for_each l' body st'
  end.

(** ** Numbers of the score: an [int], or [float('inf')] *)

Inductive number : Type := Int (z : Z) | Inf.

(** [a < b] *)
Definition num_lt (a b : number) : bool :=
  match a, b with
  | Int p, Int q => p <? q
  | Int _, Inf => true
  | Inf, _ => false
  end.

(** [a <= b] *)
Definition num_le (a b : number) : bool := negb (num_lt b a).

(** [min(a, b)]: the first argument unless the second is smaller. *)
Definition num_min (a b : number) : number := if num_lt b a then b else a.

(** [a + b]; anything added to [inf] is [inf]. *)
Definition num_add (a b : number) : number :=
  match a, b with
  | Int p, Int q => Int (p + q)
  | _, _ => Inf
  end.

(** ** Python lists indexed by an [int] *)

(** The position an index denotes: negative indices count from the end,
    anything else out of range raises [IndexError]. *)
Definition index {A : Type} (l : list A) (i : Z) : outcome nat :=
  let n := Z.of_nat (length l) in
  if (0 <=? i) && (i <? n) then Ret (Z.to_nat i)
  else if (- n <=? i) && (i <? 0) then Ret (Z.to_nat (n + i))
  else Raise IndexError.

Fixpoint update {A : Type} (k : nat) (v : A) (l : list A) : list A :=
  match l, k with
  | [], _ => []
  | _ :: t, O => v :: t
  | h :: t, S k' => h :: update k' v t
  end.

(** [l[i]] *)
Definition getitem {A : Type} (l : list A) (i : Z) : outcome A :=
  k <- index l i ;;
  match nth_error l k with
  | Some v => Ret v
  | None => Raise IndexError
  end.

(** [l[i] = v] *)
Definition setitem {A : Type} (l : list A) (i : Z) (v : A) : outcome (list A) :=
  k <- index l i ;; Ret (update k v l).

(** [g[i][j]] and [g[i][j] = v].  The rows of the grid are built by a
    nested comprehension, so they are separate lists: writing one row
    leaves the others alone. *)
Definition grid_get (g : list (list Z)) (i j : Z) : outcome Z :=
  row <- getitem g i ;; getitem row j.

Definition grid_set (g : list (list Z)) (i j v : Z) : outcome (list (list Z)) :=
  row <- getitem g i ;;
  row' <- setitem row j v ;;
  setitem g i row'.

(** ** class Coordinate

    The class defines [__init__] and [distance_to] only, so [==] and
    [hash] are the ones inherited from [object]: two coordinates are
    equal when they are the same object.  [oid] is the identity of the
    object; [x] and [y] are assigned once, in [__init__]. *)

Record Coordinate : Type := mkCoordinate { oid : nat; x : Z; y : Z }.

(** [distance_to(self, other)] *)
Definition distance_to (self other : Coordinate) : Z :=
  Z.abs (x self - x other) + Z.abs (y self - y other).

(** [a == b], inherited: identity. *)
Definition coord_eqb (a b : Coordinate) : bool := Nat.eqb (oid a) (oid b).


(** ** Python sets of coordinates

    A set is the list of its members (pairwise distinct objects), in
    some order; [add] and [remove] compare with [==]. *)

Definition set_mem (c : Coordinate) (l : list Coordinate) : bool :=
  existsb (coord_eqb c) l.

Definition others (c : Coordinate) (l : list Coordinate) : list Coordinate :=
  filter (fun d => negb (coord_eqb c d)) l.

(** [l.add(c)] *)
Definition set_add (c : Coordinate) (l : list Coordinate) : list Coordinate :=
  if set_mem c l then l else l ++ [c].

(** [l.remove(c)]: [KeyError] when [c] is not a member. *)
Definition set_remove (c : Coordinate) (l : list Coordinate)
  : outcome (list Coordinate) :=
  if set_mem c l then Ret (others c l) else Raise KeyError.

(** ** class HospitalDistribution *)

Record HospitalDistribution : Type := mkHospitalDistribution {
  rows : Z;
  cols : Z;
  num_hospitals : Z;
  num_houses : Z;
  grid : list (list Z);
  hospitals : list Coordinate;
  houses : list Coordinate;
  MIN_HOSPITAL_DISTANCE : Z;
  MAX_HOUSE_HOSPITAL_DISTANCE : Z;
  (** identity the next [Coordinate(...)] receives *)
  next_oid : nat
}.

Definition with_grid (g : list (list Z)) (s : HospitalDistribution) :=
  mkHospitalDistribution (rows s) (cols s) (num_hospitals s) (num_houses s)
    g (hospitals s) (houses s)
    (MIN_HOSPITAL_DISTANCE s) (MAX_HOUSE_HOSPITAL_DISTANCE s) (next_oid s).

Definition with_hospitals (hs : list Coordinate) (s : HospitalDistribution) :=
  mkHospitalDistribution (rows s) (cols s) (num_hospitals s) (num_houses s)
    (grid s) hs (houses s)
    (MIN_HOSPITAL_DISTANCE s) (MAX_HOUSE_HOSPITAL_DISTANCE s) (next_oid s).

Definition with_houses (ks : list Coordinate) (s : HospitalDistribution) :=
  mkHospitalDistribution (rows s) (cols s) (num_hospitals s) (num_houses s)
    (grid s) (hospitals s) ks
    (MIN_HOSPITAL_DISTANCE s) (MAX_HOUSE_HOSPITAL_DISTANCE s) (next_oid s).

Definition with_max_distance (d : Z) (s : HospitalDistribution) :=
  mkHospitalDistribution (rows s) (cols s) (num_hospitals s) (num_houses s)
    (grid s) (hospitals s) (houses s)
    (MIN_HOSPITAL_DISTANCE s) d (next_oid s).

(** [Coordinate(xv, yv)]: a new object. *)
Definition new_Coordinate (xv yv : Z) (s : HospitalDistribution)
  : Coordinate * HospitalDistribution :=
  (mkCoordinate (next_oid s) xv yv,
   mkHospitalDistribution (rows s) (cols s) (num_hospitals s) (num_houses s)
     (grid s) (hospitals s) (houses s)
     (MIN_HOSPITAL_DISTANCE s) (MAX_HOUSE_HOSPITAL_DISTANCE s) (S (next_oid s))).

(** [HospitalDistribution(rows, cols, num_hospitals, num_houses)];
    [range(n)] is empty for [n <= 0]. *)
Definition new_HospitalDistribution (r c nh nk : Z) : HospitalDistribution :=
  mkHospitalDistribution r c nh nk
    (repeat (repeat 0 (Z.to_nat c)) (Z.to_nat r)) [] [] 3 5 O.

(** [_is_valid_hospital_position(self, pos)] *)
Definition _is_valid_hospital_position (s : HospitalDistribution) (pos : Coordinate)
  : outcome bool :=
  v <- grid_get (grid s) (x pos) (y pos) ;;
  if negb (v =? 0) then Ret false
  else Ret (negb (existsb
                    (fun hospital => distance_to pos hospital <? MIN_HOSPITAL_DISTANCE s)
                    (hospitals s))).

(** [_calculate_score(self)] *)
Definition min_distance (hs : list Coordinate) (house : Coordinate) : number :=
  fold_left (fun m hospital => num_min m (Int (distance_to house hospital))) hs Inf.

Definition total_distance (ks hs : list Coordinate) : number :=
  fold_left (fun total house => num_add total (min_distance hs house)) ks (Int 0).

Definition _calculate_score (s : HospitalDistribution) : number :=
  total_distance (houses s) (hospitals s).

(** ** initialize_random_positions

    [random.randint(a, b)] raises [ValueError] on an empty range and
    otherwise returns some integer of [a..b]; which one is decided by
    the next raw draw of the random source.  Each loop iteration takes
    two draws, one for the row and one for the column. *)

Definition randint (a b raw : Z) : outcome Z :=
  if b <? a then Raise ValueError else Ret (a + raw mod (b - a + 1)).

Fixpoint place_hospitals (draws : list (Z * Z)) (s : HospitalDistribution)
  : outcome (HospitalDistribution * list (Z * Z)) :=
  if Z.of_nat (length (hospitals s)) <? num_hospitals s then
    match draws with
    | [] => Timeout
    | (r1, r2) :: draws' =>
        xv <- randint 0 (rows s - 1) r1 ;;
        yv <- randint 0 (cols s - 1) r2 ;;
        let (new_pos, s) := new_Coordinate xv yv s in
        valid <- _is_valid_hospital_position s new_pos ;;
        if (valid : bool) then
          let s := with_hospitals (set_add new_pos (hospitals s)) s in
          g <- grid_set (grid s) xv yv 2 ;;
          place_hospitals draws' (with_grid g s)
        else place_hospitals draws' s
    end
  else Ret (s, draws).

Fixpoint place_houses (draws : list (Z * Z)) (s : HospitalDistribution)
  : outcome (HospitalDistribution * list (Z * Z)) :=
  if Z.of_nat (length (houses s)) <? num_houses s then
    match draws with
    | [] => Timeout
    | (r1, r2) :: draws' =>
        xv <- randint 0 (rows s - 1) r1 ;;
        yv <- randint 0 (cols s - 1) r2 ;;
        let (new_pos, s) := new_Coordinate xv yv s in
        v <- grid_get (grid s) xv yv ;;
        if v =? 0 then
          let s := with_houses (set_add new_pos (houses s)) s in
          g <- grid_set (grid s) xv yv 1 ;;
          place_houses draws' (with_grid g s)
        else place_houses draws' s
    end
  else Ret (s, draws).

(** Returns the populated model and the draws it did not use. *)
Definition initialize_random_positions (draws : list (Z * Z)) (s : HospitalDistribution)
  : outcome (HospitalDistribution * list (Z * Z)) :=
  r <- place_hospitals draws s ;;
  place_houses (snd r) (fst r).

(** ** optimize_distribution

    The locals of the call next to [self].  [relocations] is a ghost
    record, absent from the source: the pairs [(old_pos, best_new_pos)]
    of the moves committed so far, in order. *)

Record frame : Type := mkFrame {
  self : HospitalDistribution;
  best_score : number;
  improved : bool;
  best_new_pos : option Coordinate;
  relocations : list (Coordinate * Coordinate)
}.

Definition with_self (s : HospitalDistribution) (f : frame) : frame :=
  mkFrame s (best_score f) (improved f) (best_new_pos f) (relocations f).

(** The body of the two inner loops, for one offset [(dx, dy)]. *)
Definition try_candidate (old_pos : Coordinate) (dx dy : Z) (f : frame)
  : outcome frame :=
  let s := self f in
  let new_x := x old_pos + dx in
  let new_y := y old_pos + dy in
  if (0 <=? new_x) && (new_x <? rows s) && (0 <=? new_y) && (new_y <? cols s) then
    let (new_pos, s) := new_Coordinate new_x new_y s in
    (* simulate the move *)
    hs <- set_remove old_pos (hospitals s) ;;
    let s := with_hospitals hs s in
    g <- grid_set (grid s) (x old_pos) (y old_pos) 0 ;;
    let s := with_grid g s in
    valid <- _is_valid_hospital_position s new_pos ;;
    f <- (if (valid : bool) then
            let s := with_hospitals (set_add new_pos (hospitals s)) s in
            g <- grid_set (grid s) (x new_pos) (y new_pos) 2 ;;
            let s := with_grid g s in
            let new_score := _calculate_score s in
            let f :=
              if num_lt new_score (best_score f)
              then mkFrame (self f) new_score true (Some new_pos) (relocations f)
              else f in
            (* revert the simulation *)
            hs <- set_remove new_pos (hospitals s) ;;
            let s := with_hospitals hs s in
            g <- grid_set (grid s) (x new_pos) (y new_pos) 0 ;;
            Ret (with_self (with_grid g s) f)
          else Ret (with_self s f)) ;;
    let s := self f in
    let s := with_hospitals (set_add old_pos (hospitals s)) s in
    g <- grid_set (grid s) (x old_pos) (y old_pos) 2 ;;
    Ret (with_self (with_grid g s) f)
  else Ret f.

Definition offsets : list Z := [-1; 0; 1].

(** The body of [for hospital in list(self.hospitals)].  A [Coordinate]
    has neither [__bool__] nor [__len__], so [if best_new_pos:] asks
    whether it is not [None]. *)
Definition relocate (hospital : Coordinate) (f : frame) : outcome frame :=
  let old_pos := hospital in
  let f := mkFrame (self f) (best_score f) (improved f) None (relocations f) in
  f <- for_each offsets
         (fun dx => for_each offsets (fun dy => try_candidate old_pos dx dy)) f ;;
  match best_new_pos f with
  | Some best_new =>
      let s := self f in
      hs <- set_remove old_pos (hospitals s) ;;
      let s := with_hospitals hs s in
      g <- grid_set (grid s) (x old_pos) (y old_pos) 0 ;;
      let s := with_grid g s in
      let s := with_hospitals (set_add best_new (hospitals s)) s in
      g <- grid_set (grid s) (x best_new) (y best_new) 2 ;;
      Ret (mkFrame (with_grid g s) (best_score f) (improved f) (best_new_pos f)
             (relocations f ++ [(old_pos, best_new)]))
  | None => Ret f
  end.

Section Optimizer.

(** The order in which a Python set is iterated is not specified.
    [list(self.hospitals)] lists the members in the order [order]
    picks; the results below hold for every choice.  The score and
    the validity test iterate too, and do not depend on the order
    ([total_distance_perm], [total_distance_perm_houses],
    [spaced_from_perm]). *)
Variable order : list Coordinate -> list Coordinate.

(** One pass of the [while] body. *)
Definition sweep (f : frame) : outcome frame :=
  let f := mkFrame (self f) (best_score f) false (best_new_pos f) (relocations f) in
  for_each (order (hospitals (self f))) relocate f.

(** [while improved: ...], for at most [fuel] sweeps. *)
Fixpoint while_improved (fuel : nat) (f : frame) : outcome frame :=
  if improved f then
    match fuel with
    | O => Timeout
    | S fuel' => f' <- sweep f ;; while_improved fuel' f'
    end
  else Ret f.

(** Returns [self] after the call and the moves it committed. *)
Definition optimize_distribution (fuel : nat) (s : HospitalDistribution)
  : outcome (HospitalDistribution * list (Coordinate * Coordinate)) :=
  f <- while_improved fuel (mkFrame s (_calculate_score s) true None []) ;;
  Ret (self f, relocations f).

End Optimizer.

(** * The two windows

    Both files end with a class [GUI] that reads four entry fields,
    creates and places a [HospitalDistribution], draws its grid on a
    500 x 500 canvas and schedules one optimisation.  Of tkinter only
    what the callbacks do with it is kept: the items they create on
    the canvas, the error dialog they open, the timer they set. *)

(** Exceptions of the callbacks: those of the model, and the one of
    [500 // 0]. *)
Inductive error : Type := core (e : exn) | ZeroDivisionError.

Inductive run (A : Type) : Type :=
| Finished (a : A)
| Failed (e : error)
| Unfinished.
Arguments Finished {A} a.
Arguments Failed {A} e.
Arguments Unfinished {A}.

Definition run_bind {A B : Type} (m : run A) (k : A -> run B) : run B :=
  match m with
  | Finished a => k a
  | Failed e => Failed e
  | Unfinished => Unfinished
  end.

Notation "v <~ m ;; k" := (run_bind m (fun v => k))
  (at level 61, m at next level, right associativity).

Definition lift {A : Type} (m : outcome A) : run A :=
  match m with
  | Ret a => Finished a
  | Raise e => Failed (core e)
  | Timeout => Unfinished
  end.

Fixpoint for_run {A S : Type} (l : list A) (body : A -> S -> run S) (st : S)
  : run S :=
  match l with
  | [] => Finished st
  | a :: l' => st' <~ body a st ;; for_run l' body st'
  end.

(** [try: body except ValueError: handler] *)
Definition except_ValueError {A : Type} (body handler : run A) : run A :=
  match body with
  | Failed (core ValueError) => handler
  | _ => body
  end.

(** [a // b] *)
Definition floordiv (a b : Z) : run Z :=
  if b =? 0 then Failed ZeroDivisionError else Finished (a / b).

(** [range(n)] *)
Definition range (n : Z) : list Z := map Z.of_nat (seq 0 (Z.to_nat n)).

(** [int(text)] of an entry field: the integer read, or [None] when
    [int] raises [ValueError]. *)
Definition int (text : option Z) : run Z :=
  match text with
  | Some z => Finished z
  | None => Failed (core ValueError)
  end.

Inductive colour : Type := black | gray | green | red.

Inductive picture : Type := house_png | hospital_png.

(** Canvas items.  [fill] and [outline] are [None] for the empty
    string; tkinter's defaults for a rectangle or an oval are no fill
    and a black outline. *)
Inductive item : Type :=
| create_line (x0 y0 x1 y1 : Z) (fill : colour)
| create_image (xc yc : Z) (image : picture)
| create_rectangle (x0 y0 x1 y1 : Z) (fill outline : option colour)
| create_oval (x0 y0 x1 y1 : Z) (fill outline : option colour).

(** The texts of [messagebox.showerror("Error", ...)]. *)
Inductive message : Type :=
| numbers_must_be_positive   (* "Números deben ser mayores a 0" *)
| enter_valid_numbers.       (* "Por favor ingresa valores numéricos válidos" *)

(** What a click on "Iniciar" leads to: an error dialog, the canvas
    left as it was and nothing scheduled; or the new model drawn on
    the canvas and [optimize_step] scheduled in 100 ms. *)
Inductive effect : Type :=
| showerror (m : message)
| started (distribution : HospitalDistribution) (canvas : list item).

(** ** profundisacion.py *)

Module Profundisacion.

(** The body of the two loops of [draw_grid] over the cells. *)
Definition draw_cell (house_image hospital_image : bool) (d : HospitalDistribution)
           (cell_width cell_height i j : Z) (canvas : list item)
  : run (list item) :=
  let x_center := j * cell_width + cell_width / 2 in
  let y_center := i * cell_height + cell_height / 2 in
  v <~ lift (grid_get (grid d) i j) ;;
  if v =? 1 then
    if house_image
    then Finished (canvas ++ [create_image x_center y_center house_png])
    else Finished (canvas ++ [create_rectangle (x_center - 15) (y_center - 15)
                                (x_center + 15) (y_center + 15) (Some green) None])
  else
    v <~ lift (grid_get (grid d) i j) ;;
    if v =? 2 then
      if hospital_image
      then Finished (canvas ++ [create_image x_center y_center hospital_png])
      else Finished (canvas ++ [create_oval (x_center - 15) (y_center - 15)
                                  (x_center + 15) (y_center + 15) (Some red) None])
    else Finished canvas.

(** [draw_grid(self)]: the items on the canvas afterwards.
    [house_image] and [hospital_image] tell whether [load_images]
    found the picture. *)
Definition draw_grid (house_image hospital_image : bool) (d : HospitalDistribution)
  : run (list item) :=
  let canvas := [] in
  cell_width <~ floordiv 500 (cols d) ;;
  cell_height <~ floordiv 500 (rows d) ;;
  let cell_width := Z.max 1 cell_width in
  let cell_height := Z.max 1 cell_height in
  canvas <~ for_run (range (rows d + 1))
              (fun i canvas =>
                 let y := i * cell_height in
                 Finished (canvas ++ [create_line 0 y 500 y gray])) canvas ;;
  canvas <~ for_run (range (cols d + 1))
              (fun j canvas =>
                 let x := j * cell_width in
                 Finished (canvas ++ [create_line x 0 x 500 gray])) canvas ;;
  for_run (range (rows d))
    (fun i => for_run (range (cols d))
                (fun j => draw_cell house_image hospital_image d
                            cell_width cell_height i j)) canvas.

(** [start_simulation(self)], on the four entry fields as [int] reads
    them. *)
Definition start_simulation (house_image hospital_image : bool)
           (rows_var cols_var hospitals_var houses_var : option Z)
           (draws : list (Z * Z)) : run effect :=
  except_ValueError
    (rows <~ int rows_var ;;
     cols <~ int cols_var ;;
     num_hospitals <~ int hospitals_var ;;
     num_houses <~ int houses_var ;;
     if (num_hospitals <=? 0) || (num_houses <=? 0)
     then Finished (showerror numbers_must_be_positive)
     else
       let distribution := new_HospitalDistribution rows cols num_hospitals num_houses in
       r <~ lift (initialize_random_positions draws distribution) ;;
       let distribution := fst r in
       canvas <~ draw_grid house_image hospital_image distribution ;;
       Finished (started distribution canvas))
    (Finished (showerror enter_valid_numbers)).

(** [optimize_step(self)]: the model and the canvas afterwards. *)
Definition optimize_step (order : list Coordinate -> list Coordinate) (fuel : nat)
           (house_image hospital_image : bool) (distribution : HospitalDistribution)
  : run (HospitalDistribution * list item) :=
  r <~ lift (optimize_distribution order fuel distribution) ;;
  let distribution := fst r in
  canvas <~ draw_grid house_image hospital_image distribution ;;
  Finished (distribution, canvas).

End Profundisacion.

(** ** profundizacion.py *)

Module Profundizacion.

Definition draw_cell (d : HospitalDistribution)
           (cell_width cell_height i j : Z) (canvas : list item)
  : run (list item) :=
  let x1 := j * cell_width in
  let y1 := i * cell_height in
  let x2 := x1 + cell_width in
  let y2 := y1 + cell_height in
  let canvas := canvas ++ [create_rectangle x1 y1 x2 y2 None (Some gray)] in
  v <~ lift (grid_get (grid d) i j) ;;
  if v =? 1 then
    Finished (canvas ++ [create_rectangle (x1 + 5) (y1 + 5) (x2 - 5) (y2 - 5)
                           (Some green) (Some black)])
  else
    v <~ lift (grid_get (grid d) i j) ;;
    if v =? 2 then
      Finished (canvas ++ [create_oval (x1 + 5) (y1 + 5) (x2 - 5) (y2 - 5)
                             (Some red) (Some black)])
    else Finished canvas.

Definition draw_grid (d : HospitalDistribution) : run (list item) :=
  let canvas := [] in
  cell_width <~ floordiv 500 (cols d) ;;
  cell_height <~ floordiv 500 (rows d) ;;
  for_run (range (rows d))
    (fun i => for_run (range (cols d))
                (fun j => draw_cell d cell_width cell_height i j)) canvas.

(** This [start_simulation] has neither the test on the numbers nor
    the [try]. *)
Definition start_simulation (rows_var cols_var hospitals_var houses_var : option Z)
           (draws : list (Z * Z)) : run effect :=
  rows <~ int rows_var ;;
  cols <~ int cols_var ;;
  num_hospitals <~ int hospitals_var ;;
  num_houses <~ int houses_var ;;
  let distribution := new_HospitalDistribution rows cols num_hospitals num_houses in
  r <~ lift (initialize_random_positions draws distribution) ;;
  let distribution := fst r in
  canvas <~ draw_grid distribution ;;
  Finished (started distribution canvas).

Definition optimize_step (order : list Coordinate -> list Coordinate) (fuel : nat)
           (distribution : HospitalDistribution)
  : run (HospitalDistribution * list item) :=
  r <~ lift (optimize_distribution order fuel distribution) ;;
  let distribution := fst r in
  canvas <~ draw_grid distribution ;;
  Finished (distribution, canvas).

End Profundizacion.

(** * Properties *)

(** ** Numbers *)

Lemma num_min_comm_right (a : number) (p q : Z) :
  num_min (num_min a (Int p)) (Int q) = num_min (num_min a (Int q)) (Int p).
Proof.
  destruct a as [z|]; unfold num_min; cbn [num_lt];
    repeat (match goal with
            | |- context [?u <? ?v] => destruct (Z.ltb_spec u v)
            end; cbn [num_lt]);
    try reflexivity; try lia; f_equal; lia.
Qed.

Lemma fold_left_perm {A B : Type} (f : A -> B -> A)
      (comm : forall a b c, f (f a b) c = f (f a c) b) (l l' : list B) :
  Permutation l l' -> forall a, fold_left f l a = fold_left f l' a.
Proof.
  induction 1 as [|b l l' _ IH|b c l|l l' l'' _ IH1 _ IH2]; intros a; cbn [fold_left].
  - reflexivity.
  - apply IH.
  - now rewrite comm.
  - now rewrite IH1.
Qed.

Lemma fold_left_ext {A B : Type} (f g : A -> B -> A) (l : list B) :
  (forall a b, f a b = g a b) -> forall a, fold_left f l a = fold_left g l a.
Proof.
  intros E; induction l as [|b l IH]; intros a; cbn [fold_left].
  - reflexivity.
  - now rewrite E, IH.
Qed.

(** The nearest hospital does not depend on the order of iteration. *)
Lemma min_distance_perm (hs hs' : list Coordinate) (house : Coordinate) :
  Permutation hs hs' -> min_distance hs house = min_distance hs' house.
Proof.
  intros P; unfold min_distance; apply fold_left_perm; [|exact P].
  intros a b c; apply num_min_comm_right.
Qed.

Lemma total_distance_perm (ks hs hs' : list Coordinate) :
  Permutation hs hs' -> total_distance ks hs = total_distance ks hs'.
Proof.
  intros P; unfold total_distance; apply fold_left_ext.
  intros a b; now rewrite (min_distance_perm hs hs' b P).
Qed.

Lemma num_add_comm_right (a b c : number) :
  num_add (num_add a b) c = num_add (num_add a c) b.
Proof. destruct a, b, c; cbn [num_add]; try reflexivity; f_equal; lia. Qed.

Lemma total_distance_perm_houses (ks ks' hs : list Coordinate) :
  Permutation ks ks' -> total_distance ks hs = total_distance ks' hs.
Proof.
  intros P; unfold total_distance; apply fold_left_perm; [|exact P].
  intros a b c; apply num_add_comm_right.
Qed.

(** Only the position of the last hospital matters, not which object it is. *)
Lemma total_distance_last (ks l : list Coordinate) (c d : Coordinate) :
  x c = x d -> y c = y d ->
  total_distance ks (l ++ [c]) = total_distance ks (l ++ [d]).
Proof.
  intros Ex Ey; unfold total_distance; apply fold_left_ext.
  intros a b; unfold min_distance; rewrite !fold_left_app; cbn [fold_left].
  unfold distance_to; now rewrite Ex, Ey.
Qed.

(** ** Lists and grids *)

Lemma length_update {A : Type} (k : nat) (v : A) (l : list A) :
  length (update k v l) = length l.
Proof.
  revert k; induction l as [|h t IH]; intros [|k]; cbn [update length]; auto.
Qed.

Lemma nth_error_update_same {A : Type} (k : nat) (v : A) (l : list A) :
  (k < length l)%nat -> nth_error (update k v l) k = Some v.
Proof.
  revert k; induction l as [|h t IH]; intros [|k] L; cbn in *; try lia; auto.
  apply IH; lia.
Qed.

Lemma nth_error_update_other {A : Type} (k k' : nat) (v : A) (l : list A) :
  k <> k' -> nth_error (update k v l) k' = nth_error l k'.
Proof.
  revert k k'; induction l as [|h t IH]; intros [|k] [|k'] N; cbn; auto; try congruence.
Qed.

Lemma update_update {A : Type} (k : nat) (v w : A) (l : list A) :
  update k w (update k v l) = update k w l.
Proof.
  revert k; induction l as [|h t IH]; intros [|k]; cbn; auto; now rewrite IH.
Qed.

Lemma update_nth_error {A : Type} (k : nat) (v : A) (l : list A) :
  nth_error l k = Some v -> update k v l = l.
Proof.
  revert k; induction l as [|h t IH]; intros [|k] E; cbn in *; try congruence.
  now rewrite IH.
Qed.

(** The cell [(i, j)] of a grid, and the grid after writing it, for
    indices inside the grid. *)
Definition cell (g : list (list Z)) (i j : Z) : option Z :=
  match nth_error g (Z.to_nat i) with
  | Some row => nth_error row (Z.to_nat j)
  | None => None
  end.

Definition put (g : list (list Z)) (i j v : Z) : list (list Z) :=
  match nth_error g (Z.to_nat i) with
  | Some row => update (Z.to_nat i) (update (Z.to_nat j) v row) g
  | None => g
  end.

Definition shaped (r c : Z) (g : list (list Z)) : Prop :=
  length g = Z.to_nat r /\ Forall (fun row => length row = Z.to_nat c) g.

Definition inside (r c i j : Z) : Prop := 0 <= i < r /\ 0 <= j < c.

Lemma index_inside {A : Type} (l : list A) (i : Z) :
  0 <= i < Z.of_nat (length l) -> index l i = Ret (Z.to_nat i).
Proof.
  intros H; unfold index; cbv zeta.
  destruct (Z.leb_spec 0 i); [|lia].
  destruct (Z.ltb_spec i (Z.of_nat (length l))); [|lia].
  reflexivity.
Qed.

Lemma shaped_row (r c : Z) (g : list (list Z)) (i : Z) :
  shaped r c g -> 0 <= i < r ->
  exists row, nth_error g (Z.to_nat i) = Some row /\ length row = Z.to_nat c.
Proof.
  intros [L F] H.
  destruct (nth_error g (Z.to_nat i)) as [row|] eqn:E.
  - exists row; split; [reflexivity|].
    rewrite Forall_forall in F; apply F; eapply nth_error_In; eassumption.
  - apply nth_error_None in E; lia.
Qed.

Lemma grid_get_inside (r c : Z) (g : list (list Z)) (i j : Z) :
  shaped r c g -> inside r c i j ->
  exists v, grid_get g i j = Ret v /\ cell g i j = Some v.
Proof.
  intros Sh [Hi Hj].
  destruct (shaped_row r c g i Sh Hi) as (row & E & L).
  destruct (nth_error row (Z.to_nat j)) as [v|] eqn:Ev.
  - exists v; unfold grid_get, getitem, cell.
    rewrite index_inside by (destruct Sh; lia); cbn [bind]; rewrite E; cbn [bind].
    rewrite index_inside by lia; cbn [bind]; rewrite Ev; auto.
  - apply nth_error_None in Ev; lia.
Qed.

Lemma grid_set_inside (r c : Z) (g : list (list Z)) (i j v : Z) :
  shaped r c g -> inside r c i j -> grid_set g i j v = Ret (put g i j v).
Proof.
  intros Sh [Hi Hj].
  destruct (shaped_row r c g i Sh Hi) as (row & E & L).
  unfold grid_set, getitem, setitem, put.
  rewrite !index_inside by (destruct Sh; lia); cbn [bind]; rewrite E; cbn [bind].
  rewrite index_inside by lia; reflexivity.
Qed.

Lemma put_shaped (r c : Z) (g : list (list Z)) (i j v : Z) :
  shaped r c g -> shaped r c (put g i j v).
Proof.
  intros [L F]; unfold put.
  destruct (nth_error g (Z.to_nat i)) as [row|] eqn:E; [|now split].
  split; [now rewrite length_update|].
  rewrite Forall_forall in *; intros row' I.
  apply In_nth_error in I; destruct I as [k Ek].
  destruct (Nat.eq_dec (Z.to_nat i) k) as [<-|N].
  - rewrite nth_error_update_same in Ek
      by (apply nth_error_Some; congruence).
    injection Ek as <-; rewrite length_update.
    apply F; eapply nth_error_In; eassumption.
  - rewrite nth_error_update_other in Ek by assumption.
    apply F; eapply nth_error_In; eassumption.
Qed.

Lemma cell_put_same (r c : Z) (g : list (list Z)) (i j v : Z) :
  shaped r c g -> inside r c i j -> cell (put g i j v) i j = Some v.
Proof.
  intros Sh [Hi Hj].
  destruct (shaped_row r c g i Sh Hi) as (row & E & L).
  unfold cell, put; rewrite E.
  rewrite nth_error_update_same by (apply nth_error_Some; congruence).
  apply nth_error_update_same; lia.
Qed.

Lemma cell_put_other (g : list (list Z)) (i j v i' j' : Z) :
  0 <= i -> 0 <= j -> 0 <= i' -> 0 <= j' -> (i <> i' \/ j <> j') ->
  cell (put g i j v) i' j' = cell g i' j'.
Proof.
  intros Hi Hj Hi' Hj' N; unfold cell, put.
  destruct (nth_error g (Z.to_nat i)) as [row|] eqn:E; [|reflexivity].
  destruct (Z.eq_dec i i') as [<-|Ni].
  - rewrite E, nth_error_update_same by (apply nth_error_Some; congruence).
    apply nth_error_update_other; lia.
  - rewrite nth_error_update_other by lia; reflexivity.
Qed.

Lemma put_put (g : list (list Z)) (i j v w : Z) :
  put (put g i j v) i j w = put g i j w.
Proof.
  unfold put at 2 3.
  destruct (nth_error g (Z.to_nat i)) as [row|] eqn:E.
  - unfold put.
    rewrite nth_error_update_same by (apply nth_error_Some; congruence).
    now rewrite update_update, update_update.
  - unfold put; now rewrite E.
Qed.

Lemma put_cell (g : list (list Z)) (i j v : Z) :
  cell g i j = Some v -> put g i j v = g.
Proof.
  unfold cell, put; destruct (nth_error g (Z.to_nat i)) as [row|] eqn:E; [|reflexivity].
  intros Ev; rewrite (update_nth_error _ _ _ Ev).
  now apply update_nth_error.
Qed.

(** ** Sets of coordinates *)

Lemma coord_eqb_eq (a b : Coordinate) : coord_eqb a b = true <-> oid a = oid b.
Proof. unfold coord_eqb; apply Nat.eqb_eq. Qed.

Lemma coord_eqb_neq (a b : Coordinate) : coord_eqb a b = false <-> oid a <> oid b.
Proof. unfold coord_eqb; apply Nat.eqb_neq. Qed.

Lemma set_mem_in (c : Coordinate) (l : list Coordinate) :
  In c l -> set_mem c l = true.
Proof.
  intros I; unfold set_mem; apply existsb_exists; exists c; split; [exact I|].
  now apply coord_eqb_eq.
Qed.

Lemma set_mem_new (c : Coordinate) (l : list Coordinate) :
  (forall d, In d l -> oid d <> oid c) -> set_mem c l = false.
Proof.
  intros F; unfold set_mem.
  destruct (existsb (coord_eqb c) l) eqn:E; [|reflexivity].
  apply existsb_exists in E; destruct E as (d & I & E).
  apply coord_eqb_eq in E; exfalso; apply (F d I); congruence.
Qed.

Lemma in_others (c d : Coordinate) (l : list Coordinate) :
  In d (others c l) <-> In d l /\ oid d <> oid c.
Proof.
  unfold others; rewrite filter_In, negb_true_iff, coord_eqb_neq.
  intuition congruence.
Qed.

Lemma others_new (c : Coordinate) (l : list Coordinate) :
  (forall d, In d l -> oid d <> oid c) -> others c l = l.
Proof.
  intros F; unfold others; induction l as [|d l IH]; cbn [filter]; [reflexivity|].
  assert (E : coord_eqb c d = false)
    by (apply coord_eqb_neq; intros E; apply (F d); [now left|congruence]).
  rewrite E; cbn [negb]; f_equal; apply IH; intros e I; apply F; now right.
Qed.

Lemma others_app_self (c : Coordinate) (l : list Coordinate) :
  others c (l ++ [c]) = others c l.
Proof.
  unfold others; rewrite filter_app; cbn [filter].
  assert (E : coord_eqb c c = true) by now apply coord_eqb_eq.
  rewrite E; cbn [negb]; apply app_nil_r.
Qed.

Lemma others_idem (c : Coordinate) (l : list Coordinate) :
  others c (others c l) = others c l.
Proof. apply others_new; intros d I; now apply in_others in I. Qed.

Lemma others_perm (c : Coordinate) (l l' : list Coordinate) :
  Permutation l l' -> Permutation (others c l) (others c l').
Proof.
  unfold others; induction 1 as [|d l l' _ IH|d e l|l l' l'' _ IH1 _ IH2];
    cbn [filter].
  - constructor.
  - destruct (negb (coord_eqb c d)); [now constructor|assumption].
  - destruct (negb (coord_eqb c d)), (negb (coord_eqb c e));
      try apply Permutation_refl; apply perm_swap.
  - eapply Permutation_trans; eassumption.
Qed.

Lemma others_split (c : Coordinate) (l : list Coordinate) :
  NoDup (map oid l) -> In c l -> Permutation l (others c l ++ [c]).
Proof.
  induction l as [|d l IH]; intros N I; [destruct I|].
  cbn [map] in N; inversion N as [|? ? Nd N']; subst.
  destruct I as [->|I].
  - unfold others; cbn [filter].
    assert (E : coord_eqb c c = true) by now apply coord_eqb_eq.
    rewrite E; cbn [negb]; fold (others c l).
    rewrite others_new; [apply Permutation_cons_append|].
    intros d I E'; apply Nd; rewrite <- E'; now apply in_map.
  - unfold others; cbn [filter].
    assert (E : coord_eqb c d = false).
    { apply coord_eqb_neq; intros E; apply Nd; rewrite <- E; now apply in_map. }
    rewrite E; cbn [negb app]; constructor; now apply IH.
Qed.

Lemma set_remove_in (c : Coordinate) (l : list Coordinate) :
  In c l -> set_remove c l = Ret (others c l).
Proof. intros I; unfold set_remove; now rewrite set_mem_in. Qed.

Lemma set_add_new (c : Coordinate) (l : list Coordinate) :
  (forall d, In d l -> oid d <> oid c) -> set_add c l = l ++ [c].
Proof. intros F; unfold set_add; now rewrite set_mem_new. Qed.

Lemma set_add_others (c : Coordinate) (l : list Coordinate) :
  set_add c (others c l) = others c l ++ [c].
Proof. apply set_add_new; intros d I; now apply in_others in I. Qed.

(** ** The invariant of the model *)

Definition spaced_from (d : Z) (hs : list Coordinate) (pos : Coordinate) : bool :=
  negb (existsb (fun hospital => distance_to pos hospital <? d) hs).

Lemma spaced_from_spec (d : Z) (hs : list Coordinate) (pos : Coordinate) :
  spaced_from d hs pos = true <-> forall h, In h hs -> d <= distance_to pos h.
Proof.
  unfold spaced_from; rewrite negb_true_iff; split.
  - intros E h I; destruct (Z.ltb_spec (distance_to pos h) d) as [L|]; [|assumption].
    assert (T : existsb (fun hospital => distance_to pos hospital <? d) hs = true).
    { apply existsb_exists; exists h; split; [exact I|]; now apply Z.ltb_lt. }
    congruence.
  - intros F.
    destruct (existsb (fun hospital => distance_to pos hospital <? d) hs) eqn:E;
      [|reflexivity].
    apply existsb_exists in E; destruct E as (h & I & L).
    apply Z.ltb_lt in L; specialize (F h I); lia.
Qed.

(** The validity test does not depend on the order of iteration. *)
Lemma spaced_from_perm (d : Z) (hs hs' : list Coordinate) (pos : Coordinate) :
  Permutation hs hs' -> spaced_from d hs pos = spaced_from d hs' pos.
Proof.
  intros P; apply eq_true_iff_eq; rewrite !spaced_from_spec; split; intros F h I;
    apply F; [apply Permutation_sym in P|]; eapply Permutation_in; eassumption.
Qed.

Lemma distance_to_sym (a b : Coordinate) : distance_to a b = distance_to b a.
Proof. unfold distance_to; lia. Qed.

Lemma distance_to_nonneg (a b : Coordinate) : 0 <= distance_to a b.
Proof. unfold distance_to; lia. Qed.

Record Inv (s : HospitalDistribution) : Prop := mkInv {
  inv_min : MIN_HOSPITAL_DISTANCE s = 3;
  inv_shape : shaped (rows s) (cols s) (grid s);
  inv_nodup : NoDup (map oid (hospitals s));
  inv_fresh : forall h, In h (hospitals s) -> (oid h < next_oid s)%nat;
  inv_hospital : forall h, In h (hospitals s) ->
    inside (rows s) (cols s) (x h) (y h) /\ cell (grid s) (x h) (y h) = Some 2;
  inv_spaced : forall h1 h2, In h1 (hospitals s) -> In h2 (hospitals s) ->
    oid h1 <> oid h2 -> 3 <= distance_to h1 h2;
  inv_house_fresh : forall k, In k (houses s) -> (oid k < next_oid s)%nat;
  inv_house : forall k, In k (houses s) ->
    inside (rows s) (cols s) (x k) (y k) /\ cell (grid s) (x k) (y k) = Some 1;
  inv_house_nodup : NoDup (map (fun k => (x k, y k)) (houses s))
}.

(** The model with the same members of [hospitals] in another order
    and a later allocation counter. *)
Definition reordered (hs : list Coordinate) (n : nat) (s : HospitalDistribution) :=
  mkHospitalDistribution (rows s) (cols s) (num_hospitals s) (num_houses s)
    (grid s) hs (houses s)
    (MIN_HOSPITAL_DISTANCE s) (MAX_HOUSE_HOSPITAL_DISTANCE s) n.

Lemma Inv_reordered (s : HospitalDistribution) (hs : list Coordinate) (n : nat) :
  Inv s -> Permutation (hospitals s) hs -> (next_oid s <= n)%nat ->
  Inv (reordered hs n s).
Proof.
  intros I P L.
  assert (B : forall h, In h hs -> In h (hospitals s))
    by (intros h H; eapply Permutation_in; [apply Permutation_sym|]; eassumption).
  destruct I; constructor; cbn; auto.
  - eapply Permutation_NoDup; [apply Permutation_map|]; eassumption.
  - intros h H; specialize (inv_fresh0 h (B h H)); lia.
  - intros k H; specialize (inv_house_fresh0 k H); lia.
Qed.

(** ** One candidate, without the simulate-and-revert bookkeeping

    What [try_candidate] decides, read off the model it starts from:
    whether the target cell is free once [old] has left and far enough
    from the other hospitals, and the score with [old] moved there. *)

Definition in_grid (s : HospitalDistribution) (nx ny : Z) : bool :=
  (0 <=? nx) && (nx <? rows s) && (0 <=? ny) && (ny <? cols s).

Definition candidate_valid (s : HospitalDistribution) (old : Coordinate) (nx ny : Z)
  : bool :=
  match cell (put (grid s) (x old) (y old) 0) nx ny with
  | Some v =>
      (v =? 0) && spaced_from (MIN_HOSPITAL_DISTANCE s) (others old (hospitals s))
                    (mkCoordinate O nx ny)
  | None => false
  end.

Definition candidate_score (s : HospitalDistribution) (old : Coordinate) (nx ny : Z)
  : number :=
  total_distance (houses s) (others old (hospitals s) ++ [mkCoordinate O nx ny]).

Definition improving (s : HospitalDistribution) (old : Coordinate) (b : number)
           (d : Z * Z) : bool :=
  let nx := x old + fst d in
  let ny := y old + snd d in
  in_grid s nx ny && candidate_valid s old nx ny
  && num_lt (candidate_score s old nx ny) b.

(** [old] taken out and put back: it is now the last member. *)
Definition restored (old : Coordinate) (s : HospitalDistribution) :=
  reordered (others old (hospitals s) ++ [old]) (S (next_oid s)) s.

Definition try_pure (old : Coordinate) (dx dy : Z) (f : frame) : frame :=
  let s := self f in
  let nx := x old + dx in
  let ny := y old + dy in
  if in_grid s nx ny then
    if improving s old (best_score f) (dx, dy)
    then mkFrame (restored old s) (candidate_score s old nx ny) true
           (Some (mkCoordinate (next_oid s) nx ny)) (relocations f)
    else with_self (restored old s) f
  else f.

Lemma in_grid_inside (s : HospitalDistribution) (nx ny : Z) :
  in_grid s nx ny = true <-> inside (rows s) (cols s) nx ny.
Proof.
  unfold in_grid, inside; rewrite !andb_true_iff, !Z.leb_le, !Z.ltb_lt; lia.
Qed.

Ltac model_simpl :=
  cbn [with_grid with_hospitals with_houses with_max_distance with_self
       new_Coordinate reordered
       rows cols num_hospitals num_houses grid hospitals houses
       MIN_HOSPITAL_DISTANCE MAX_HOUSE_HOSPITAL_DISTANCE next_oid
       self best_score improved best_new_pos relocations
       oid x y bind fst snd] in *.

Lemma is_valid_spec (s : HospitalDistribution) (pos : Coordinate) :
  shaped (rows s) (cols s) (grid s) ->
  inside (rows s) (cols s) (x pos) (y pos) ->
  _is_valid_hospital_position s pos =
  Ret (match cell (grid s) (x pos) (y pos) with
       | Some v => (v =? 0) && spaced_from (MIN_HOSPITAL_DISTANCE s) (hospitals s) pos
       | None => false
       end).
Proof.
  intros Sh In; unfold _is_valid_hospital_position.
  destruct (grid_get_inside _ _ _ _ _ Sh In) as (v & -> & ->); cbn [bind].
  destruct (v =? 0); reflexivity.
Qed.

Lemma try_candidate_spec (old : Coordinate) (dx dy : Z) (f : frame) :
  Inv (self f) -> In old (hospitals (self f)) ->
  try_candidate old dx dy f = Ret (try_pure old dx dy f).
Proof.
  destruct f as [s b i p log]; cbn [self]; intros HI Hold.
  unfold try_candidate, try_pure, improving; cbn [self best_score fst snd].
  set (nx := x old + dx); set (ny := y old + dy).
  change ((0 <=? nx) && (nx <? rows s) && (0 <=? ny) && (ny <? cols s))
    with (in_grid s nx ny).
  destruct (in_grid s nx ny) eqn:G; [|reflexivity].
  apply in_grid_inside in G.
  destruct (inv_hospital s HI old Hold) as [Oin Ocell].
  pose proof (inv_shape s HI) as Sh.
  assert (Sh0 : shaped (rows s) (cols s) (put (grid s) (x old) (y old) 0))
    by now apply put_shaped.
  assert (New : forall d, In d (others old (hospitals s)) -> oid d <> next_oid s).
  { intros d D; apply in_others in D; destruct D as [D _].
    pose proof (inv_fresh s HI d D); lia. }
  model_simpl.
  rewrite (set_remove_in old _ Hold); model_simpl.
  rewrite (grid_set_inside _ _ _ _ _ 0 Sh Oin); model_simpl.
  rewrite is_valid_spec by (model_simpl; assumption); model_simpl.
  unfold candidate_valid, candidate_score.
  change (spaced_from (MIN_HOSPITAL_DISTANCE s) (others old (hospitals s))
            {| oid := next_oid s; x := nx; y := ny |})
    with (spaced_from (MIN_HOSPITAL_DISTANCE s) (others old (hospitals s))
            {| oid := O; x := nx; y := ny |}).
  assert (Back : forall g, cell g (x old) (y old) = Some 2 ->
                 put (put g (x old) (y old) 0) (x old) (y old) 2 = g)
    by (intros g C; rewrite put_put; now apply put_cell).
  destruct (cell (put (grid s) (x old) (y old) 0) nx ny) as [v|] eqn:C.
  2:{ cbn [andb bind]; model_simpl.
      rewrite set_add_others, (grid_set_inside _ _ _ _ _ 2 Sh0 Oin); model_simpl.
      rewrite Back by assumption. reflexivity. }
  destruct (Z.eqb_spec v 0) as [->|Nv]; cbn [andb].
  2:{ cbn [andb bind]; model_simpl.
      rewrite set_add_others, (grid_set_inside _ _ _ _ _ 2 Sh0 Oin); model_simpl.
      rewrite Back by assumption. reflexivity. }
  destruct (spaced_from (MIN_HOSPITAL_DISTANCE s) (others old (hospitals s))
              {| oid := O; x := nx; y := ny |}) eqn:Sp.
  2:{ cbn [andb bind]; model_simpl.
      rewrite set_add_others, (grid_set_inside _ _ _ _ _ 2 Sh0 Oin); model_simpl.
      rewrite Back by assumption. reflexivity. }
  model_simpl.
  rewrite (grid_set_inside _ _ _ _ _ 2 Sh0 G); model_simpl.
  rewrite (set_add_new {| oid := next_oid s; x := nx; y := ny |} _ New).
  unfold set_remove; rewrite set_mem_in by (apply in_or_app; right; now left).
  model_simpl.
  rewrite others_app_self, (others_new {| oid := next_oid s; x := nx; y := ny |} _ New).
  rewrite (grid_set_inside (rows s) (cols s)) by (try apply put_shaped; assumption).
  model_simpl.
  rewrite put_put, (put_cell _ _ _ _ C).
  unfold _calculate_score; model_simpl.
  rewrite (total_distance_last _ _ {| oid := next_oid s; x := nx; y := ny |}
             {| oid := O; x := nx; y := ny |} eq_refl eq_refl).
  destruct (num_lt _ b); model_simpl;
    rewrite set_add_others, (grid_set_inside _ _ _ _ _ 2 Sh0 Oin); model_simpl;
    rewrite Back by assumption; reflexivity.
Qed.

(** ** The nine candidates of one hospital *)

Lemma bind_assoc {A B C : Type} (m : outcome A) (k : A -> outcome B)
      (k' : B -> outcome C) :
  bind (bind m k) k' = bind m (fun a => bind (k a) k').
Proof. destruct m; reflexivity. Qed.

Lemma for_each_app {A S : Type} (l l' : list A) (body : A -> S -> outcome S) (st : S) :
  for_each (l ++ l') body st = bind (for_each l body st) (for_each l' body).
Proof.
  revert st; induction l as [|a l IH]; intros st; cbn [app for_each bind].
  - reflexivity.
  - rewrite bind_assoc; destruct (body a st); cbn [bind]; auto.
Qed.

Lemma for_each_map {A B S : Type} (g : A -> B) (l : list A)
      (body : B -> S -> outcome S) (st : S) :
  for_each (map g l) body st = for_each l (fun a => body (g a)) st.
Proof.
  revert st; induction l as [|a l IH]; intros st; cbn [map for_each]; [reflexivity|].
  destruct (body (g a) st); cbn [bind]; auto.
Qed.

(** Two nested loops are one loop over the pairs, row by row. *)
Lemma for_each_prod {A B S : Type} (l : list A) (l' : list B)
      (body : A -> B -> S -> outcome S) (st : S) :
  for_each l (fun a => for_each l' (body a)) st =
  for_each (list_prod l l') (fun d => body (fst d) (snd d)) st.
Proof.
  revert st; induction l as [|a l IH]; intros st; cbn [list_prod for_each];
    [reflexivity|].
  rewrite for_each_app, for_each_map; cbn [fst snd].
  destruct (for_each l' (body a) st); cbn [bind]; auto.
Qed.

Definition all_offsets : list (Z * Z) := list_prod offsets offsets.

Lemma in_grid_reordered s hs n nx ny :
  in_grid (reordered hs n s) nx ny = in_grid s nx ny.
Proof. reflexivity. Qed.

Lemma improving_reordered (s : HospitalDistribution) (old : Coordinate)
      (hs : list Coordinate) (n : nat) (b : number) (d : Z * Z) :
  others old hs = others old (hospitals s) ->
  improving (reordered hs n s) old b d = improving s old b d.
Proof.
  intros E; unfold improving, candidate_valid, candidate_score, in_grid; model_simpl.
  now rewrite E.
Qed.

Lemma candidate_score_reordered (s : HospitalDistribution) (old : Coordinate)
      (hs : list Coordinate) (n : nat) (nx ny : Z) :
  others old hs = others old (hospitals s) ->
  candidate_score (reordered hs n s) old nx ny = candidate_score s old nx ny.
Proof. intros E; unfold candidate_score; model_simpl; now rewrite E. Qed.

Lemma improving_true (s : HospitalDistribution) (old : Coordinate) (b : number)
      (d : Z * Z) :
  improving s old b d = true ->
  in_grid s (x old + fst d) (y old + snd d) = true
  /\ candidate_valid s old (x old + fst d) (y old + snd d) = true
  /\ num_lt (candidate_score s old (x old + fst d) (y old + snd d)) b = true.
Proof. unfold improving; cbv zeta; rewrite !andb_true_iff; tauto. Qed.

Lemma num_lt_trans (a b c : number) :
  num_lt a b = true -> num_lt b c = true -> num_lt a c = true.
Proof.
  destruct a, b, c; cbn [num_lt]; rewrite ?Z.ltb_lt; try congruence; lia.
Qed.

Lemma improving_weaken (s : HospitalDistribution) (old : Coordinate) (b b' : number)
      (d : Z * Z) :
  num_lt b b' = true -> improving s old b d = true -> improving s old b' d = true.
Proof.
  intros L H; apply improving_true in H; destruct H as (G & V & Lt).
  unfold improving; cbv zeta; rewrite G, V; cbn [andb].
  eapply num_lt_trans; eassumption.
Qed.

(** The state of the scan of [old], started in model [s0] with running
    best [b0], flag [i0] and moves [log0], once the offsets [visited]
    have been tried. *)
Record scanning (s0 : HospitalDistribution) (old : Coordinate) (b0 : number)
       (i0 : bool) (log0 : list (Coordinate * Coordinate))
       (visited : list (Z * Z)) (f : frame) : Prop := mkScanning {
  sc_self : exists hs n,
      self f = reordered hs n s0
      /\ Permutation (hospitals s0) hs
      /\ others old hs = others old (hospitals s0)
      /\ (next_oid s0 <= n)%nat
      /\ match best_new_pos f with
         | Some p => (next_oid s0 <= oid p < n)%nat
         | None => True
         end;
  sc_moves : relocations f = log0;
  sc_best : match best_new_pos f with
            | None =>
                best_score f = b0 /\ improved f = i0
                /\ forall d, In d visited -> improving s0 old b0 d = false
            | Some p =>
                improved f = true
                /\ best_score f = candidate_score s0 old (x p) (y p)
                /\ exists d, In d visited
                     /\ x p = x old + fst d /\ y p = y old + snd d
                     /\ improving s0 old b0 d = true
            end
}.

Lemma scanning_step (s0 : HospitalDistribution) (old : Coordinate) (b0 : number)
      (i0 : bool) (log0 : list (Coordinate * Coordinate))
      (visited : list (Z * Z)) (f : frame) (d : Z * Z) :
  Inv s0 -> In old (hospitals s0) ->
  scanning s0 old b0 i0 log0 visited f ->
  scanning s0 old b0 i0 log0 (d :: visited) (try_pure old (fst d) (snd d) f).
Proof.
  intros HI Hold [(hs & n & Es & P & Eo & Ln & Hp) Hm Hb].
  destruct d as [dx dy].
  destruct f as [s b i p log]; model_simpl; subst s log.
  unfold try_pure; model_simpl.
  rewrite in_grid_reordered, improving_reordered, candidate_score_reordered
    by assumption.
  assert (P' : Permutation (hospitals s0) (others old hs ++ [old])).
  { eapply Permutation_trans; [exact P|]; apply others_split.
    - eapply Permutation_NoDup; [apply Permutation_map; exact P|].
      now apply inv_nodup.
    - eapply Permutation_in; eassumption. }
  assert (Eo' : others old (others old hs ++ [old]) = others old (hospitals s0))
    by now rewrite others_app_self, others_idem.
  destruct (in_grid s0 (x old + dx) (y old + dy)) eqn:G.
  2:{ constructor; model_simpl; [exists hs, n; auto| reflexivity |].
      destruct p as [q|].
      - destruct Hb as (Hi & Hs & d' & Hd & Hq); repeat split; auto.
        exists d'; split; [now right|assumption].
      - destruct Hb as (Hs & Hi & Hv); repeat split; auto.
        intros d' [<-|Hd]; [|now apply Hv].
        unfold improving; cbn [fst snd]; now rewrite G. }
  destruct (improving s0 old b (dx, dy)) eqn:Im.
  - constructor; model_simpl.
    + exists (others old hs ++ [old]), (S n); repeat split; auto; lia.
    + reflexivity.
    + repeat split; auto. exists (dx, dy); repeat split; [now left|].
      destruct p as [q|].
      * destruct Hb as (Hi & Hs & d' & Hd & Hx & Hy & Hq).
        apply improving_weaken with (b := b); [|assumption].
        subst b; apply improving_true in Hq as (_ & _ & Hq).
        now rewrite Hx, Hy.
      * destruct Hb as (Hs & Hi & Hv); now subst b.
  - constructor; unfold with_self; model_simpl.
    + exists (others old hs ++ [old]), (S n).
      do 3 (split; [auto|]); split; [lia|].
      destruct p; [lia|exact I].
    + reflexivity.
    + destruct p as [q|].
      * destruct Hb as (Hi & Hs & d' & Hd & Hq); repeat split; auto.
        exists d'; split; [now right|assumption].
      * destruct Hb as (Hs & Hi & Hv); repeat split; auto.
        intros d' [<-|Hd]; [|now apply Hv]. now subst b.
Qed.

Lemma scanning_self (s0 : HospitalDistribution) (old : Coordinate) (b0 : number)
      (i0 : bool) (log0 : list (Coordinate * Coordinate))
      (visited : list (Z * Z)) (f : frame) :
  Inv s0 -> In old (hospitals s0) ->
  scanning s0 old b0 i0 log0 visited f ->
  Inv (self f) /\ In old (hospitals (self f)).
Proof.
  intros HI Hold [(hs & n & -> & P & _ & Ln & _) _ _]; split.
  - now apply Inv_reordered.
  - model_simpl; eapply Permutation_in; eassumption.
Qed.

Lemma scan_loop (s0 : HospitalDistribution) (old : Coordinate) (b0 : number)
      (i0 : bool) (log0 : list (Coordinate * Coordinate)) (pending : list (Z * Z)) :
  Inv s0 -> In old (hospitals s0) ->
  forall visited f,
    scanning s0 old b0 i0 log0 visited f ->
    exists f',
      for_each pending (fun d => try_candidate old (fst d) (snd d)) f = Ret f'
      /\ scanning s0 old b0 i0 log0 (rev pending ++ visited) f'.
Proof.
  intros HI Hold; induction pending as [|d pending IH]; intros visited f Sc;
    cbn [for_each rev app].
  - now exists f.
  - destruct (scanning_self _ _ _ _ _ _ _ HI Hold Sc) as [HI' Hold'].
    rewrite try_candidate_spec by assumption; cbn [bind].
    rewrite <- app_assoc; cbn [app].
    apply IH; now apply scanning_step.
Qed.

Lemma reordered_self (s : HospitalDistribution) :
  reordered (hospitals s) (next_oid s) s = s.
Proof. now destruct s. Qed.

Lemma scan_spec (old : Coordinate) (f0 : frame) :
  Inv (self f0) -> In old (hospitals (self f0)) -> best_new_pos f0 = None ->
  exists f,
    for_each offsets
      (fun dx => for_each offsets (fun dy => try_candidate old dx dy)) f0 = Ret f
    /\ scanning (self f0) old (best_score f0) (improved f0) (relocations f0)
         all_offsets f.
Proof.
  intros HI Hold Hn.
  rewrite (for_each_prod offsets offsets (try_candidate old)).
  destruct (scan_loop (self f0) old (best_score f0) (improved f0) (relocations f0)
              all_offsets HI Hold [] f0) as (f & E & Sc).
  - constructor; [|reflexivity|rewrite Hn; repeat split; intros d []].
    exists (hospitals (self f0)), (next_oid (self f0)).
    rewrite reordered_self, Hn; repeat split; auto.
  - exists f; split; [exact E|].
    rewrite app_nil_r in Sc; destruct Sc as [Hs Hm Hb]; constructor; auto.
    destruct (best_new_pos f) as [p|].
    + destruct Hb as (Hi & Hsc & d & Hd & Hq); repeat split; auto.
      exists d; split; [now apply in_rev|assumption].
    + destruct Hb as (Hsc & Hi & Hv); repeat split; auto.
      intros d Hd; apply Hv; now apply in_rev in Hd.
Qed.

(** ** Committing a move *)

Lemma move_cells (r c : Z) (g : list (list Z)) (ox oy px py : Z) :
  shaped r c g -> inside r c ox oy -> inside r c px py ->
  cell g ox oy = Some 2 -> cell (put g ox oy 0) px py = Some 0 ->
  forall i j, inside r c i j ->
    (cell (put (put g ox oy 0) px py 2) i j = Some 1 <-> cell g i j = Some 1).
Proof.
  intros Sh Ho Hp Co Cp i j Hij.
  assert (Sh0 : shaped r c (put g ox oy 0)) by now apply put_shaped.
  destruct (Z.eq_dec px i) as [<-|Ni], (Z.eq_dec py j) as [<-|Nj];
    [|rewrite cell_put_other by (unfold inside in *; lia)..].
  - rewrite (cell_put_same r c) by assumption.
    destruct (Z.eq_dec ox px) as [<-|Nx], (Z.eq_dec oy py) as [<-|Ny];
      [|rewrite cell_put_other in Cp by (unfold inside in *; lia)..];
      rewrite ?Co, ?Cp; split; congruence.
  - destruct (Z.eq_dec ox px) as [<-|Nx], (Z.eq_dec oy j) as [<-|Ny];
      [|rewrite cell_put_other by (unfold inside in *; lia); tauto ..].
    rewrite (cell_put_same r c), Co by assumption; split; congruence.
  - destruct (Z.eq_dec ox i) as [<-|Nx], (Z.eq_dec oy py) as [<-|Ny];
      [|rewrite cell_put_other by (unfold inside in *; lia); tauto ..].
    rewrite (cell_put_same r c), Co by assumption; split; congruence.
  - destruct (Z.eq_dec ox i) as [<-|Nx], (Z.eq_dec oy j) as [<-|Ny];
      [|rewrite cell_put_other by (unfold inside in *; lia); tauto ..].
    rewrite (cell_put_same r c), Co by assumption; split; congruence.
Qed.

(** The model after [old] has moved to the new object [p]. *)
Definition moved (old p : Coordinate) (n : nat) (s : HospitalDistribution) :=
  mkHospitalDistribution (rows s) (cols s) (num_hospitals s) (num_houses s)
    (put (put (grid s) (x old) (y old) 0) (x p) (y p) 2)
    (others old (hospitals s) ++ [p]) (houses s)
    (MIN_HOSPITAL_DISTANCE s) (MAX_HOUSE_HOSPITAL_DISTANCE s) n.

Lemma candidate_valid_true (s : HospitalDistribution) (old p : Coordinate) :
  candidate_valid s old (x p) (y p) = true ->
  cell (put (grid s) (x old) (y old) 0) (x p) (y p) = Some 0
  /\ forall h, In h (others old (hospitals s)) ->
       MIN_HOSPITAL_DISTANCE s <= distance_to p h.
Proof.
  unfold candidate_valid.
  destruct (cell (put (grid s) (x old) (y old) 0) (x p) (y p)) as [v|]; [|discriminate].
  rewrite andb_true_iff, Z.eqb_eq, spaced_from_spec; intros [-> F]; split; auto.
Qed.

Lemma NoDup_others_fresh (old p : Coordinate) (hs : list Coordinate) (m : nat) :
  NoDup (map oid hs) -> (forall h, In h hs -> (oid h < m)%nat) -> (m <= oid p)%nat ->
  NoDup (map oid (others old hs ++ [p])).
Proof.
  intros N F L; rewrite map_app; cbn [map].
  apply Permutation_NoDup with (l := oid p :: map oid (others old hs));
    [apply Permutation_cons_append|].
  constructor.
  - intros H; apply in_map_iff in H; destruct H as (h & E & H).
    apply in_others in H; destruct H as [H _]; specialize (F h H); lia.
  - unfold others; induction hs as [|h hs IH]; cbn [filter map]; [constructor|].
    cbn [map] in N; inversion N as [|? ? Nh N']; subst.
    assert (IH' := IH N' (fun k K => F k (or_intror K))).
    destruct (negb (coord_eqb old h)); [|assumption].
    cbn [map]; constructor; [|assumption].
    intros H; apply Nh; apply in_map_iff in H; destruct H as (k & E & H).
    apply filter_In in H; destruct H as [H _]; rewrite <- E; now apply in_map.
Qed.

Lemma Inv_moved (s : HospitalDistribution) (old p : Coordinate) (n : nat) :
  Inv s -> In old (hospitals s) ->
  in_grid s (x p) (y p) = true -> candidate_valid s old (x p) (y p) = true ->
  (next_oid s <= oid p < n)%nat ->
  Inv (moved old p n s).
Proof.
  intros HI Hold G V Hp.
  apply in_grid_inside in G.
  apply candidate_valid_true in V; destruct V as [C0 Sp].
  rewrite (inv_min s HI) in Sp.
  destruct (inv_hospital s HI old Hold) as [Oin Ocell].
  pose proof (inv_shape s HI) as Sh.
  assert (Sh0 : shaped (rows s) (cols s) (put (grid s) (x old) (y old) 0))
    by now apply put_shaped.
  pose proof (move_cells _ _ _ _ _ _ _ Sh Oin G Ocell C0) as Cells.
  constructor; unfold moved; model_simpl.
  - now apply inv_min.
  - now apply put_shaped.
  - apply NoDup_others_fresh with (m := next_oid s);
      [now apply inv_nodup|now apply inv_fresh|lia].
  - intros h H; apply in_app_or in H; destruct H as [H|[<-|[]]]; [|lia].
    apply in_others in H; destruct H as [H _].
    pose proof (inv_fresh s HI h H); lia.
  - intros h H; apply in_app_or in H; destruct H as [H|[<-|[]]].
    + pose proof (Sp h H) as Dp.
      apply in_others in H; destruct H as [H Nh].
      destruct (inv_hospital s HI h H) as [Hin Hcell]; split; [assumption|].
      pose proof (inv_spaced s HI old h Hold H (not_eq_sym Nh)) as Do.
      unfold distance_to in Dp, Do; unfold inside in *.
      rewrite !cell_put_other by lia; assumption.
    + split; [assumption|]. now apply (cell_put_same (rows s) (cols s)).
  - intros h1 h2 H1 H2 N.
    apply in_app_or in H1; apply in_app_or in H2.
    destruct H1 as [H1|[<-|[]]], H2 as [H2|[<-|[]]].
    + apply in_others in H1, H2; apply (inv_spaced s HI); tauto.
    + rewrite distance_to_sym; now apply Sp.
    + now apply Sp.
    + congruence.
  - intros k K; pose proof (inv_house_fresh s HI k K); lia.
  - intros k K; destruct (inv_house s HI k K) as [Kin Kcell]; split; [assumption|].
    now apply Cells.
  - now apply inv_house_nodup.
Qed.

(** What a step of the optimiser leaves alone. *)
Record evolves (s s' : HospitalDistribution) : Prop := mkEvolves {
  ev_rows : rows s' = rows s;
  ev_cols : cols s' = cols s;
  ev_num_hospitals : num_hospitals s' = num_hospitals s;
  ev_num_houses : num_houses s' = num_houses s;
  ev_houses : houses s' = houses s;
  ev_min : MIN_HOSPITAL_DISTANCE s' = MIN_HOSPITAL_DISTANCE s;
  ev_max : MAX_HOUSE_HOSPITAL_DISTANCE s' = MAX_HOUSE_HOSPITAL_DISTANCE s;
  ev_oid : (next_oid s <= next_oid s')%nat;
  ev_length : length (hospitals s') = length (hospitals s);
  ev_cells : forall i j, inside (rows s) (cols s) i j ->
    (cell (grid s') i j = Some 1 <-> cell (grid s) i j = Some 1)
}.

Lemma evolves_refl (s : HospitalDistribution) : evolves s s.
Proof. constructor; auto; tauto. Qed.

Lemma evolves_trans (s s' s'' : HospitalDistribution) :
  evolves s s' -> evolves s' s'' -> evolves s s''.
Proof.
  intros [] []; constructor; try congruence; try lia.
  intros i j H; rewrite <- ev_cells0 by assumption.
  apply ev_cells1; congruence.
Qed.

Lemma length_others_split (old p : Coordinate) (hs : list Coordinate) :
  NoDup (map oid hs) -> In old hs ->
  length (others old hs ++ [p]) = length hs.
Proof.
  intros N H; rewrite (Permutation_length (others_split old hs N H)).
  now rewrite !length_app.
Qed.

Lemma score_moved (s : HospitalDistribution) (old p : Coordinate) (n : nat) :
  _calculate_score (moved old p n s) = candidate_score s old (x p) (y p).
Proof.
  unfold _calculate_score, candidate_score, moved; model_simpl.
  now apply total_distance_last.
Qed.

Lemma score_reordered (s : HospitalDistribution) (hs : list Coordinate) (n : nat) :
  Permutation (hospitals s) hs ->
  _calculate_score (reordered hs n s) = _calculate_score s.
Proof.
  intros P; unfold _calculate_score; model_simpl.
  apply total_distance_perm; now apply Permutation_sym.
Qed.

(** Staying where it is gives the score the model already has. *)
Lemma candidate_score_stay (s : HospitalDistribution) (old : Coordinate) :
  Inv s -> In old (hospitals s) ->
  candidate_score s old (x old) (y old) = _calculate_score s.
Proof.
  intros HI Hold; unfold candidate_score, _calculate_score.
  rewrite (total_distance_last _ _ {| oid := O; x := x old; y := y old |} old
             eq_refl eq_refl).
  apply total_distance_perm, Permutation_sym, others_split;
    [now apply inv_nodup|assumption].
Qed.

Lemma improving_stay (s : HospitalDistribution) (old : Coordinate) (b : number) :
  Inv s -> In old (hospitals s) -> num_le b (_calculate_score s) = true ->
  improving s old b (0, 0) = false.
Proof.
  intros HI Hold L; unfold improving; cbn [fst snd].
  rewrite !Z.add_0_r, candidate_score_stay by assumption.
  unfold num_le in L; apply negb_true_iff in L; rewrite L.
  apply andb_false_r.
Qed.

(** ** One hospital: [relocate] *)

Definition stayed (old : Coordinate) (f0 f' : frame) : Prop :=
  (forall d, In d all_offsets ->
             improving (self f0) old (best_score f0) d = false)
  /\ best_score f' = best_score f0
  /\ improved f' = improved f0
  /\ relocations f' = relocations f0
  /\ grid (self f') = grid (self f0)
  /\ Permutation (hospitals (self f0)) (hospitals (self f')).

Definition moved_to (old : Coordinate) (f0 f' : frame) (p : Coordinate) : Prop :=
  (exists d, In d all_offsets
             /\ x p = x old + fst d /\ y p = y old + snd d
             /\ improving (self f0) old (best_score f0) d = true)
  /\ relocations f' = relocations f0 ++ [(old, p)]
  /\ improved f' = true
  /\ best_score f' = _calculate_score (self f')
  /\ num_lt (best_score f') (best_score f0) = true
  /\ hospitals (self f') = others old (hospitals (self f0)) ++ [p]
  /\ (next_oid (self f0) <= oid p)%nat.

Record relocated (old : Coordinate) (f0 f' : frame) : Prop := mkRelocated {
  rl_inv : Inv (self f');
  rl_evolves : evolves (self f0) (self f');
  rl_keep : forall h, In h (hospitals (self f0)) -> oid h <> oid old ->
                      In h (hospitals (self f'));
  rl_case : stayed old f0 f' \/ exists p, moved_to old f0 f' p
}.

Lemma relocate_spec (old : Coordinate) (f0 : frame) :
  Inv (self f0) -> In old (hospitals (self f0)) ->
  exists f', relocate old f0 = Ret f' /\ relocated old f0 f'.
Proof.
  intros HI Hold; unfold relocate; cbv zeta.
  destruct (scan_spec old
              (mkFrame (self f0) (best_score f0) (improved f0) None (relocations f0))
              HI Hold eq_refl) as (f & -> & Sc); cbn [bind].
  destruct f0 as [s0 b0 i0 p0 log0]; model_simpl.
  destruct Sc as [(hs & n & Es & P & Eo & Ln & Hp) Hm Hb].
  destruct f as [s b i p log]; model_simpl; subst s log.
  assert (Hold' : In old hs) by (eapply Permutation_in; eassumption).
  destruct (inv_hospital s0 HI old Hold) as [Oin Ocell].
  pose proof (inv_shape s0 HI) as Sh.
  destruct p as [p|].
  - destruct Hb as (-> & -> & d & Hd & Hx & Hy & Him).
    pose proof Him as Him'.
    apply improving_true in Him'; rewrite <- Hx, <- Hy in Him'.
    destruct Him' as (G & V & Lt).
    pose proof G as G'; apply in_grid_inside in G'.
    assert (New : forall h, In h (others old (hospitals s0)) -> oid h <> oid p).
    { intros h H; apply in_others in H; destruct H as [H _].
      pose proof (inv_fresh s0 HI h H); lia. }
    model_simpl; rewrite (set_remove_in old hs Hold'); model_simpl.
    rewrite (grid_set_inside _ _ _ _ _ 0 Sh Oin); model_simpl.
    rewrite Eo, (set_add_new p _ New).
    rewrite (grid_set_inside (rows s0) (cols s0)) by (try apply put_shaped; assumption).
    model_simpl.
    exists (mkFrame (moved old p n s0) (candidate_score s0 old (x p) (y p)) true
              (Some p) (log0 ++ [(old, p)])); split; [reflexivity|].
    constructor; model_simpl.
    + apply Inv_moved; auto.
    + constructor; unfold moved; model_simpl; auto.
      * apply length_others_split; [now apply inv_nodup|assumption].
      * apply candidate_valid_true in V; destruct V as [C0 _].
        now apply (move_cells _ _ _ _ _ _ _ Sh Oin G' Ocell C0).
    + intros h H N; unfold moved; model_simpl.
      apply in_or_app; left; apply in_others; now split.
    + right; exists p; unfold moved_to; model_simpl.
      rewrite score_moved; repeat split; auto; try lia.
      exists d; auto.
  - destruct Hb as (-> & -> & Hv).
    eexists; split; [reflexivity|].
    constructor; model_simpl.
    + now apply Inv_reordered.
    + constructor; model_simpl; auto; [|tauto].
      symmetry; now apply Permutation_length.
    + intros h H _; eapply Permutation_in; eassumption.
    + left; unfold stayed; model_simpl; repeat split; auto.
Qed.

(** ** One sweep over the snapshot *)

Lemma improving_perm (s s' : HospitalDistribution) (old : Coordinate) (b : number)
      (d : Z * Z) :
  rows s' = rows s -> cols s' = cols s -> grid s' = grid s ->
  houses s' = houses s -> MIN_HOSPITAL_DISTANCE s' = MIN_HOSPITAL_DISTANCE s ->
  Permutation (hospitals s) (hospitals s') ->
  improving s' old b d = improving s old b d.
Proof.
  intros Er Ec Eg Eh Em P.
  pose proof (others_perm old _ _ P) as Po.
  unfold improving, in_grid, candidate_valid, candidate_score; cbv zeta.
  rewrite Er, Ec, Eg, Eh, Em.
  rewrite (total_distance_perm _ _ _ (Permutation_app_tail _ Po)).
  destruct (cell _ _ _); [|reflexivity].
  now rewrite (spaced_from_perm _ _ _ _ Po).
Qed.

Lemma num_le_refl (a : number) : num_le a a = true.
Proof. destruct a; unfold num_le; cbn [num_lt]; [|reflexivity]. now rewrite Z.ltb_irrefl. Qed.

Lemma num_lt_le (a b : number) : num_lt a b = true -> num_le a b = true.
Proof.
  unfold num_le; destruct a, b; cbn [num_lt negb]; try congruence.
  rewrite Z.ltb_lt, negb_true_iff, Z.ltb_ge; lia.
Qed.

Lemma num_le_trans (a b c : number) :
  num_le a b = true -> num_le b c = true -> num_le a c = true.
Proof.
  unfold num_le; destruct a, b, c; cbn [num_lt negb]; try congruence.
  rewrite !negb_true_iff, !Z.ltb_ge; lia.
Qed.

(** A move to one of the eight neighbouring cells. *)
Definition proper_move (m : Coordinate * Coordinate) : Prop :=
  Z.abs (x (snd m) - x (fst m)) <= 1 /\ Z.abs (y (snd m) - y (fst m)) <= 1
  /\ (x (snd m) <> x (fst m) \/ y (snd m) <> y (fst m)).

Lemma all_offsets_spec (d : Z * Z) :
  In d all_offsets -> d = (0, 0) \/
    (Z.abs (fst d) <= 1 /\ Z.abs (snd d) <= 1 /\ (fst d <> 0 \/ snd d <> 0)).
Proof.
  unfold all_offsets, offsets; cbn [list_prod map app In].
  intros H; repeat (destruct H as [<-|H]; [cbn [fst snd]; (now left) || (right; lia)|]).
  destruct H.
Qed.

Lemma moved_to_proper (old : Coordinate) (f0 f' : frame) (p : Coordinate) :
  Inv (self f0) -> In old (hospitals (self f0)) ->
  best_score f0 = _calculate_score (self f0) ->
  moved_to old f0 f' p -> proper_move (old, p).
Proof.
  intros HI Hold Hb ((d & Hd & Hx & Hy & Him) & _).
  apply all_offsets_spec in Hd; destruct Hd as [->|Hd].
  - rewrite improving_stay in Him; [discriminate|assumption..|].
    rewrite Hb; apply num_le_refl.
  - unfold proper_move; cbn [fst snd]; lia.
Qed.

(** The frame after the loop over the hospitals [pending], started in [f0]. *)
Record swept (pending : list Coordinate) (f0 f' : frame) : Prop := mkSwept {
  sw_inv : Inv (self f');
  sw_evolves : evolves (self f0) (self f');
  sw_moves : exists ms,
      relocations f' = relocations f0 ++ ms
      /\ (ms = [] ->
          best_score f' = best_score f0 /\ improved f' = improved f0
          /\ grid (self f') = grid (self f0)
          /\ Permutation (hospitals (self f0)) (hospitals (self f'))
          /\ forall h d, In h pending -> In d all_offsets ->
               improving (self f0) h (best_score f0) d = false)
      /\ (ms <> [] -> improved f' = true)
      /\ (best_score f0 = _calculate_score (self f0) ->
          best_score f' = _calculate_score (self f')
          /\ (ms <> [] -> num_lt (best_score f') (best_score f0) = true)
          /\ Forall proper_move ms)
}.

Lemma stayed_score (old : Coordinate) (f0 f' : frame) :
  evolves (self f0) (self f') -> stayed old f0 f' ->
  best_score f0 = _calculate_score (self f0) ->
  best_score f' = _calculate_score (self f').
Proof.
  intros Ev (_ & Hb & _ & _ & _ & P) E; rewrite Hb, E.
  unfold _calculate_score; rewrite (ev_houses _ _ Ev).
  now apply total_distance_perm.
Qed.

Lemma sweep_loop (pending : list Coordinate) :
  forall f0,
    Inv (self f0) -> NoDup (map oid pending) ->
    (forall h, In h pending -> In h (hospitals (self f0))) ->
    exists f', for_each pending relocate f0 = Ret f' /\ swept pending f0 f'.
Proof.
  induction pending as [|old pending IH]; intros f0 HI N Hin; cbn [for_each].
  - exists f0; split; [reflexivity|]; constructor; auto using evolves_refl.
    exists []; rewrite app_nil_r; repeat split; auto; try congruence.
    intros h d [].
  - cbn [map] in N; inversion N as [|? ? Nold N']; subst.
    assert (Hold : In old (hospitals (self f0))) by (apply Hin; now left).
    destruct (relocate_spec old f0 HI Hold) as (f1 & -> & [HI1 Ev1 Keep Case]).
    cbn [bind].
    destruct (IH f1 HI1 N') as (f' & E & [HI' Ev' (ms & Em & Quiet & Busy & Sc)]).
    { intros h H; apply Keep; [apply Hin; now right|].
      intros Eo; apply Nold; rewrite <- Eo; now apply in_map. }
    exists f'; split; [exact E|].
    constructor; [assumption|eapply evolves_trans; eassumption|].
    destruct Case as [St|(p & Mv)].
    + pose proof St as (Hv & Hb & Hi & Hm & Hg & P).
      exists ms; split; [congruence|]; split; [|split; [assumption|]].
      * intros ->; destruct (Quiet eq_refl) as (Hb' & Hi' & Hg' & P' & Hv').
        repeat split; try congruence.
        -- eapply Permutation_trans; eassumption.
        -- intros h d [<-|H] Hd; [now apply Hv|].
           rewrite <- Hb, <- (Hv' h d H Hd).
           symmetry; apply improving_perm; auto; apply Ev1.
      * intros E0; pose proof (stayed_score _ _ _ Ev1 St E0) as E1.
        destruct (Sc E1) as (Sc1 & Sc2 & Sc3); rewrite <- Hb; auto.
    + pose proof Mv as (Hd & Hm & Hi & Hb & Lt & Hh & Ho).
      exists ((old, p) :: ms); split; [|split; [discriminate|split]].
      * rewrite Em, Hm, <- app_assoc; reflexivity.
      * intros _; destruct ms as [|m ms]; [|apply Busy; discriminate].
        destruct (Quiet eq_refl) as (_ & -> & _); assumption.
      * intros E0; destruct (Sc Hb) as (Sc1 & Sc2 & Sc3).
        split; [assumption|split].
        -- intros _; destruct ms as [|m ms].
           ++ destruct (Quiet eq_refl) as (-> & _); assumption.
           ++ eapply num_lt_trans; [apply Sc2; discriminate|assumption].
        -- constructor; [|assumption].
           apply (moved_to_proper old f0 f1 p); assumption.
Qed.

(** A sweep over hospitals none of which has an improving candidate
    moves nothing. *)
Lemma quiet_loop (pending : list Coordinate) :
  forall f0,
    Inv (self f0) -> NoDup (map oid pending) ->
    (forall h, In h pending -> In h (hospitals (self f0))) ->
    (forall h d, In h pending -> In d all_offsets ->
                 improving (self f0) h (best_score f0) d = false) ->
    exists f',
      for_each pending relocate f0 = Ret f'
      /\ Inv (self f') /\ evolves (self f0) (self f')
      /\ relocations f' = relocations f0 /\ improved f' = improved f0
      /\ best_score f' = best_score f0 /\ grid (self f') = grid (self f0)
      /\ Permutation (hospitals (self f0)) (hospitals (self f')).
Proof.
  induction pending as [|old pending IH]; intros f0 HI N Hin Hv; cbn [for_each].
  - exists f0; split; [reflexivity|]; split; [assumption|].
    split; [apply evolves_refl|]; repeat split; auto.
  - cbn [map] in N; inversion N as [|? ? Nold N']; subst.
    assert (Hold : In old (hospitals (self f0))) by (apply Hin; now left).
    destruct (relocate_spec old f0 HI Hold) as (f1 & -> & [HI1 Ev1 Keep Case]).
    cbn [bind].
    destruct Case as [(_ & Hb & Hi & Hm & Hg & P)|(p & (d & Hd & _ & _ & Him) & _)].
    2:{ rewrite Hv in Him; [discriminate|now left|assumption]. }
    destruct (IH f1 HI1 N') as (f' & E & HI' & Ev' & Hm' & Hi' & Hb' & Hg' & P').
    + intros h H; apply Keep; [apply Hin; now right|].
      intros Eo; apply Nold; rewrite <- Eo; now apply in_map.
    + intros h d H Hd; rewrite Hb, <- (Hv h d (or_intror H) Hd).
      apply improving_perm; auto; apply Ev1.
    + exists f'; split; [exact E|]; split; [assumption|].
      split; [eapply evolves_trans; eassumption|]; repeat split; try congruence.
      eapply Permutation_trans; eassumption.
Qed.

(** ** The score is a non-negative integer *)

Lemma min_distance_from (hs : list Coordinate) (house : Coordinate) (a : Z) :
  0 <= a ->
  exists z, fold_left (fun m hospital => num_min m (Int (distance_to house hospital)))
              hs (Int a) = Int z /\ 0 <= z.
Proof.
  revert a; induction hs as [|h hs IH]; intros a Ha; cbn [fold_left].
  - now exists a.
  - unfold num_min at 2; cbn [num_lt].
    destruct (distance_to house h <? a); apply IH;
      [apply distance_to_nonneg|assumption].
Qed.

Lemma min_distance_int (hs : list Coordinate) (house : Coordinate) :
  hs <> [] -> exists z, min_distance hs house = Int z /\ 0 <= z.
Proof.
  destruct hs as [|h hs]; [congruence|intros _].
  unfold min_distance; cbn [fold_left]; unfold num_min at 2; cbn [num_lt].
  apply min_distance_from, distance_to_nonneg.
Qed.

Lemma total_distance_from (ks hs : list Coordinate) (a : Z) :
  hs <> [] -> 0 <= a ->
  exists z, fold_left (fun total house => num_add total (min_distance hs house))
              ks (Int a) = Int z /\ 0 <= z.
Proof.
  intros Hn; revert a; induction ks as [|k ks IH]; intros a Ha; cbn [fold_left].
  - now exists a.
  - destruct (min_distance_int hs k Hn) as (z & -> & Hz); cbn [num_add].
    apply IH; lia.
Qed.

Lemma score_int (s : HospitalDistribution) :
  hospitals s <> [] -> exists z, _calculate_score s = Int z /\ 0 <= z.
Proof.
  intros Hn; unfold _calculate_score, total_distance.
  now apply total_distance_from.
Qed.

(** The number of improving sweeps a call can still make. *)
Definition weight (b : number) : nat :=
  match b with
  | Int z => Z.to_nat z
  | Inf => O
  end.

(** No hospital of the model has a candidate that lowers the score. *)
Definition converged (s : HospitalDistribution) : Prop :=
  forall h d, In h (hospitals s) -> In d all_offsets ->
              improving s h (_calculate_score s) d = false.

Section OptimizerProperties.

Variable order : list Coordinate -> list Coordinate.
Hypothesis order_perm : forall l, Permutation (order l) l.

Lemma order_nodup (s : HospitalDistribution) :
  Inv s -> NoDup (map oid (order (hospitals s))).
Proof.
  intros HI; eapply Permutation_NoDup;
    [apply Permutation_map, Permutation_sym, order_perm|now apply inv_nodup].
Qed.

Lemma order_in (l : list Coordinate) (h : Coordinate) :
  In h (order l) <-> In h l.
Proof.
  split; apply Permutation_in; [|apply Permutation_sym]; apply order_perm.
Qed.

Lemma sweep_spec (f : frame) :
  Inv (self f) ->
  exists f', sweep order f = Ret f'
    /\ swept (order (hospitals (self f)))
         (mkFrame (self f) (best_score f) false (best_new_pos f) (relocations f)) f'.
Proof.
  intros HI; unfold sweep; cbv zeta; cbn [self].
  apply sweep_loop; cbn [self]; [assumption|now apply order_nodup|].
  intros h; apply order_in.
Qed.

Lemma while_improved_stop (fuel : nat) (f : frame) :
  improved f = false -> while_improved order fuel f = Ret f.
Proof. intros E; destruct fuel; cbn [while_improved]; now rewrite E. Qed.

Lemma while_improved_more (fuel fuel' : nat) (f f' : frame) :
  while_improved order fuel f = Ret f' -> (fuel <= fuel')%nat ->
  while_improved order fuel' f = Ret f'.
Proof.
  revert fuel' f; induction fuel as [|fuel IH]; intros fuel' f E L.
  - cbn [while_improved] in E; destruct (improved f) eqn:Ei; [discriminate|].
    now rewrite while_improved_stop.
  - destruct fuel' as [|fuel']; [lia|].
    cbn [while_improved] in *; destruct (improved f); [|assumption].
    destruct (sweep order f) as [f1| |]; cbn [bind] in *; try discriminate.
    apply IH; [assumption|lia].
Qed.

(** The frame when the [while] loop is left. *)
Record optimized (f0 f' : frame) : Prop := mkOptimized {
  op_inv : Inv (self f');
  op_evolves : evolves (self f0) (self f');
  op_score : best_score f' = _calculate_score (self f');
  op_le : num_le (best_score f') (best_score f0) = true;
  op_converged : converged (self f');
  op_moves : exists ms,
      relocations f' = relocations f0 ++ ms
      /\ Forall proper_move ms
      /\ (ms = [] -> grid (self f') = grid (self f0)
                     /\ Permutation (hospitals (self f0)) (hospitals (self f')))
}.

Lemma sweep_empty (f : frame) :
  hospitals (self f) = [] ->
  sweep order f =
  Ret (mkFrame (self f) (best_score f) false (best_new_pos f) (relocations f)).
Proof.
  intros E; unfold sweep; cbv zeta; cbn [self].
  pose proof (order_perm (hospitals (self f))) as P; rewrite E in P.
  apply Permutation_sym, Permutation_nil in P; now rewrite E, P.
Qed.

Lemma while_improved_spec (fuel : nat) :
  forall f,
    Inv (self f) -> improved f = true ->
    best_score f = _calculate_score (self f) ->
    (weight (best_score f) < fuel)%nat ->
    exists f', while_improved order fuel f = Ret f' /\ optimized f f'.
Proof.
  induction fuel as [|fuel IH]; intros f HI Hi Hb Hw; [lia|].
  cbn [while_improved]; rewrite Hi.
  destruct (hospitals (self f)) as [|h0 hs0] eqn:Eh.
  { rewrite sweep_empty by assumption; cbn [bind].
    rewrite while_improved_stop by reflexivity.
    eexists; split; [reflexivity|]; constructor; model_simpl;
      auto using evolves_refl.
    - rewrite Hb; apply num_le_refl.
    - intros h d H; rewrite Eh in H; destruct H.
    - exists []; rewrite app_nil_r; auto using Permutation_refl. }
  destruct (sweep_spec f HI) as (f1 & -> & [HI1 Ev1 (ms & Hm & Quiet & Busy & Sc)]).
  cbn [bind]; model_simpl.
  destruct (Sc Hb) as (Hb1 & Lt & Pm).
  destruct ms as [|m ms].
  - destruct (Quiet eq_refl) as (Eb & Ei & Eg & P & Hv).
    rewrite while_improved_stop by assumption.
    exists f1; split; [reflexivity|]; constructor; auto.
    + rewrite Eb; apply num_le_refl.
    + intros h d H Hd; rewrite <- Hb1, Eb.
      rewrite <- (Hv h d); [apply improving_perm; auto; apply Ev1| |assumption].
      apply order_in; eapply Permutation_in; [apply Permutation_sym|]; eassumption.
    + exists []; auto.
  - assert (Lt' := Lt ltac:(discriminate)).
    destruct (IH f1) as (f' & E & [HI' Ev' Hb' Le' Cv' (ms' & Hm' & Pm' & _)]);
      auto; [apply Busy; discriminate| |].
    + destruct (score_int (self f1)) as (z1 & Ez1 & Hz1).
      { pose proof (ev_length _ _ Ev1) as L; model_simpl.
        rewrite Eh in L; destruct (hospitals (self f1)); discriminate. }
      destruct (score_int (self f)) as (z0 & Ez0 & Hz0);
        [rewrite Eh; discriminate|].
      rewrite Hb1, Ez1 in Lt' |- *; rewrite Hb, Ez0 in Lt', Hw.
      cbn [num_lt weight] in *; apply Z.ltb_lt in Lt'; lia.
    + exists f'; split; [exact E|]; constructor; auto.
      * eapply evolves_trans; eassumption.
      * eapply num_le_trans; [eassumption|now apply num_lt_le].
      * exists ((m :: ms) ++ ms'); repeat split.
        -- rewrite Hm', Hm; now rewrite app_assoc.
        -- apply Forall_app; now split.
        -- discriminate.
        -- discriminate.
Qed.

End OptimizerProperties.

(** ** Placement *)

Lemma cell_differ (g : list (list Z)) (i j i' j' a b : Z) :
  cell g i j = Some a -> cell g i' j' = Some b -> a <> b -> i <> i' \/ j <> j'.
Proof.
  intros Ha Hb N.
  destruct (Z.eq_dec i i') as [<-|]; [|now left].
  destruct (Z.eq_dec j j') as [<-|]; [|now right].
  congruence.
Qed.

Lemma randint_spec (a b raw : Z) :
  match randint a b raw with
  | Ret v => a <= v <= b
  | Raise _ => b < a
  | Timeout => False
  end.
Proof.
  unfold randint; destruct (Z.ltb_spec b a); [assumption|].
  pose proof (Z.mod_pos_bound raw (b - a + 1)); lia.
Qed.

Lemma Inv_new (r c nh nk : Z) : Inv (new_HospitalDistribution r c nh nk).
Proof.
  constructor; unfold new_HospitalDistribution; model_simpl.
  - reflexivity.
  - split; [apply repeat_length|].
    apply Forall_forall; intros row H; apply repeat_spec in H; subst.
    apply repeat_length.
  - constructor.
  - intros h [].
  - intros h [].
  - intros h1 h2 [].
  - intros k [].
  - intros k [].
  - constructor.
Qed.

Lemma Inv_alloc (s : HospitalDistribution) :
  Inv s -> Inv (snd (new_Coordinate 0 0 s)).
Proof.
  intros HI; apply (Inv_reordered s (hospitals s) (S (next_oid s)));
    auto using Permutation_refl.
Qed.

(** The model after a hospital, or a house, has been put on a free cell. *)
Definition with_hospital (p : Coordinate) (s : HospitalDistribution) :=
  mkHospitalDistribution (rows s) (cols s) (num_hospitals s) (num_houses s)
    (put (grid s) (x p) (y p) 2) (hospitals s ++ [p]) (houses s)
    (MIN_HOSPITAL_DISTANCE s) (MAX_HOUSE_HOSPITAL_DISTANCE s) (S (oid p)).

Definition with_house (p : Coordinate) (s : HospitalDistribution) :=
  mkHospitalDistribution (rows s) (cols s) (num_hospitals s) (num_houses s)
    (put (grid s) (x p) (y p) 1) (hospitals s) (houses s ++ [p])
    (MIN_HOSPITAL_DISTANCE s) (MAX_HOUSE_HOSPITAL_DISTANCE s) (S (oid p)).

Lemma NoDup_snoc {A : Type} (l : list A) (a : A) :
  NoDup l -> ~ In a l -> NoDup (l ++ [a]).
Proof.
  intros N H; apply Permutation_NoDup with (l := a :: l);
    [apply Permutation_cons_append|now constructor].
Qed.

Lemma Inv_with_hospital (s : HospitalDistribution) (p : Coordinate) :
  Inv s -> oid p = next_oid s -> inside (rows s) (cols s) (x p) (y p) ->
  cell (grid s) (x p) (y p) = Some 0 ->
  spaced_from (MIN_HOSPITAL_DISTANCE s) (hospitals s) p = true ->
  Inv (with_hospital p s).
Proof.
  intros HI Ep Hin C Sp.
  rewrite (inv_min s HI), spaced_from_spec in Sp.
  pose proof (inv_shape s HI) as Sh.
  constructor; unfold with_hospital; model_simpl.
  - now apply inv_min.
  - now apply put_shaped.
  - rewrite map_app; apply NoDup_snoc; [now apply inv_nodup|].
    intros H; apply in_map_iff in H; destruct H as (h & E & H).
    pose proof (inv_fresh s HI h H); lia.
  - intros h H; apply in_app_or in H; destruct H as [H|[<-|[]]]; [|lia].
    pose proof (inv_fresh s HI h H); lia.
  - intros h H; apply in_app_or in H; destruct H as [H|[<-|[]]].
    + destruct (inv_hospital s HI h H) as [Hh Ch]; split; [assumption|].
      pose proof (cell_differ _ _ _ _ _ _ _ C Ch ltac:(lia)).
      unfold inside in *; rewrite cell_put_other by lia; assumption.
    + split; [assumption|now apply (cell_put_same (rows s) (cols s))].
  - intros h1 h2 H1 H2 N.
    apply in_app_or in H1; apply in_app_or in H2.
    destruct H1 as [H1|[<-|[]]], H2 as [H2|[<-|[]]].
    + now apply (inv_spaced s HI).
    + rewrite distance_to_sym; now apply Sp.
    + now apply Sp.
    + congruence.
  - intros k K; pose proof (inv_house_fresh s HI k K); lia.
  - intros k K; destruct (inv_house s HI k K) as [Hk Ck]; split; [assumption|].
    pose proof (cell_differ _ _ _ _ _ _ _ C Ck ltac:(lia)).
    unfold inside in *; rewrite cell_put_other by lia; assumption.
  - now apply inv_house_nodup.
Qed.

Lemma Inv_with_house (s : HospitalDistribution) (p : Coordinate) :
  Inv s -> oid p = next_oid s -> inside (rows s) (cols s) (x p) (y p) ->
  cell (grid s) (x p) (y p) = Some 0 ->
  Inv (with_house p s).
Proof.
  intros HI Ep Hin C.
  pose proof (inv_shape s HI) as Sh.
  constructor; unfold with_house; model_simpl.
  - now apply inv_min.
  - now apply put_shaped.
  - now apply inv_nodup.
  - intros h H; pose proof (inv_fresh s HI h H); lia.
  - intros h H; destruct (inv_hospital s HI h H) as [Hh Ch]; split; [assumption|].
    pose proof (cell_differ _ _ _ _ _ _ _ C Ch ltac:(lia)).
    unfold inside in *; rewrite cell_put_other by lia; assumption.
  - now apply (inv_spaced s HI).
  - intros k K; apply in_app_or in K; destruct K as [K|[<-|[]]]; [|lia].
    pose proof (inv_house_fresh s HI k K); lia.
  - intros k K; apply in_app_or in K; destruct K as [K|[<-|[]]].
    + destruct (inv_house s HI k K) as [Hk Ck]; split; [assumption|].
      pose proof (cell_differ _ _ _ _ _ _ _ C Ck ltac:(lia)).
      unfold inside in *; rewrite cell_put_other by lia; assumption.
    + split; [assumption|now apply (cell_put_same (rows s) (cols s))].
  - rewrite map_app; apply NoDup_snoc; [now apply inv_house_nodup|].
    intros H; apply in_map_iff in H; destruct H as (k & E & K).
    injection E as Ex Ey.
    destruct (inv_house s HI k K) as [_ Ck]; rewrite Ex, Ey in Ck; congruence.
Qed.

(** What a placement loop leaves alone. *)
Definition same_config (s s' : HospitalDistribution) : Prop :=
  rows s' = rows s /\ cols s' = cols s
  /\ num_hospitals s' = num_hospitals s /\ num_houses s' = num_houses s
  /\ MIN_HOSPITAL_DISTANCE s' = MIN_HOSPITAL_DISTANCE s
  /\ MAX_HOUSE_HOSPITAL_DISTANCE s' = MAX_HOUSE_HOSPITAL_DISTANCE s.

Lemma place_hospitals_spec (draws : list (Z * Z)) :
  forall s, Inv s ->
    match place_hospitals draws s with
    | Ret (s', _) =>
        Inv s' /\ same_config s s' /\ houses s' = houses s
        /\ Z.of_nat (length (hospitals s')) =
           Z.max (Z.of_nat (length (hospitals s))) (num_hospitals s)
    | Raise _ => rows s <= 0 \/ cols s <= 0
    | Timeout => True
    end.
Proof.
  induction draws as [|[r1 r2] draws IH]; intros s HI; cbn [place_hospitals];
    destruct (Z.ltb_spec (Z.of_nat (length (hospitals s))) (num_hospitals s)) as [L|L];
    try exact I;
    try (split; [assumption|]; split; [unfold same_config; tauto|];
         split; [reflexivity|lia]).
  pose proof (randint_spec 0 (rows s - 1) r1) as R1.
  destruct (randint 0 (rows s - 1) r1) as [xv| |]; cbn [bind]; [|lia|destruct R1].
  pose proof (randint_spec 0 (cols s - 1) r2) as R2.
  destruct (randint 0 (cols s - 1) r2) as [yv| |]; cbn [bind]; [|lia|destruct R2].
  pose proof (Inv_alloc s HI) as HI1.
  assert (Hin : inside (rows s) (cols s) xv yv) by (unfold inside; lia).
  cbn [new_Coordinate] in *; cbn [snd] in HI1.
  rewrite is_valid_spec by (try apply inv_shape; model_simpl; assumption).
  model_simpl.
  destruct (cell (grid s) xv yv) as [v|] eqn:C.
  2:{ specialize (IH _ HI1); destruct (place_hospitals draws _) as [[s' rest]| |];
        model_simpl; auto. }
  destruct (Z.eqb_spec v 0) as [->|Nv]; cbn [andb].
  2:{ specialize (IH _ HI1); destruct (place_hospitals draws _) as [[s' rest]| |];
        model_simpl; auto. }
  destruct (spaced_from (MIN_HOSPITAL_DISTANCE s) (hospitals s)
              {| oid := next_oid s; x := xv; y := yv |}) eqn:Sp.
  2:{ specialize (IH _ HI1); destruct (place_hospitals draws _) as [[s' rest]| |];
        model_simpl; auto. }
  rewrite set_add_new
    by (intros d D; pose proof (inv_fresh s HI d D); model_simpl; lia).
  rewrite (grid_set_inside (rows s) (cols s)) by (try apply inv_shape; assumption).
  model_simpl.
  pose proof (Inv_with_hospital s {| oid := next_oid s; x := xv; y := yv |}
                HI eq_refl Hin C Sp) as HI2.
  specialize (IH _ HI2); unfold with_hospital in IH; model_simpl.
  unfold with_grid, with_hospitals; model_simpl.
  destruct (place_hospitals draws _) as [[s' rest]| |]; model_simpl; auto.
  destruct IH as (HI' & Cf & Hh & Len).
  split; [assumption|]; split; [exact Cf|]; split; [assumption|].
  rewrite Len, length_app; cbn [length]; lia.
Qed.

Lemma place_houses_spec (draws : list (Z * Z)) :
  forall s, Inv s ->
    match place_houses draws s with
    | Ret (s', _) =>
        Inv s' /\ same_config s s' /\ hospitals s' = hospitals s
        /\ Z.of_nat (length (houses s')) =
           Z.max (Z.of_nat (length (houses s))) (num_houses s)
    | Raise _ => rows s <= 0 \/ cols s <= 0
    | Timeout => True
    end.
Proof.
  induction draws as [|[r1 r2] draws IH]; intros s HI; cbn [place_houses];
    destruct (Z.ltb_spec (Z.of_nat (length (houses s))) (num_houses s)) as [L|L];
    try exact I;
    try (split; [assumption|]; split; [unfold same_config; tauto|];
         split; [reflexivity|lia]).
  pose proof (randint_spec 0 (rows s - 1) r1) as R1.
  destruct (randint 0 (rows s - 1) r1) as [xv| |]; cbn [bind]; [|lia|destruct R1].
  pose proof (randint_spec 0 (cols s - 1) r2) as R2.
  destruct (randint 0 (cols s - 1) r2) as [yv| |]; cbn [bind]; [|lia|destruct R2].
  pose proof (Inv_alloc s HI) as HI1.
  assert (Hin : inside (rows s) (cols s) xv yv) by (unfold inside; lia).
  cbn [new_Coordinate] in *; cbn [snd] in HI1; model_simpl.
  destruct (grid_get_inside _ _ _ _ _ (inv_shape s HI) Hin) as (v & -> & C).
  model_simpl.
  destruct (Z.eqb_spec v 0) as [->|Nv].
  2:{ specialize (IH _ HI1); destruct (place_houses draws _) as [[s' rest]| |];
        model_simpl; auto. }
  rewrite set_add_new
    by (intros d D; pose proof (inv_house_fresh s HI d D); model_simpl; lia).
  rewrite (grid_set_inside (rows s) (cols s)) by (try apply inv_shape; assumption).
  model_simpl.
  pose proof (Inv_with_house s {| oid := next_oid s; x := xv; y := yv |}
                HI eq_refl Hin C) as HI2.
  specialize (IH _ HI2); unfold with_house in IH; model_simpl.
  unfold with_grid, with_houses; model_simpl.
  destruct (place_houses draws _) as [[s' rest]| |]; model_simpl; auto.
  destruct IH as (HI' & Cf & Hh & Len).
  split; [assumption|]; split; [exact Cf|]; split; [assumption|].
  rewrite Len, length_app; cbn [length]; lia.
Qed.

Lemma initialize_spec (draws : list (Z * Z)) (s : HospitalDistribution) :
  Inv s ->
  match initialize_random_positions draws s with
  | Ret (s', _) =>
      Inv s' /\ same_config s s'
      /\ Z.of_nat (length (hospitals s')) =
         Z.max (Z.of_nat (length (hospitals s))) (num_hospitals s)
      /\ Z.of_nat (length (houses s')) =
         Z.max (Z.of_nat (length (houses s))) (num_houses s)
  | Raise _ => rows s <= 0 \/ cols s <= 0
  | Timeout => True
  end.
Proof.
  intros HI; unfold initialize_random_positions.
  pose proof (place_hospitals_spec draws s HI) as H1.
  destruct (place_hospitals draws s) as [[s1 rest1]| |]; cbn [bind fst snd]; auto.
  destruct H1 as (HI1 & Cf1 & Hk1 & Len1).
  pose proof (place_houses_spec rest1 s1 HI1) as H2.
  destruct (place_houses rest1 s1) as [[s2 rest2]| |]; auto.
  - destruct H2 as (HI2 & Cf2 & Hh2 & Len2).
    split; [assumption|].
    destruct Cf1 as (A1 & B1 & C1 & D1 & E1 & F1), Cf2 as (A2 & B2 & C2 & D2 & E2 & F2).
    split; [unfold same_config; repeat split; congruence|].
    rewrite Hh2, Len2, Hk1, D1; split; congruence.
  - destruct Cf1 as (A1 & B1 & _); rewrite A1, B1 in H2; assumption.
Qed.

(** ** A whole call of [optimize_distribution] *)

(** The model [s'] and the committed moves [log] a call on [s] ends with. *)
Record optimized_model (s s' : HospitalDistribution)
       (log : list (Coordinate * Coordinate)) : Prop := mkOptimizedModel {
  om_inv : Inv s';
  om_evolves : evolves s s';
  om_le : num_le (_calculate_score s') (_calculate_score s) = true;
  om_converged : converged s';
  om_moves : Forall proper_move log;
  om_quiet : log = [] ->
             grid s' = grid s /\ Permutation (hospitals s) (hospitals s')
}.

Section Calls.

Variable order : list Coordinate -> list Coordinate.
Hypothesis order_perm : forall l, Permutation (order l) l.

Lemma optimize_returns (s : HospitalDistribution) (fuel : nat) :
  Inv s -> (weight (_calculate_score s) < fuel)%nat ->
  exists s' log,
    optimize_distribution order fuel s = Ret (s', log)
    /\ optimized_model s s' log.
Proof.
  intros HI Hw; unfold optimize_distribution.
  destruct (while_improved_spec order order_perm fuel
              (mkFrame s (_calculate_score s) true None []))
    as (f & -> & [HI' Ev Hb Le Cv (ms & Hm & Pm & Q)]); auto.
  cbn [bind]; model_simpl; cbn [app] in Hm.
  exists (self f), (relocations f); split; [reflexivity|].
  rewrite Hb in Le; rewrite Hm; constructor; auto.
Qed.

Lemma optimize_more (s s' : HospitalDistribution) (fuel fuel' : nat)
      (log : list (Coordinate * Coordinate)) :
  optimize_distribution order fuel s = Ret (s', log) -> (fuel <= fuel')%nat ->
  optimize_distribution order fuel' s = Ret (s', log).
Proof.
  unfold optimize_distribution; intros E L.
  destruct (while_improved order fuel _) as [f| |] eqn:W; try discriminate.
  now rewrite (while_improved_more order fuel fuel' _ f W L).
Qed.

Lemma optimize_spec (s s' : HospitalDistribution) (fuel : nat)
      (log : list (Coordinate * Coordinate)) :
  Inv s -> optimize_distribution order fuel s = Ret (s', log) ->
  optimized_model s s' log.
Proof.
  intros HI E.
  set (big := Nat.max fuel (S (weight (_calculate_score s)))).
  destruct (optimize_returns s big HI) as (s2 & log2 & E2 & Post); [lia|].
  rewrite (optimize_more s s' fuel big log E) in E2 by lia.
  now injection E2 as <- <-.
Qed.

(** On a converged model a call makes one sweep and moves nothing. *)
Lemma optimize_converged (s : HospitalDistribution) (fuel : nat) :
  Inv s -> converged s -> (0 < fuel)%nat ->
  exists s', optimize_distribution order fuel s = Ret (s', [])
             /\ optimized_model s s' [].
Proof.
  intros HI Cv Hf; unfold optimize_distribution.
  destruct fuel as [|fuel]; [lia|]; cbn [while_improved improved].
  unfold sweep; cbv zeta; cbn [self best_score best_new_pos relocations].
  destruct (quiet_loop (order (hospitals s))
              (mkFrame s (_calculate_score s) false None [])) as
      (f & -> & HI' & Ev & Hm & Hi & Hb & Hg & P); model_simpl; auto.
  - now apply order_nodup.
  - intros h; now apply order_in.
  - intros h d H Hd; apply Cv; [now apply (order_in order order_perm)|assumption].
  - cbn [bind]; rewrite while_improved_stop by assumption; cbn [bind]; rewrite Hm.
    exists (self f); split; [reflexivity|].
    assert (Es : _calculate_score (self f) = _calculate_score s).
    { unfold _calculate_score; rewrite (ev_houses _ _ Ev).
      apply total_distance_perm; now apply Permutation_sym. }
    constructor; auto.
    + rewrite Es; apply num_le_refl.
    + intros h d H Hd; rewrite Es, <- (Cv h d); auto.
      * apply improving_perm; auto; apply Ev.
      * eapply Permutation_in; [apply Permutation_sym|]; eassumption.
Qed.

(** The models a session can reach: the one [initialize_random_positions]
    returns on a new model, and from there the model after the
    relocation of one hospital and after a whole call of the optimiser. *)
Inductive reachable : HospitalDistribution -> Prop :=
| reach_init (r c nh nk : Z) (draws rest : list (Z * Z)) (s : HospitalDistribution) :
    initialize_random_positions draws (new_HospitalDistribution r c nh nk)
    = Ret (s, rest) ->
    reachable s
| reach_relocate (hospital : Coordinate) (f f' : frame) :
    reachable (self f) -> In hospital (hospitals (self f)) ->
    relocate hospital f = Ret f' ->
    reachable (self f')
| reach_optimize (s s' : HospitalDistribution) (fuel : nat)
                 (log : list (Coordinate * Coordinate)) :
    reachable s -> optimize_distribution order fuel s = Ret (s', log) ->
    reachable s'.

(** The sets have the sizes asked for (none, for a negative number). *)
Definition counted (s : HospitalDistribution) : Prop :=
  Z.of_nat (length (hospitals s)) = Z.max 0 (num_hospitals s)
  /\ Z.of_nat (length (houses s)) = Z.max 0 (num_houses s).

Lemma counted_evolves (s s' : HospitalDistribution) :
  evolves s s' -> counted s -> counted s'.
Proof.
  intros Ev [Ch Ck]; unfold counted.
  now rewrite (ev_length _ _ Ev), (ev_houses _ _ Ev),
    (ev_num_hospitals _ _ Ev), (ev_num_houses _ _ Ev).
Qed.

Lemma reachable_Inv (s : HospitalDistribution) :
  reachable s -> Inv s /\ counted s.
Proof.
  induction 1 as [r c nh nk draws rest s E|h f f' _ [HI Ct] Hin E
                  |s s' fuel log _ [HI Ct] E].
  - pose proof (initialize_spec draws _ (Inv_new r c nh nk)) as H.
    rewrite E in H; destruct H as (HI & (_ & _ & Eh & Ek & _) & Lh & Lk).
    split; [assumption|]; unfold counted; now rewrite Lh, Lk, Eh, Ek.
  - destruct (relocate_spec h f HI Hin) as (f2 & E2 & [HI' Ev _ _]).
    rewrite E in E2; injection E2 as <-.
    split; [assumption|]; eapply counted_evolves; eassumption.
  - destruct (optimize_spec s s' fuel log HI E) as [HI' Ev _ _ _ _].
    split; [assumption|]; eapply counted_evolves; eassumption.
Qed.

End Calls.

(** ** The score, as the specification words it

    "For every house, compute the minimum Manhattan distance to any
    hospital; sum these minima over all houses." *)

Definition spec_nearest (hs : list Coordinate) (house : Coordinate) : Z :=
  match hs with
  | [] => 0
  | h :: hs' =>
      fold_right (fun h' m => Z.min (distance_to house h') m) (distance_to house h) hs'
  end.

Definition spec_score (ks hs : list Coordinate) : Z :=
  fold_right (fun house sum => spec_nearest hs house + sum) 0 ks.

Lemma min_fold_int (hs : list Coordinate) (house : Coordinate) (a : Z) :
  fold_left (fun m hospital => num_min m (Int (distance_to house hospital))) hs (Int a)
  = Int (fold_right (fun h' m => Z.min (distance_to house h') m) a hs).
Proof.
  revert a; induction hs as [|h hs IH]; intros a; cbn [fold_left fold_right];
    [reflexivity|].
  unfold num_min at 2; cbn [num_lt].
  destruct (Z.ltb_spec (distance_to house h) a); rewrite IH; f_equal.
  - clear IH; revert a H; induction hs as [|h' hs IH]; intros a H; cbn [fold_right];
      [lia|].
    rewrite !Z.min_assoc, (Z.min_comm (distance_to house h)), <- !Z.min_assoc.
    f_equal; now apply IH.
  - clear IH; revert a H; induction hs as [|h' hs IH]; intros a H; cbn [fold_right];
      [lia|].
    rewrite !Z.min_assoc, (Z.min_comm (distance_to house h)), <- !Z.min_assoc.
    f_equal; now apply IH.
Qed.

Lemma min_distance_spec (hs : list Coordinate) (house : Coordinate) :
  hs <> [] -> min_distance hs house = Int (spec_nearest hs house).
Proof.
  destruct hs as [|h hs]; [congruence|intros _].
  unfold min_distance, spec_nearest; cbn [fold_left].
  unfold num_min at 2; cbn [num_lt]; apply min_fold_int.
Qed.

Lemma total_distance_spec (ks hs : list Coordinate) :
  hs <> [] -> total_distance ks hs = Int (spec_score ks hs).
Proof.
  intros Hn; unfold total_distance.
  enough (G : forall a,
             fold_left (fun total house => num_add total (min_distance hs house))
               ks (Int a) = Int (a + spec_score ks hs))
    by (rewrite G; f_equal; lia).
  induction ks as [|k ks IH]; intros a; cbn [fold_left spec_score fold_right].
  - f_equal; lia.
  - rewrite (min_distance_spec hs k Hn); cbn [num_add]; rewrite IH.
    f_equal; unfold spec_score; lia.
Qed.

Lemma spec_nearest_least (hs : list Coordinate) (house h : Coordinate) :
  In h hs -> spec_nearest hs house <= distance_to house h.
Proof.
  destruct hs as [|h0 hs]; [intros []|]; unfold spec_nearest.
  revert h0; induction hs as [|h1 hs IH]; intros h0 H; cbn [fold_right].
  - destruct H as [<-|[]]; lia.
  - destruct H as [<-|[<-|H]].
    + specialize (IH h0 (or_introl eq_refl)); lia.
    + lia.
    + specialize (IH h0 (or_intror H)); lia.
Qed.

Lemma spec_nearest_attained (hs : list Coordinate) (house : Coordinate) :
  hs <> [] -> exists h, In h hs /\ spec_nearest hs house = distance_to house h.
Proof.
  destruct hs as [|h0 hs]; [congruence|intros _]; unfold spec_nearest.
  induction hs as [|h1 hs IH]; cbn [fold_right].
  - exists h0; split; [now left|reflexivity].
  - destruct IH as (h & H & E).
    destruct (Z.min_spec (distance_to house h1)
                (fold_right (fun h' m => Z.min (distance_to house h') m)
                   (distance_to house h0) hs)) as [[_ ->]|[_ ->]].
    + exists h1; split; [right; now left|reflexivity].
    + exists h; split; [|assumption].
      destruct H as [<-|H]; [now left|right; now right].
Qed.

Lemma same_object (l : list Coordinate) (a b : Coordinate) :
  NoDup (map oid l) -> In a l -> In b l -> oid a = oid b -> a = b.
Proof.
  induction l as [|c l IH]; intros N Ha Hb E; [destruct Ha|].
  cbn [map] in N; inversion N as [|? ? Nc N']; subst.
  destruct Ha as [<-|Ha], Hb as [<-|Hb]; auto.
  - exfalso; apply Nc; rewrite E; now apply in_map.
  - exfalso; apply Nc; rewrite <- E; now apply in_map.
Qed.

Lemma proper_move_step (old new : Coordinate) :
  proper_move (old, new) ->
  (x new, y new) <> (x old, y old)
  /\ Z.abs (x new - x old) <= 1 /\ Z.abs (y new - y old) <= 1
  /\ (Z.abs (x new - x old) = 1 \/ Z.abs (y new - y old) = 1).
Proof.
  unfold proper_move; cbn [fst snd]; intros (Hx & Hy & N).
  split; [intros E; injection E as Ex Ey; lia|lia].
Qed.

(** * The claims *)

Section Claims.

Variable order : list Coordinate -> list Coordinate.
Hypothesis order_perm : forall l, Permutation (order l) l.

(** C1.  In every reachable model (after [initialize_random_positions],
    after any number of calls of [optimize_distribution], and after
    each relocation the optimiser commits on the way)
    [MIN_HOSPITAL_DISTANCE] is 3 and any two distinct hospitals are at
    Manhattan distance at least 3. *)
Theorem hospitals_stay_apart (s : HospitalDistribution) (h1 h2 : Coordinate) :
  reachable order s ->
  In h1 (hospitals s) -> In h2 (hospitals s) -> h1 <> h2 ->
  MIN_HOSPITAL_DISTANCE s = 3 /\ 3 <= distance_to h1 h2.
Proof.
  intros R H1 H2 N.
  destruct (reachable_Inv order order_perm s R) as [HI _].
  split; [now apply inv_min|].
  apply (inv_spaced s HI); auto.
  intros E; apply N, (same_object (hospitals s)); auto using inv_nodup.
Qed.

(** C2.  A call of [optimize_distribution] on a reachable model that
    returns leaves a score less than or equal to the score before. *)
Theorem score_never_increases (s s' : HospitalDistribution) (fuel : nat)
        (log : list (Coordinate * Coordinate)) :
  reachable order s ->
  optimize_distribution order fuel s = Ret (s', log) ->
  num_le (_calculate_score s') (_calculate_score s) = true.
Proof.
  intros R E.
  destruct (reachable_Inv order order_perm s R) as [HI _].
  now destruct (optimize_spec order order_perm s s' fuel log HI E).
Qed.

(** C4.  In a reachable model [hospitals] and [houses] have as many
    members as [num_hospitals] and [num_houses] ask for (exactly that
    many when the number is not negative, as the entry form requires;
    none otherwise); a call of the optimiser changes neither number,
    nor [houses], nor which cells of the grid hold a house. *)
Theorem counts_conserved (s : HospitalDistribution) :
  reachable order s ->
  (0 <= num_hospitals s ->
   Z.of_nat (length (hospitals s)) = num_hospitals s)
  /\ (0 <= num_houses s ->
      Z.of_nat (length (houses s)) = num_houses s)
  /\ Z.of_nat (length (hospitals s)) = Z.max 0 (num_hospitals s)
  /\ Z.of_nat (length (houses s)) = Z.max 0 (num_houses s)
  /\ forall fuel s' log,
      optimize_distribution order fuel s = Ret (s', log) ->
      length (hospitals s') = length (hospitals s)
      /\ houses s' = houses s
      /\ num_hospitals s' = num_hospitals s /\ num_houses s' = num_houses s
      /\ forall i j, inside (rows s) (cols s) i j ->
           (cell (grid s') i j = Some 1 <-> cell (grid s) i j = Some 1).
Proof.
  intros R.
  destruct (reachable_Inv order order_perm s R) as [HI [Ch Ck]].
  do 4 (split; [lia|]).
  intros fuel s' log E.
  destruct (optimize_spec order order_perm s s' fuel log HI E) as [_ Ev _ _ _ _].
  destruct Ev; auto.
Qed.

(** C5.  A call of [optimize_distribution] on a reachable model
    returns: with [n] the score before the call (a non-negative
    integer as soon as there is a hospital), [n + 1] sweeps are
    enough, and any larger allowance gives the same result, a model in
    which no hospital has an improving candidate.  Each sweep returns
    too; a sweep that sets [improved] has strictly lowered the score
    and one that does not has committed no move. *)
Theorem optimize_terminates (s : HospitalDistribution) :
  reachable order s ->
  (hospitals s <> [] -> exists n, _calculate_score s = Int n /\ 0 <= n)
  /\ (exists s' log,
        (forall fuel, (weight (_calculate_score s) < fuel)%nat ->
                      optimize_distribution order fuel s = Ret (s', log))
        /\ converged s')
  /\ (forall b log,
        exists f', sweep order (mkFrame s (_calculate_score s) true b log) = Ret f'
          /\ best_score f' = _calculate_score (self f')
          /\ (improved f' = true ->
              num_lt (best_score f') (_calculate_score s) = true)
          /\ (improved f' = false -> relocations f' = log)).
Proof.
  intros R.
  destruct (reachable_Inv order order_perm s R) as [HI _].
  split; [apply score_int|split].
  - destruct (optimize_returns order order_perm s
                (S (weight (_calculate_score s))) HI) as (s' & log & E & Post);
      [lia|].
    exists s', log; split; [|now destruct Post].
    intros fuel Hf; apply (optimize_more order s s' _ fuel log E); lia.
  - intros b log.
    destruct (sweep_spec order order_perm
                (mkFrame s (_calculate_score s) true b log) HI)
      as (f' & E & [_ _ (ms & Hm & Quiet & Busy & Sc)]); model_simpl.
    exists f'; split; [exact E|].
    destruct (Sc eq_refl) as (Hb & Lt & _); split; [assumption|].
    destruct ms as [|m ms].
    + destruct (Quiet eq_refl) as (_ & Hi & _); rewrite Hi, Hm, app_nil_r.
      split; [discriminate|reflexivity].
    + rewrite (Busy ltac:(discriminate)); split; [intros _|discriminate].
      apply Lt; discriminate.
Qed.

(** C6.  When a call of [optimize_distribution] on a reachable model
    has committed no relocation, a further call (given at least one
    sweep) commits none either and leaves the grid, the members of
    [hospitals], [houses] and the score as they are. *)
Theorem converged_call_is_noop (s s' : HospitalDistribution) (fuel fuel' : nat) :
  reachable order s ->
  optimize_distribution order fuel s = Ret (s', []) ->
  (0 < fuel')%nat ->
  exists s'',
    optimize_distribution order fuel' s' = Ret (s'', [])
    /\ grid s'' = grid s'
    /\ Permutation (hospitals s') (hospitals s'')
    /\ houses s'' = houses s'
    /\ _calculate_score s'' = _calculate_score s'.
Proof.
  intros R E Hf.
  destruct (reachable_Inv order order_perm s R) as [HI _].
  destruct (optimize_spec order order_perm s s' fuel [] HI E) as [HI' _ _ Cv _ _].
  destruct (optimize_converged order order_perm s' fuel' HI' Cv Hf)
    as (s'' & E' & [_ Ev _ _ _ Q]).
  destruct (Q eq_refl) as [Hg P].
  exists s''; repeat split; auto; [apply Ev|].
  unfold _calculate_score; rewrite (ev_houses _ _ Ev).
  apply total_distance_perm; now apply Permutation_sym.
Qed.

(** C10.  In a reachable model the zero offset is never an improving
    candidate against the current score, and every move a call of
    [optimize_distribution] commits takes the hospital to another
    cell, one step away in at least one axis and at most one step in
    each. *)
Theorem committed_moves_change_position (s s' : HospitalDistribution) (fuel : nat)
        (log : list (Coordinate * Coordinate)) :
  reachable order s ->
  optimize_distribution order fuel s = Ret (s', log) ->
  (forall h, In h (hospitals s) ->
             candidate_score s h (x h + 0) (y h + 0) = _calculate_score s
             /\ improving s h (_calculate_score s) (0, 0) = false)
  /\ forall old new, In (old, new) log ->
       (x new, y new) <> (x old, y old)
       /\ Z.abs (x new - x old) <= 1 /\ Z.abs (y new - y old) <= 1
       /\ (Z.abs (x new - x old) = 1 \/ Z.abs (y new - y old) = 1).
Proof.
  intros R E.
  destruct (reachable_Inv order order_perm s R) as [HI _].
  split.
  - intros h H; rewrite !Z.add_0_r; split;
      [now apply candidate_score_stay
      |apply improving_stay; auto using num_le_refl].
  - destruct (optimize_spec order order_perm s s' fuel log HI E) as [_ _ _ _ Pm _].
    rewrite Forall_forall in Pm.
    intros old new H; apply proper_move_step, (Pm _ H).
Qed.

End Claims.

(** C3.  With at least one hospital, the score is the integer sum over
    the houses of the minimum over the hospitals of [|dx| + |dy|]: the
    value the specification's wording defines, whose summand for a
    house is a lower bound of its distances to the hospitals and is one
    of them.  With the only hospital at (0, 0) and the only house at
    (4, 4) the score is 8; with no house it is 0. *)
Theorem score_is_sum_of_nearest (s : HospitalDistribution) :
  hospitals s <> [] ->
  _calculate_score s = Int (spec_score (houses s) (hospitals s))
  /\ (forall house,
        (forall h, In h (hospitals s) ->
           spec_nearest (hospitals s) house
           <= Z.abs (x house - x h) + Z.abs (y house - y h))
        /\ exists h, In h (hospitals s)
             /\ spec_nearest (hospitals s) house
                = Z.abs (x house - x h) + Z.abs (y house - y h))
  /\ (forall h k, hospitals s = [h] -> houses s = [k] ->
        x h = 0 -> y h = 0 -> x k = 4 -> y k = 4 ->
        _calculate_score s = Int 8)
  /\ (houses s = [] -> _calculate_score s = Int 0).
Proof.
  intros Hn; split; [now apply total_distance_spec|split; [|split]].
  - intros house; split.
    + intros h H; now apply spec_nearest_least.
    + now apply spec_nearest_attained.
  - intros h k Eh Ek Hx Hy Kx Ky; unfold _calculate_score; rewrite Eh, Ek.
    cbn; unfold distance_to; rewrite Hx, Hy, Kx, Ky; reflexivity.
  - intros Ek; unfold _calculate_score; now rewrite Ek.
Qed.

(** ** Feasible layouts *)

Definition position (c : Coordinate) : Z * Z := (x c, y c).

(** Cells for the hospitals and for the houses that meet what the
    placement asks for. *)
Record placement (r c nh nk : Z) (hp kp : list (Z * Z)) : Prop := mkPlacement {
  pl_cells : NoDup (hp ++ kp);
  pl_inside : forall p, In p (hp ++ kp) -> inside r c (fst p) (snd p);
  pl_spaced : forall p q, In p hp -> In q hp -> p <> q ->
    3 <= Z.abs (fst p - fst q) + Z.abs (snd p - snd q);
  pl_hospitals : Z.of_nat (length hp) = Z.max 0 nh;
  pl_houses : Z.of_nat (length kp) = Z.max 0 nk
}.

Lemma Inv_placement (s : HospitalDistribution) :
  Inv s ->
  placement (rows s) (cols s)
    (Z.of_nat (length (hospitals s))) (Z.of_nat (length (houses s)))
    (map position (hospitals s)) (map position (houses s)).
Proof.
  intros HI.
  assert (Far : forall a b, In a (hospitals s) -> In b (hospitals s) ->
                            position a = position b -> a = b).
  { intros a b Ha Hb E.
    apply (same_object (hospitals s)); auto using inv_nodup.
    destruct (Nat.eq_dec (oid a) (oid b)) as [|N]; [assumption|exfalso].
    pose proof (inv_spaced s HI a b Ha Hb N) as D.
    injection E as Ex Ey; unfold distance_to in D; lia. }
  constructor.
  - apply NoDup_app.
    + apply NoDup_map_NoDup_ForallPairs; [exact Far|].
      eapply NoDup_map_inv, inv_nodup; eassumption.
    + now apply inv_house_nodup.
    + intros p Hp Kp; apply in_map_iff in Hp, Kp.
      destruct Hp as (h & <- & Hh), Kp as (k & E & Kk); injection E as Ex Ey.
      destruct (inv_hospital s HI h Hh) as [_ Ch], (inv_house s HI k Kk) as [_ Ck].
      rewrite Ex, Ey in Ck; congruence.
  - intros p Hp; apply in_app_or in Hp; destruct Hp as [Hp|Hp];
      apply in_map_iff in Hp; destruct Hp as (c & <- & Hc); cbn [position fst snd].
    + now apply (inv_hospital s HI).
    + now apply (inv_house s HI).
  - intros p q Hp Hq N; apply in_map_iff in Hp, Hq.
    destruct Hp as (a & <- & Ha), Hq as (b & <- & Hb); cbn [position fst snd].
    apply (inv_spaced s HI a b Ha Hb); intros E; apply N; f_equal.
    apply (same_object (hospitals s)); auto using inv_nodup.
  - rewrite length_map; lia.
  - rewrite length_map; lia.
Qed.

(** On a grid with a row and a column the placement does not raise,
    and when it returns it has found a feasible layout. *)
Lemma initialize_outcomes (r c nh nk : Z) (draws : list (Z * Z)) :
  0 < r -> 0 < c ->
  match initialize_random_positions draws (new_HospitalDistribution r c nh nk) with
  | Ret (s, _) =>
      placement r c nh nk (map position (hospitals s)) (map position (houses s))
  | Raise _ => False
  | Timeout => True
  end.
Proof.
  intros Hr Hc.
  pose proof (initialize_spec draws _ (Inv_new r c nh nk)) as H.
  destruct (initialize_random_positions draws _) as [[s rest]| |]; auto.
  - destruct H as (HI & (Er & Ec & Eh & Ek & _) & Lh & Lk); model_simpl.
    pose proof (Inv_placement s HI) as P.
    rewrite Er, Ec in P; unfold new_HospitalDistribution in *; model_simpl.
    cbn [length] in Lh, Lk.
    destruct P; constructor; auto; lia.
  - unfold new_HospitalDistribution in H; model_simpl; lia.
Qed.

(** Two hospitals do not fit a 2 x 2 grid: its cells are at most 2 apart. *)
Lemma no_placement_2x2 (hp kp : list (Z * Z)) : ~ placement 2 2 2 0 hp kp.
Proof.
  intros [Cells In Sp Lh Lk].
  destruct hp as [|[a b] [|[c d] [|? ?]]]; cbn [length] in Lh; try lia.
  assert (N : (a, b) <> (c, d)).
  { intros E; cbn [app] in Cells; inversion Cells as [|? ? Hn _]; subst.
    apply Hn; rewrite E; now left. }
  pose proof (In (a, b) ltac:(now left)) as Ia.
  pose proof (In (c, d) ltac:(right; now left)) as Ic.
  pose proof (Sp (a, b) (c, d) ltac:(now left) ltac:(right; now left) N) as D.
  unfold inside in *; cbn [fst snd] in *; lia.
Qed.

(** C7, as the code has it.  On a grid with at least one row and one
    column [initialize_random_positions] raises nothing, whatever the
    random draws; when the requested numbers of hospitals and houses
    have no feasible layout on the grid it does not return either: it
    is still looping after any number of draws. *)
Theorem initialize_loops_when_infeasible (r c nh nk : Z) :
  0 < r -> 0 < c ->
  (forall draws e,
     initialize_random_positions draws (new_HospitalDistribution r c nh nk)
     <> Raise e)
  /\ ((forall hp kp, ~ placement r c nh nk hp kp) ->
      forall draws,
        initialize_random_positions draws (new_HospitalDistribution r c nh nk)
        = Timeout).
Proof.
  intros Hr Hc; split.
  - intros draws e E; pose proof (initialize_outcomes r c nh nk draws Hr Hc) as H.
    now rewrite E in H.
  - intros No draws; pose proof (initialize_outcomes r c nh nk draws Hr Hc) as H.
    destruct (initialize_random_positions draws _) as [[s rest]| |];
      [exfalso; eapply No; eassumption|destruct H|reflexivity].
Qed.

(** C7 as stated fails: asked for two hospitals on a 2 x 2 grid, the
    placement never raises and never returns. *)
Lemma initialize_2x2_never_raises :
  ~ exists draws,
      initialize_random_positions draws (new_HospitalDistribution 2 2 2 0)
      <> Timeout.
Proof.
  intros [draws H]; apply H.
  pose proof (initialize_outcomes 2 2 2 0 draws ltac:(lia) ltac:(lia)) as O.
  destruct (initialize_random_positions draws _) as [[s rest]| |];
    [exfalso; eapply no_placement_2x2; eassumption|destruct O|reflexivity].
Qed.

(** ** Equality of coordinates *)



(** ** The reserved field *)

Definition omap {A B : Type} (g : A -> B) (m : outcome A) : outcome B :=
  match m with
  | Ret a => Ret (g a)
  | Raise e => Raise e
  | Timeout => Timeout
  end.

(** The frame of a call on the model with another
    [MAX_HOUSE_HOSPITAL_DISTANCE]. *)
Definition frame_max (d : Z) (f : frame) : frame :=
  with_self (with_max_distance d (self f)) f.

Ltac goal_simpl :=
  cbv [with_self frame_max
       with_grid with_hospitals with_houses with_max_distance new_Coordinate
       _is_valid_hospital_position _calculate_score
       rows cols num_hospitals num_houses grid hospitals houses
       MIN_HOSPITAL_DISTANCE MAX_HOUSE_HOSPITAL_DISTANCE next_oid
       self best_score improved best_new_pos relocations oid x y fst snd];
  cbn [omap bind].

Lemma omap_bind {A B C : Type} (g : B -> C) (m : outcome A) (k : A -> outcome B) :
  omap g (bind m k) = bind m (fun a => omap g (k a)).
Proof. destruct m; reflexivity. Qed.

Lemma bind_ext {A B : Type} (m : outcome A) (k k' : A -> outcome B) :
  (forall a, k a = k' a) -> bind m k = bind m k'.
Proof. intros H; destruct m; cbn [bind]; auto. Qed.

(** Both sides run the same steps: compare them step by step. *)
Ltac same_steps :=
  repeat first
    [ progress goal_simpl
    | rewrite bind_assoc
    | rewrite omap_bind
    | apply bind_ext; intros ?
    | match goal with
      | |- context [if ?c then _ else _] =>
          match c with
          | context [if _ then _ else _] => fail 1
          | _ => destruct c
          end
      end
    | reflexivity ].

Lemma is_valid_max (d : Z) (s : HospitalDistribution) (pos : Coordinate) :
  _is_valid_hospital_position (with_max_distance d s) pos
  = _is_valid_hospital_position s pos.
Proof. reflexivity. Qed.

Lemma try_candidate_max (d : Z) (old : Coordinate) (dx dy : Z) (f : frame) :
  try_candidate old dx dy (frame_max d f)
  = omap (frame_max d) (try_candidate old dx dy f).
Proof.
  destruct f as [s b i p log]; destruct s.
  unfold try_candidate; same_steps.
Qed.

Lemma for_each_omap {A S : Type} (g : S -> S) (body : A -> S -> outcome S)
      (l : list A) :
  (forall a st, body a (g st) = omap g (body a st)) ->
  forall st, for_each l body (g st) = omap g (for_each l body st).
Proof.
  intros H; induction l as [|a l IH]; intros st; cbn [for_each]; [reflexivity|].
  rewrite H; destruct (body a st); cbn [bind omap]; auto.
Qed.

Lemma relocate_max (d : Z) (hospital : Coordinate) (f : frame) :
  relocate hospital (frame_max d f) = omap (frame_max d) (relocate hospital f).
Proof.
  unfold relocate; cbv zeta.
  change (mkFrame (self (frame_max d f)) (best_score (frame_max d f))
            (improved (frame_max d f)) None (relocations (frame_max d f)))
    with (frame_max d (mkFrame (self f) (best_score f) (improved f) None
                         (relocations f))).
  rewrite (for_each_omap (frame_max d)).
  - destruct (for_each offsets _ _) as [f1| |]; cbn [bind omap]; try reflexivity.
    destruct f1 as [s b i p log]; destruct s, p as [q|]; same_steps.
  - intros dx st; apply for_each_omap; intros dy st'; apply try_candidate_max.
Qed.

Section Reserved.

Variable order : list Coordinate -> list Coordinate.

Lemma sweep_max (d : Z) (f : frame) :
  sweep order (frame_max d f) = omap (frame_max d) (sweep order f).
Proof.
  unfold sweep; cbv zeta.
  change (hospitals (self (frame_max d f))) with (hospitals (self f)).
  change (mkFrame (self (frame_max d f)) (best_score (frame_max d f)) false
            (best_new_pos (frame_max d f)) (relocations (frame_max d f)))
    with (frame_max d (mkFrame (self f) (best_score f) false (best_new_pos f)
                         (relocations f))).
  apply for_each_omap; intros h st; apply relocate_max.
Qed.

Lemma while_improved_max (d : Z) (fuel : nat) :
  forall f, while_improved order fuel (frame_max d f)
            = omap (frame_max d) (while_improved order fuel f).
Proof.
  induction fuel as [|fuel IH]; intros f; cbn [while_improved];
    change (improved (frame_max d f)) with (improved f);
    destruct (improved f); try reflexivity.
  rewrite sweep_max; destruct (sweep order f); cbn [bind omap]; auto.
Qed.

End Reserved.

(** C9.  [MAX_HOUSE_HOSPITAL_DISTANCE] is read by neither the score nor
    the optimiser: on two models that differ in that field alone the
    score is the same, and a call of [optimize_distribution] with the
    same allowance has the same outcome, commits the same moves and
    leaves models that again differ in that field alone (so the same
    [hospitals] and the same [grid]). *)
Theorem max_distance_is_not_read
        (order : list Coordinate -> list Coordinate) (d : Z)
        (s : HospitalDistribution) (fuel : nat) :
  _calculate_score (with_max_distance d s) = _calculate_score s
  /\ optimize_distribution order fuel (with_max_distance d s)
     = omap (fun r => (with_max_distance d (fst r), snd r))
         (optimize_distribution order fuel s)
  /\ (forall s1 log1 s2 log2,
        optimize_distribution order fuel s = Ret (s1, log1) ->
        optimize_distribution order fuel (with_max_distance d s) = Ret (s2, log2) ->
        hospitals s2 = hospitals s1 /\ grid s2 = grid s1 /\ log2 = log1).
Proof.
  assert (E : optimize_distribution order fuel (with_max_distance d s)
              = omap (fun r => (with_max_distance d (fst r), snd r))
                  (optimize_distribution order fuel s)).
  { unfold optimize_distribution.
    change (mkFrame (with_max_distance d s) (_calculate_score (with_max_distance d s))
              true None [])
      with (frame_max d (mkFrame s (_calculate_score s) true None [])).
    rewrite while_improved_max.
    destruct (while_improved order fuel _); reflexivity. }
  split; [reflexivity|split; [exact E|]].
  intros s1 log1 s2 log2 E1 E2; rewrite E, E1 in E2; cbn [omap fst snd] in E2.
  injection E2 as <- <-; repeat split.
Qed.

(** * The theorems at work on small models *)

(** The snapshot in the order the set lists its members. *)
Definition listed (l : list Coordinate) : list Coordinate := l.

Lemma listed_perm (l : list Coordinate) : Permutation (listed l) l.
Proof. apply Permutation_refl. Qed.

(** One row of six cells: hospitals drawn at columns 0 and 5, then a
    house at column 3. *)
Definition example_draws : list (Z * Z) := [(0, 0); (0, 5); (0, 3)].

Definition example_model : HospitalDistribution :=
  mkHospitalDistribution 1 6 2 1 [[2; 0; 0; 1; 0; 2]]
    [mkCoordinate 0 0 0; mkCoordinate 1 0 5] [mkCoordinate 2 0 3] 3 5 3.

(** The same model after a call of the optimiser, which moves the
    hospital of column 5 next to the house, and after a second call. *)
Definition example_optimized : HospitalDistribution :=
  mkHospitalDistribution 1 6 2 1 [[2; 0; 0; 1; 2; 0]]
    [mkCoordinate 0 0 0; mkCoordinate 5 0 4] [mkCoordinate 2 0 3] 3 5 12.

Definition example_settled : HospitalDistribution :=
  mkHospitalDistribution 1 6 2 1 [[2; 0; 0; 1; 2; 0]]
    [mkCoordinate 0 0 0; mkCoordinate 5 0 4] [mkCoordinate 2 0 3] 3 5 17.

Lemma example_initialized :
  initialize_random_positions example_draws (new_HospitalDistribution 1 6 2 1)
  = Ret (example_model, []).
Proof. vm_compute; reflexivity. Qed.

Lemma example_call :
  optimize_distribution listed 2 example_model
  = Ret (example_optimized, [(mkCoordinate 1 0 5, mkCoordinate 5 0 4)]).
Proof. vm_compute; reflexivity. Qed.

Lemma example_second_call :
  optimize_distribution listed 1 example_optimized = Ret (example_settled, []).
Proof. vm_compute; reflexivity. Qed.

Lemma example_reachable : reachable listed example_model.
Proof. exact (reach_init listed 1 6 2 1 example_draws [] _ example_initialized). Qed.

Lemma example_optimized_reachable : reachable listed example_optimized.
Proof.
  exact (reach_optimize listed _ _ 2 _ example_reachable example_call).
Qed.

(** Scenario A of the specification: a 5 x 5 grid, the hospital at
    (0, 0) and the house at (4, 4). *)
Definition scenario_A : HospitalDistribution :=
  mkHospitalDistribution 5 5 1 1
    [[2; 0; 0; 0; 0]; [0; 0; 0; 0; 0]; [0; 0; 0; 0; 0]; [0; 0; 0; 0; 0];
     [0; 0; 0; 0; 1]]
    [mkCoordinate 0 0 0] [mkCoordinate 1 4 4] 3 5 2.

Lemma hospitals_stay_apart_witness :
  MIN_HOSPITAL_DISTANCE example_model = 3
  /\ 3 <= distance_to (mkCoordinate 0 0 0) (mkCoordinate 1 0 5).
Proof.
  apply (hospitals_stay_apart listed listed_perm example_model
           (mkCoordinate 0 0 0) (mkCoordinate 1 0 5) example_reachable).
  - now left.
  - right; now left.
  - discriminate.
Defined.

Lemma score_never_increases_witness :
  num_le (_calculate_score example_optimized) (_calculate_score example_model) = true.
Proof.
  exact (score_never_increases listed listed_perm example_model example_optimized 2
           _ example_reachable example_call).
Defined.

Lemma score_is_sum_of_nearest_witness :
  _calculate_score scenario_A
  = Int (spec_score (houses scenario_A) (hospitals scenario_A))
  /\ _calculate_score scenario_A = Int 8.
Proof.
  destruct (score_is_sum_of_nearest scenario_A ltac:(discriminate))
    as (Sum & _ & Eight & _).
  split; [exact Sum|].
  exact (Eight _ _ eq_refl eq_refl eq_refl eq_refl eq_refl eq_refl).
Defined.

Lemma counts_conserved_witness :
  Z.of_nat (length (hospitals example_model)) = 2
  /\ Z.of_nat (length (houses example_model)) = 1
  /\ length (hospitals example_optimized) = length (hospitals example_model)
  /\ houses example_optimized = houses example_model.
Proof.
  destruct (counts_conserved listed listed_perm example_model example_reachable)
    as (Hospitals & Houses & _ & _ & Kept).
  split; [apply Hospitals; discriminate|].
  split; [apply Houses; discriminate|].
  destruct (Kept _ _ _ example_call) as (Hh & Hk & _).
  split; [exact Hh|exact Hk].
Defined.

Lemma optimize_terminates_witness :
  exists s' log, optimize_distribution listed 3 example_model = Ret (s', log).
Proof.
  destruct (optimize_terminates listed listed_perm example_model example_reachable)
    as (_ & (s' & log & Returns & _) & _).
  exists s', log; apply Returns; cbn; lia.
Defined.

Lemma converged_call_is_noop_witness :
  exists s'',
    optimize_distribution listed 1 example_settled = Ret (s'', [])
    /\ grid s'' = grid example_settled
    /\ Permutation (hospitals example_settled) (hospitals s'')
    /\ houses s'' = houses example_settled
    /\ _calculate_score s'' = _calculate_score example_settled.
Proof.
  exact (converged_call_is_noop listed listed_perm example_optimized example_settled
           1 1 example_optimized_reachable example_second_call (le_n 1)).
Defined.

Lemma initialize_loops_when_infeasible_witness :
  initialize_random_positions [(0, 0); (1, 1); (0, 1); (1, 0); (7, 5)]
    (new_HospitalDistribution 2 2 2 0) = Timeout.
Proof.
  apply (proj2 (initialize_loops_when_infeasible 2 2 2 0 eq_refl eq_refl)).
  exact no_placement_2x2.
Defined.

Lemma committed_moves_change_position_witness :
  (x (mkCoordinate 5 0 4), y (mkCoordinate 5 0 4))
  <> (x (mkCoordinate 1 0 5), y (mkCoordinate 1 0 5))
  /\ Z.abs (x (mkCoordinate 5 0 4) - x (mkCoordinate 1 0 5)) <= 1
  /\ Z.abs (y (mkCoordinate 5 0 4) - y (mkCoordinate 1 0 5)) <= 1
  /\ (Z.abs (x (mkCoordinate 5 0 4) - x (mkCoordinate 1 0 5)) = 1
      \/ Z.abs (y (mkCoordinate 5 0 4) - y (mkCoordinate 1 0 5)) = 1).
Proof.
  apply (proj2 (committed_moves_change_position listed listed_perm example_model
                  example_optimized 2 _ example_reachable example_call)).
  now left.
Defined.

(** * Further properties of the placement and of the optimiser *)

(** ** What a relocation does to the model *)

(** [relocate] either leaves the grid as it is, or moves [old] to a
    new object [p] on a cell that was free once [old] had left. *)
Lemma relocate_shape (old : Coordinate) (f0 : frame) :
  Inv (self f0) -> In old (hospitals (self f0)) ->
  exists f', relocate old f0 = Ret f'
    /\ ((grid (self f') = grid (self f0)
         /\ Permutation (hospitals (self f0)) (hospitals (self f'))
         /\ relocations f' = relocations f0)
        \/ exists p n,
            self f' = moved old p n (self f0)
            /\ relocations f' = relocations f0 ++ [(old, p)]
            /\ in_grid (self f0) (x p) (y p) = true
            /\ candidate_valid (self f0) old (x p) (y p) = true
            /\ (next_oid (self f0) <= oid p < n)%nat).
Proof.
  intros HI Hold; unfold relocate; cbv zeta.
  destruct (scan_spec old
              (mkFrame (self f0) (best_score f0) (improved f0) None (relocations f0))
              HI Hold eq_refl) as (f & -> & Sc); cbn [bind].
  destruct f0 as [s0 b0 i0 p0 log0]; model_simpl.
  destruct Sc as [(hs & n & Es & P & Eo & Ln & Hp) Hm Hb].
  destruct f as [s b i p log]; model_simpl; subst s log.
  assert (Hold' : In old hs) by (eapply Permutation_in; eassumption).
  destruct (inv_hospital s0 HI old Hold) as [Oin Ocell].
  pose proof (inv_shape s0 HI) as Sh.
  destruct p as [p|].
  - destruct Hb as (-> & -> & d & Hd & Hx & Hy & Him).
    apply improving_true in Him; rewrite <- Hx, <- Hy in Him.
    destruct Him as (G & V & Lt).
    pose proof G as G'; apply in_grid_inside in G'.
    assert (New : forall h, In h (others old (hospitals s0)) -> oid h <> oid p).
    { intros h H; apply in_others in H; destruct H as [H _].
      pose proof (inv_fresh s0 HI h H); lia. }
    model_simpl; rewrite (set_remove_in old hs Hold'); model_simpl.
    rewrite (grid_set_inside _ _ _ _ _ 0 Sh Oin); model_simpl.
    rewrite Eo, (set_add_new p _ New).
    rewrite (grid_set_inside (rows s0) (cols s0)) by (try apply put_shaped; assumption).
    model_simpl.
    exists (mkFrame (moved old p n s0) (candidate_score s0 old (x p) (y p)) true
              (Some p) (log0 ++ [(old, p)])); split; [reflexivity|].
    right; exists p, n; model_simpl; auto.
  - eexists; split; [reflexivity|]; left; model_simpl; auto.
Qed.

(** ** Properties every step keeps

    A property of the model that survives the relocation of one
    hospital survives a sweep, the [while] loop and a whole call; and
    none of them raises. *)
Section Preserved.

Variable Q : HospitalDistribution -> Prop.
Hypothesis relocate_keeps : forall old f f',
    Inv (self f) -> Q (self f) -> In old (hospitals (self f)) ->
    relocate old f = Ret f' -> Q (self f').

Lemma for_each_relocate_keeps (pending : list Coordinate) :
  forall f,
    Inv (self f) -> Q (self f) -> NoDup (map oid pending) ->
    (forall h, In h pending -> In h (hospitals (self f))) ->
    exists f', for_each pending relocate f = Ret f'
               /\ Inv (self f') /\ Q (self f').
Proof.
  induction pending as [|old pending IH]; intros f HI HQ N Hin; cbn [for_each].
  - exists f; auto.
  - cbn [map] in N; inversion N as [|? ? Nold N']; subst.
    assert (Hold : In old (hospitals (self f))) by (apply Hin; now left).
    destruct (relocate_spec old f HI Hold) as (f1 & E & [HI1 _ Keep _]).
    pose proof (relocate_keeps old f f1 HI HQ Hold E) as HQ1.
    rewrite E; cbn [bind]; apply IH; auto.
    intros h H; apply Keep; [apply Hin; now right|].
    intros Eo; apply Nold; rewrite <- Eo; now apply in_map.
Qed.

Variable order : list Coordinate -> list Coordinate.
Hypothesis order_perm : forall l, Permutation (order l) l.

Lemma sweep_keeps (f : frame) :
  Inv (self f) -> Q (self f) ->
  exists f', sweep order f = Ret f' /\ Inv (self f') /\ Q (self f').
Proof.
  intros HI HQ; unfold sweep; cbv zeta; cbn [self].
  apply for_each_relocate_keeps; cbn [self]; auto.
  - now apply order_nodup.
  - intros h; now apply order_in.
Qed.

Lemma while_improved_keeps (fuel : nat) :
  forall f, Inv (self f) -> Q (self f) ->
    match while_improved order fuel f with
    | Ret f' => Inv (self f') /\ Q (self f')
    | Raise _ => False
    | Timeout => True
    end.
Proof.
  induction fuel as [|fuel IH]; intros f HI HQ; cbn [while_improved];
    destruct (improved f); auto.
  destruct (sweep_keeps f HI HQ) as (f1 & -> & HI1 & HQ1); cbn [bind].
  now apply IH.
Qed.

Lemma optimize_keeps (fuel : nat) (s : HospitalDistribution) :
  Inv s -> Q s ->
  match optimize_distribution order fuel s with
  | Ret (s', _) => Inv s' /\ Q s'
  | Raise _ => False
  | Timeout => True
  end.
Proof.
  intros HI HQ; unfold optimize_distribution.
  pose proof (while_improved_keeps fuel
                (mkFrame s (_calculate_score s) true None []) HI HQ) as H.
  destruct (while_improved order fuel _) as [f| |]; cbn [bind]; auto.
Qed.

Hypothesis initialize_gives : forall r c nh nk draws rest s,
    initialize_random_positions draws (new_HospitalDistribution r c nh nk)
    = Ret (s, rest) -> Q s.

Lemma reachable_keeps (s : HospitalDistribution) : reachable order s -> Q s.
Proof.
  induction 1 as [r c nh nk draws rest s E|h f f' R HQ Hin E
                  |s s' fuel log R HQ E].
  - eapply initialize_gives; eassumption.
  - destruct (reachable_Inv order order_perm _ R) as [HI _].
    eapply relocate_keeps; eassumption.
  - destruct (reachable_Inv order order_perm _ R) as [HI _].
    pose proof (optimize_keeps fuel s HI HQ) as H; rewrite E in H; tauto.
Qed.

End Preserved.

(** ** The grid shows exactly the members of the two sets *)

(** Every cell of the grid is empty, or holds a house that is a member
    of [houses], or holds a hospital that is a member of [hospitals]. *)
Definition occupancy (s : HospitalDistribution) : Prop :=
  forall i j, inside (rows s) (cols s) i j ->
    cell (grid s) i j = Some 0
    \/ (cell (grid s) i j = Some 1
        /\ exists k, In k (houses s) /\ x k = i /\ y k = j)
    \/ (cell (grid s) i j = Some 2
        /\ exists h, In h (hospitals s) /\ x h = i /\ y h = j).

Lemma occupancy_new (r c nh nk : Z) : occupancy (new_HospitalDistribution r c nh nk).
Proof.
  intros i j [Hi Hj]; left; unfold new_HospitalDistribution, cell in *; model_simpl.
  rewrite nth_error_repeat by lia.
  apply nth_error_repeat; lia.
Qed.

Lemma occupancy_put (s s' : HospitalDistribution) (p : Coordinate) (v : Z) :
  Inv s -> occupancy s -> inside (rows s) (cols s) (x p) (y p) ->
  rows s' = rows s -> cols s' = cols s ->
  grid s' = put (grid s) (x p) (y p) v ->
  (forall k, In k (houses s) -> In k (houses s')) ->
  (forall h, In h (hospitals s) -> In h (hospitals s')) ->
  (v = 1 /\ In p (houses s') \/ v = 2 /\ In p (hospitals s')) ->
  occupancy s'.
Proof.
  intros HI Oc Hp Er Ec Eg Kk Kh Hv i j Hij.
  rewrite Er, Ec in Hij; rewrite Eg.
  destruct (Z.eq_dec (x p) i) as [Ei|Ni], (Z.eq_dec (y p) j) as [Ej|Nj];
    [|unfold inside in *; rewrite cell_put_other by lia..].
  - subst i j; rewrite (cell_put_same (rows s) (cols s)) by (auto using inv_shape).
    destruct Hv as [[-> H]|[-> H]];
      [right; left|right; right]; split; try reflexivity; exists p; auto.
  - destruct (Oc i j) as [H|[[H (k & K & E)]|[H (h & K & E)]]];
      unfold inside; auto 6; [right; left|right; right]; split; auto;
        eexists; split; eauto.
  - destruct (Oc i j) as [H|[[H (k & K & E)]|[H (h & K & E)]]];
      unfold inside; auto 6; [right; left|right; right]; split; auto;
        eexists; split; eauto.
  - destruct (Oc i j) as [H|[[H (k & K & E)]|[H (h & K & E)]]];
      unfold inside; auto 6; [right; left|right; right]; split; auto;
        eexists; split; eauto.
Qed.

Lemma occupancy_reordered (s : HospitalDistribution) (hs : list Coordinate) (n : nat) :
  occupancy s -> Permutation (hospitals s) hs -> occupancy (reordered hs n s).
Proof.
  intros Oc P i j Hij; model_simpl.
  destruct (Oc i j Hij) as [H|[H|[H (h & K & E)]]]; auto.
  right; right; split; [assumption|]; exists h; split; [|assumption].
  eapply Permutation_in; eassumption.
Qed.

Lemma cell_after_move (r c : Z) (g : list (list Z)) (ox oy px py i j : Z) :
  shaped r c g -> inside r c ox oy -> inside r c px py -> inside r c i j ->
  (px = i /\ py = j /\ cell (put (put g ox oy 0) px py 2) i j = Some 2)
  \/ ((px <> i \/ py <> j) /\ ox = i /\ oy = j
      /\ cell (put (put g ox oy 0) px py 2) i j = Some 0)
  \/ ((px <> i \/ py <> j) /\ (ox <> i \/ oy <> j)
      /\ cell (put (put g ox oy 0) px py 2) i j = cell g i j).
Proof.
  intros Sh Ho Hp Hij.
  assert (Sh0 : shaped r c (put g ox oy 0)) by now apply put_shaped.
  destruct (Z.eq_dec px i) as [Ei|Ni], (Z.eq_dec py j) as [Ej|Nj].
  1:{ left; rewrite <- Ei, <- Ej; repeat split.
      now apply (cell_put_same r c). }
  all: right; rewrite (cell_put_other _ px) by (unfold inside in *; lia).
  all: destruct (Z.eq_dec ox i) as [Eo|No], (Z.eq_dec oy j) as [Eo'|No'].
  all: try (right; rewrite cell_put_other by (unfold inside in *; lia);
            repeat split; auto; fail).
  all: left; rewrite <- Eo, <- Eo'; repeat split; auto; try (rewrite Eo; auto; fail);
    try (rewrite Eo'; auto; fail); now apply (cell_put_same r c).
Qed.

Lemma occupancy_moved (s : HospitalDistribution) (old p : Coordinate) (n : nat) :
  Inv s -> occupancy s -> In old (hospitals s) ->
  in_grid s (x p) (y p) = true ->
  occupancy (moved old p n s).
Proof.
  intros HI Oc Hold G i j Hij; unfold moved in *; model_simpl.
  apply in_grid_inside in G.
  destruct (inv_hospital s HI old Hold) as [Oin Ocell].
  destruct (cell_after_move _ _ _ _ _ _ _ i j (inv_shape s HI) Oin G Hij)
    as [(Ex & Ey & ->)|[(_ & _ & _ & ->)|(_ & Far & ->)]].
  - right; right; split; [reflexivity|]; exists p; split; auto.
    apply in_or_app; right; now left.
  - now left.
  - destruct (Oc i j Hij) as [H|[H|[H (h & K & Ex & Ey)]]]; auto.
    right; right; split; [assumption|]; exists h; split; auto.
    apply in_or_app; left; apply in_others; split; [assumption|].
    intros E; apply (same_object (hospitals s)) in E; auto using inv_nodup.
    subst h; tauto.
Qed.

Lemma occupancy_alloc (s : HospitalDistribution) :
  occupancy s -> occupancy (snd (new_Coordinate 0 0 s)).
Proof.
  intros Oc; apply (occupancy_reordered s (hospitals s) (S (next_oid s)));
    auto using Permutation_refl.
Qed.

Lemma occupancy_with_hospital (s : HospitalDistribution) (p : Coordinate) :
  Inv s -> occupancy s -> inside (rows s) (cols s) (x p) (y p) ->
  occupancy (with_hospital p s).
Proof.
  intros HI Oc Hp; apply (occupancy_put s _ p 2); auto.
  - intros h H; unfold with_hospital; model_simpl; apply in_or_app; now left.
  - right; split; [reflexivity|]; unfold with_hospital; model_simpl.
    apply in_or_app; right; now left.
Qed.

Lemma occupancy_with_house (s : HospitalDistribution) (p : Coordinate) :
  Inv s -> occupancy s -> inside (rows s) (cols s) (x p) (y p) ->
  occupancy (with_house p s).
Proof.
  intros HI Oc Hp; apply (occupancy_put s _ p 1); auto.
  - intros h H; unfold with_house; model_simpl; apply in_or_app; now left.
  - left; split; [reflexivity|]; unfold with_house; model_simpl.
    apply in_or_app; right; now left.
Qed.

Lemma place_hospitals_occupancy (draws : list (Z * Z)) :
  forall s, Inv s -> occupancy s ->
    match place_hospitals draws s with
    | Ret (s', _) => occupancy s'
    | _ => True
    end.
Proof.
  induction draws as [|[r1 r2] draws IH]; intros s HI Oc; cbn [place_hospitals];
    destruct (Z.ltb_spec (Z.of_nat (length (hospitals s))) (num_hospitals s)) as [L|L];
    try exact I; try assumption.
  pose proof (randint_spec 0 (rows s - 1) r1) as R1.
  destruct (randint 0 (rows s - 1) r1) as [xv| |]; cbn [bind]; try exact I.
  pose proof (randint_spec 0 (cols s - 1) r2) as R2.
  destruct (randint 0 (cols s - 1) r2) as [yv| |]; cbn [bind]; try exact I.
  pose proof (Inv_alloc s HI) as HI1.
  pose proof (occupancy_alloc s Oc) as Oc1.
  assert (Hin : inside (rows s) (cols s) xv yv) by (unfold inside; lia).
  cbn [new_Coordinate] in *; cbn [snd] in HI1, Oc1.
  rewrite is_valid_spec by (try apply inv_shape; model_simpl; assumption).
  model_simpl.
  destruct (cell (grid s) xv yv) as [v|] eqn:C; [|now apply IH].
  destruct (Z.eqb_spec v 0) as [->|Nv]; cbn [andb]; [|now apply IH].
  destruct (spaced_from (MIN_HOSPITAL_DISTANCE s) (hospitals s)
              {| oid := next_oid s; x := xv; y := yv |}) eqn:Sp; [|now apply IH].
  rewrite set_add_new
    by (intros d D; pose proof (inv_fresh s HI d D); model_simpl; lia).
  rewrite (grid_set_inside (rows s) (cols s)) by (try apply inv_shape; assumption).
  model_simpl.
  apply (IH (with_hospital {| oid := next_oid s; x := xv; y := yv |} s)).
  - now apply Inv_with_hospital.
  - now apply occupancy_with_hospital.
Qed.

Lemma place_houses_occupancy (draws : list (Z * Z)) :
  forall s, Inv s -> occupancy s ->
    match place_houses draws s with
    | Ret (s', _) => occupancy s'
    | _ => True
    end.
Proof.
  induction draws as [|[r1 r2] draws IH]; intros s HI Oc; cbn [place_houses];
    destruct (Z.ltb_spec (Z.of_nat (length (houses s))) (num_houses s)) as [L|L];
    try exact I; try assumption.
  pose proof (randint_spec 0 (rows s - 1) r1) as R1.
  destruct (randint 0 (rows s - 1) r1) as [xv| |]; cbn [bind]; try exact I.
  pose proof (randint_spec 0 (cols s - 1) r2) as R2.
  destruct (randint 0 (cols s - 1) r2) as [yv| |]; cbn [bind]; try exact I.
  pose proof (Inv_alloc s HI) as HI1.
  pose proof (occupancy_alloc s Oc) as Oc1.
  assert (Hin : inside (rows s) (cols s) xv yv) by (unfold inside; lia).
  cbn [new_Coordinate] in *; cbn [snd] in HI1, Oc1; model_simpl.
  destruct (grid_get_inside _ _ _ _ _ (inv_shape s HI) Hin) as (v & -> & C).
  model_simpl.
  destruct (Z.eqb_spec v 0) as [->|Nv]; [|now apply IH].
  rewrite set_add_new
    by (intros d D; pose proof (inv_house_fresh s HI d D); model_simpl; lia).
  rewrite (grid_set_inside (rows s) (cols s)) by (try apply inv_shape; assumption).
  model_simpl.
  apply (IH (with_house {| oid := next_oid s; x := xv; y := yv |} s)).
  - now apply Inv_with_house.
  - now apply occupancy_with_house.
Qed.

Lemma initialize_occupancy (r c nh nk : Z) (draws rest : list (Z * Z))
      (s : HospitalDistribution) :
  initialize_random_positions draws (new_HospitalDistribution r c nh nk)
  = Ret (s, rest) -> occupancy s.
Proof.
  unfold initialize_random_positions; intros E.
  pose proof (place_hospitals_spec draws _ (Inv_new r c nh nk)) as H1.
  pose proof (place_hospitals_occupancy draws _ (Inv_new r c nh nk)
                (occupancy_new r c nh nk)) as O1.
  destruct (place_hospitals draws _) as [[s1 rest1]| |]; cbn [bind fst snd] in E;
    try discriminate.
  destruct H1 as (HI1 & _).
  pose proof (place_houses_occupancy rest1 s1 HI1 O1) as O2.
  now rewrite E in O2.
Qed.

Lemma relocate_occupancy (old : Coordinate) (f f' : frame) :
  Inv (self f) -> occupancy (self f) -> In old (hospitals (self f)) ->
  relocate old f = Ret f' -> occupancy (self f').
Proof.
  intros HI Oc Hold E.
  destruct (relocate_spec old f HI Hold) as (f1 & E1 & [_ Ev _ _]).
  destruct (relocate_shape old f HI Hold)
    as (f2 & E2 & [(Hg & P & _)|(p & n & Es & _ & G & _)]);
    rewrite E in E1, E2; injection E1 as <-; injection E2 as <-.
  - intros i j Hij; rewrite (ev_rows _ _ Ev), (ev_cols _ _ Ev) in Hij.
    rewrite Hg, (ev_houses _ _ Ev).
    destruct (Oc i j Hij) as [H|[H|[H (h & K & Ex)]]]; auto.
    right; right; split; [assumption|]; exists h; split; [|assumption].
    eapply Permutation_in; eassumption.
  - rewrite Es; now apply occupancy_moved.
Qed.

Lemma grid_agrees (s : HospitalDistribution) (i j : Z) :
  Inv s -> occupancy s -> inside (rows s) (cols s) i j ->
  (cell (grid s) i j = Some 2 <->
   exists h, In h (hospitals s) /\ x h = i /\ y h = j)
  /\ (cell (grid s) i j = Some 1 <->
      exists k, In k (houses s) /\ x k = i /\ y k = j)
  /\ (cell (grid s) i j = Some 0 <->
      forall c, In c (hospitals s) \/ In c (houses s) -> x c <> i \/ y c <> j).
Proof.
  intros HI Occ Hij; pose proof (Occ i j Hij) as Oc.
  assert (Fh : forall h, In h (hospitals s) -> x h = i -> y h = j ->
                         cell (grid s) i j = Some 2)
    by (intros h H <- <-; apply (inv_hospital s HI h H)).
  assert (Fk : forall k, In k (houses s) -> x k = i -> y k = j ->
                         cell (grid s) i j = Some 1)
    by (intros k H <- <-; apply (inv_house s HI k H)).
  split; [|split]; split.
  - intros E; destruct Oc as [H|[[H _]|[_ H]]]; [congruence..|exact H].
  - intros (h & H & Ex & Ey); eauto.
  - intros E; destruct Oc as [H|[[_ H]|[H _]]]; [congruence|exact H|congruence].
  - intros (k & H & Ex & Ey); eauto.
  - intros E c [H|H].
    + destruct (Z.eq_dec (x c) i) as [Ex|]; [|now left].
      destruct (Z.eq_dec (y c) j) as [Ey|]; [|now right].
      rewrite (Fh c H Ex Ey) in E; discriminate.
    + destruct (Z.eq_dec (x c) i) as [Ex|]; [|now left].
      destruct (Z.eq_dec (y c) j) as [Ey|]; [|now right].
      rewrite (Fk c H Ex Ey) in E; discriminate.
  - intros F; destruct Oc as [H|[[_ (k & H & Ex & Ey)]|[_ (h & H & Ex & Ey)]]];
      [exact H|exfalso..].
    + destruct (F k (or_intror H)); congruence.
    + destruct (F h (or_introl H)); congruence.
Qed.

Section Invariants.

Variable order : list Coordinate -> list Coordinate.
Hypothesis order_perm : forall l, Permutation (order l) l.

Lemma reachable_occupancy (s : HospitalDistribution) :
  reachable order s -> occupancy s.
Proof.
  apply (reachable_keeps occupancy relocate_occupancy order order_perm).
  exact initialize_occupancy.
Qed.

(** X1.  In every reachable model the members of [hospitals] and of
    [houses] lie inside the grid. *)
Theorem members_inside_grid (s : HospitalDistribution) (c : Coordinate) :
  reachable order s -> In c (hospitals s) \/ In c (houses s) ->
  0 <= x c < rows s /\ 0 <= y c < cols s.
Proof.
  intros R H; destruct (reachable_Inv order order_perm s R) as [HI _].
  destruct H as [H|H]; [apply (inv_hospital s HI c H)|apply (inv_house s HI c H)].
Qed.

(** X2.  In every reachable model no hospital shares its cell with a
    house, and two distinct members of [hospitals], or of [houses],
    are on different cells. *)
Theorem members_on_distinct_cells (s : HospitalDistribution) :
  reachable order s ->
  (forall h k, In h (hospitals s) -> In k (houses s) -> position h <> position k)
  /\ (forall h1 h2, In h1 (hospitals s) -> In h2 (hospitals s) ->
        h1 <> h2 -> position h1 <> position h2)
  /\ NoDup (map position (houses s)).
Proof.
  intros R; destruct (reachable_Inv order order_perm s R) as [HI _].
  split; [|split].
  - intros h k Hh Hk E; injection E as Ex Ey.
    destruct (inv_hospital s HI h Hh) as [_ Ch], (inv_house s HI k Hk) as [_ Ck].
    rewrite Ex, Ey in Ch; congruence.
  - intros h1 h2 H1 H2 N E; injection E as Ex Ey.
    assert (No : oid h1 <> oid h2)
      by (intros Eo; apply N, (same_object (hospitals s)); auto using inv_nodup).
    pose proof (inv_spaced s HI h1 h2 H1 H2 No) as D.
    unfold distance_to in D; lia.
  - now apply inv_house_nodup.
Qed.

(** X3.  In every reachable model the grid and the two sets agree: a
    cell holds 2 exactly when a member of [hospitals] is on it, 1
    exactly when a member of [houses] is on it, and 0 exactly when
    nobody is. *)
Theorem grid_shows_the_sets (s : HospitalDistribution) (i j : Z) :
  reachable order s -> 0 <= i < rows s -> 0 <= j < cols s ->
  (cell (grid s) i j = Some 2 <->
   exists h, In h (hospitals s) /\ x h = i /\ y h = j)
  /\ (cell (grid s) i j = Some 1 <->
      exists k, In k (houses s) /\ x k = i /\ y k = j)
  /\ (cell (grid s) i j = Some 0 <->
      forall c, In c (hospitals s) \/ In c (houses s) -> x c <> i \/ y c <> j).
Proof.
  intros R Hi Hj; destruct (reachable_Inv order order_perm s R) as [HI _].
  apply grid_agrees; auto using reachable_occupancy; now split.
Qed.

(** X4.  On a reachable model neither the relocation of one of its
    hospitals nor a call of [optimize_distribution] raises: no
    [KeyError] from [remove], no [IndexError] from the grid. *)
Theorem optimizer_never_raises (s : HospitalDistribution) :
  reachable order s ->
  (forall fuel e, optimize_distribution order fuel s <> Raise e)
  /\ (forall hospital f e,
        self f = s -> In hospital (hospitals s) -> relocate hospital f <> Raise e).
Proof.
  intros R; destruct (reachable_Inv order order_perm s R) as [HI _]; split.
  - intros fuel e E.
    pose proof (optimize_keeps (fun _ => True) (fun _ _ _ _ _ _ _ => I)
                  order order_perm fuel s HI I) as H.
    now rewrite E in H.
  - intros h f e <- Hin E.
    destruct (relocate_spec h f HI Hin) as (f' & E' & _); congruence.
Qed.

End Invariants.

(** ** Identity of the members

    [oid] stands for the identity of an object.  In the models the
    program reaches, the members of the two sets are pairwise distinct
    objects, all created before the next [Coordinate(...)]: there [==]
    and [hash] tell two members apart exactly when they are two
    objects. *)


















Section Identity.

Variable order : list Coordinate -> list Coordinate.
Hypothesis order_perm : forall l, Permutation (order l) l.



End Identity.



(** ** Every relocation pays with the score *)

Lemma fold_add_inf (ks hs : list Coordinate) :
  fold_left (fun total house => num_add total (min_distance hs house)) ks Inf = Inf.
Proof. induction ks as [|k ks IH]; cbn [fold_left num_add]; auto. Qed.

Lemma score_nonneg (s : HospitalDistribution) (z : Z) :
  _calculate_score s = Int z -> 0 <= z.
Proof.
  destruct (hospitals s) as [|h hs] eqn:Eh.
  - unfold _calculate_score, total_distance; rewrite Eh.
    destruct (houses s) as [|k ks]; cbn [fold_left].
    + intros E; injection E as <-; lia.
    + change (min_distance [] k) with Inf; cbn [num_add].
      rewrite fold_add_inf; discriminate.
  - intros E; destruct (score_int s) as (z' & E' & Hz); [rewrite Eh; discriminate|].
    congruence.
Qed.

(** The moves [ms] committed while the running best went from [b0] to
    [b']: each of them lowered it by at least one. *)
Definition paid (b0 b' : number) (ms : list (Coordinate * Coordinate)) : Prop :=
  match b0 with
  | Int z0 => exists z', b' = Int z' /\ 0 <= z' /\ Z.of_nat (length ms) <= z0 - z'
  | Inf => b' = Inf /\ ms = []
  end.

Lemma paid_refl (s : HospitalDistribution) :
  paid (_calculate_score s) (_calculate_score s) [].
Proof.
  unfold paid; destruct (_calculate_score s) as [z|] eqn:E; [|now split].
  exists z; repeat split; [now apply (score_nonneg s)|cbn [length]; lia].
Qed.

Lemma paid_trans (b0 b1 b2 : number) (ms1 ms2 : list (Coordinate * Coordinate)) :
  paid b0 b1 ms1 -> paid b1 b2 ms2 -> paid b0 b2 (ms1 ++ ms2).
Proof.
  unfold paid; destruct b0 as [z0|].
  - intros (z1 & -> & H1 & L1) (z2 & -> & H2 & L2).
    exists z2; repeat split; auto; rewrite length_app; lia.
  - intros (-> & ->) (-> & ->); now split.
Qed.

Lemma relocate_paid (old : Coordinate) (f0 : frame) :
  Inv (self f0) -> In old (hospitals (self f0)) ->
  best_score f0 = _calculate_score (self f0) ->
  exists f1 ms,
    relocate old f0 = Ret f1 /\ relocated old f0 f1
    /\ relocations f1 = relocations f0 ++ ms
    /\ best_score f1 = _calculate_score (self f1)
    /\ paid (best_score f0) (best_score f1) ms.
Proof.
  intros HI Hold Hb.
  destruct (relocate_spec old f0 HI Hold) as (f1 & E & Rl).
  pose proof Rl as [HI1 Ev _ [St|(p & Mv)]].
  - exists f1, []; rewrite app_nil_r.
    pose proof (stayed_score old f0 f1 Ev St Hb) as Hb1.
    destruct St as (_ & Eb & _ & Em & _).
    split; [exact E|]; split; [exact Rl|]; split; [exact Em|]; split; [exact Hb1|].
    rewrite Eb, Hb; apply paid_refl.
  - exists f1, [(old, p)].
    destruct Mv as (_ & Em & _ & Hb1 & Lt & Eh & _).
    split; [exact E|]; split; [exact Rl|]; split; [exact Em|]; split; [exact Hb1|].
    destruct (score_int (self f0)) as (z0 & E0 & H0);
      [intros N; rewrite N in Hold; destruct Hold|].
    destruct (score_int (self f1)) as (z1 & E1 & H1);
      [rewrite Eh; intros N; apply app_eq_nil in N; destruct N; discriminate|].
    rewrite Hb1, E1, Hb, E0 in *; cbn [num_lt] in Lt; apply Z.ltb_lt in Lt.
    exists z1; repeat split; auto; cbn [length]; lia.
Qed.

Lemma sweep_loop_paid (pending : list Coordinate) :
  forall f0,
    Inv (self f0) -> NoDup (map oid pending) ->
    (forall h, In h pending -> In h (hospitals (self f0))) ->
    best_score f0 = _calculate_score (self f0) ->
    exists f' ms,
      for_each pending relocate f0 = Ret f'
      /\ Inv (self f')
      /\ relocations f' = relocations f0 ++ ms
      /\ best_score f' = _calculate_score (self f')
      /\ paid (best_score f0) (best_score f') ms.
Proof.
  induction pending as [|old pending IH]; intros f0 HI N Hin Hb; cbn [for_each].
  - exists f0, []; rewrite app_nil_r.
    split; [reflexivity|]; split; [exact HI|]; split; [reflexivity|].
    split; [exact Hb|]; rewrite Hb; apply paid_refl.
  - cbn [map] in N; inversion N as [|? ? Nold N']; subst.
    assert (Hold : In old (hospitals (self f0))) by (apply Hin; now left).
    destruct (relocate_paid old f0 HI Hold Hb)
      as (f1 & ms1 & -> & [HI1 _ Keep _] & Em1 & Hb1 & P1); cbn [bind].
    destruct (IH f1 HI1 N') as (f' & ms2 & E & HI' & Em2 & Hb' & P2); auto.
    { intros h H; apply Keep; [apply Hin; now right|].
      intros Eo; apply Nold; rewrite <- Eo; now apply in_map. }
    exists f', (ms1 ++ ms2).
    split; [exact E|]; split; [exact HI'|]; split; [|split; [exact Hb'|]].
    + now rewrite Em2, Em1, app_assoc.
    + eapply paid_trans; eassumption.
Qed.

Section Paid.

Variable order : list Coordinate -> list Coordinate.
Hypothesis order_perm : forall l, Permutation (order l) l.

Lemma while_improved_paid (fuel : nat) :
  forall f f',
    Inv (self f) -> best_score f = _calculate_score (self f) ->
    while_improved order fuel f = Ret f' ->
    exists ms,
      relocations f' = relocations f ++ ms
      /\ best_score f' = _calculate_score (self f')
      /\ paid (best_score f) (best_score f') ms.
Proof.
  induction fuel as [|fuel IH]; intros f f' HI Hb E; cbn [while_improved] in E;
    destruct (improved f) eqn:Ei; try discriminate.
  1,3: injection E as <-; exists []; rewrite app_nil_r; repeat split; auto;
    rewrite Hb; apply paid_refl.
  unfold sweep in E; cbv zeta in E; cbn [self] in E.
  destruct (sweep_loop_paid (order (hospitals (self f)))
              (mkFrame (self f) (best_score f) false (best_new_pos f) (relocations f)))
    as (f1 & ms1 & E1 & HI1 & Em1 & Hb1 & P1); model_simpl; auto.
  { now apply order_nodup. }
  { intros h; now apply order_in. }
  rewrite E1 in E; cbn [bind] in E.
  destruct (IH f1 f' HI1 Hb1 E) as (ms2 & Em2 & Hb' & P2).
  exists (ms1 ++ ms2); repeat split; auto.
  - now rewrite Em2, Em1, app_assoc.
  - eapply paid_trans; eassumption.
Qed.

(** X5.  A call of [optimize_distribution] on a reachable model
    commits at most as many relocations as it lowers the score: with
    the score [z] before and [z'] after, [length log <= z - z'].  So
    a call that moves a hospital ends with a strictly lower score, a
    call on a model without houses moves nothing, and when the score
    is [inf] (no hospital) nothing moves either. *)
Theorem relocations_pay_with_score (s s' : HospitalDistribution) (fuel : nat)
        (log : list (Coordinate * Coordinate)) :
  reachable order s ->
  optimize_distribution order fuel s = Ret (s', log) ->
  (forall z, _calculate_score s = Int z ->
     exists z', _calculate_score s' = Int z' /\ 0 <= z'
                /\ Z.of_nat (length log) <= z - z')
  /\ (_calculate_score s = Inf -> log = [])
  /\ (houses s = [] -> log = [])
  /\ (log <> [] -> num_lt (_calculate_score s') (_calculate_score s) = true).
Proof.
  intros R E; destruct (reachable_Inv order order_perm s R) as [HI _].
  unfold optimize_distribution in E.
  destruct (while_improved order fuel _) as [f| |] eqn:W; try discriminate.
  cbn [bind] in E; injection E as <- <-.
  destruct (while_improved_paid fuel
              (mkFrame s (_calculate_score s) true None []) f HI eq_refl W)
    as (ms & Em & Hb & P).
  model_simpl; cbn [app] in Em; rewrite Em, <- Hb.
  unfold paid in P.
  assert (First : forall z, _calculate_score s = Int z ->
            exists z', best_score f = Int z' /\ 0 <= z'
                       /\ Z.of_nat (length ms) <= z - z')
    by (intros z Ez; now rewrite Ez in P).
  split; [exact First|split; [|split]].
  - intros Ez; rewrite Ez in P; tauto.
  - intros Ek.
    assert (Ez : _calculate_score s = Int 0)
      by (unfold _calculate_score; now rewrite Ek).
    destruct (First 0 Ez) as (z' & _ & Hz & L).
    destruct ms; [reflexivity|cbn [length] in L; lia].
  - intros Hn; destruct (_calculate_score s) as [z|] eqn:Ez.
    + destruct (First z eq_refl) as (z' & -> & Hz & L); cbn [num_lt].
      apply Z.ltb_lt; destruct ms; [congruence|cbn [length] in L; lia].
    + destruct P as [_ ->]; congruence.
Qed.

End Paid.

(** ** Bounds on the score *)

Lemma spec_score_between (ks hs : list Coordinate) (lo hi : Z) :
  (forall k, In k ks -> lo <= spec_nearest hs k <= hi) ->
  Z.of_nat (length ks) * lo <= spec_score ks hs <= Z.of_nat (length ks) * hi.
Proof.
  induction ks as [|k ks IH]; intros H; cbn [length spec_score fold_right]; [lia|].
  fold (spec_score ks hs).
  pose proof (H k (or_introl eq_refl)).
  specialize (IH (fun k' K => H k' (or_intror K))).
  rewrite Nat2Z.inj_succ, !Z.mul_succ_l; lia.
Qed.

Lemma nearest_between (s : HospitalDistribution) (k : Coordinate) :
  Inv s -> hospitals s <> [] -> In k (houses s) ->
  1 <= spec_nearest (hospitals s) k <= rows s + cols s - 2.
Proof.
  intros HI Hn Hk.
  destruct (inv_house s HI k Hk) as [[Kx Ky] Ck].
  split.
  - destruct (spec_nearest_attained (hospitals s) k Hn) as (h & Hh & ->).
    destruct (inv_hospital s HI h Hh) as [_ Ch].
    pose proof (cell_differ _ _ _ _ _ _ _ Ck Ch ltac:(lia)).
    unfold distance_to; lia.
  - destruct (hospitals s) as [|h hs] eqn:Eh; [congruence|].
    assert (Hh : In h (hospitals s)) by (rewrite Eh; now left).
    destruct (inv_hospital s HI h Hh) as [[Hx Hy] _].
    rewrite <- Eh; pose proof (spec_nearest_least (hospitals s) k h Hh) as L.
    unfold distance_to in L; lia.
Qed.

Lemma score_between (s : HospitalDistribution) :
  Inv s -> hospitals s <> [] ->
  exists z, _calculate_score s = Int z
            /\ Z.of_nat (length (houses s)) <= z
               <= Z.of_nat (length (houses s)) * (rows s + cols s - 2).
Proof.
  intros HI Hn; exists (spec_score (houses s) (hospitals s)).
  split; [now apply total_distance_spec|].
  pose proof (spec_score_between (houses s) (hospitals s) 1 (rows s + cols s - 2)
                (fun k K => nearest_between s k HI Hn K)); lia.
Qed.

Section Bounds.

Variable order : list Coordinate -> list Coordinate.
Hypothesis order_perm : forall l, Permutation (order l) l.

(** X6.  In a reachable model with a hospital the score is an integer
    between the number of houses (no house is on a hospital's cell)
    and the number of houses times [rows + cols - 2]. *)
Theorem score_bounds (s : HospitalDistribution) :
  reachable order s -> hospitals s <> [] ->
  exists z, _calculate_score s = Int z
            /\ Z.of_nat (length (houses s)) <= z
               <= Z.of_nat (length (houses s)) * (rows s + cols s - 2).
Proof.
  intros R Hn; destruct (reachable_Inv order order_perm s R) as [HI _].
  now apply score_between.
Qed.

Lemma optimize_within_grid_bound (s : HospitalDistribution) (fuel : nat) :
  reachable order s ->
  Z.of_nat (length (houses s)) * (rows s + cols s - 2) < Z.of_nat fuel ->
  exists s' log, optimize_distribution order fuel s = Ret (s', log).
Proof.
  intros R Hf; destruct (reachable_Inv order order_perm s R) as [HI _].
  destruct (optimize_returns order order_perm s fuel HI) as (s' & log & E & _);
    [|now exists s', log].
  destruct (hospitals s) as [|h hs] eqn:Eh.
  - destruct (houses s) as [|k ks] eqn:Ek.
    + unfold _calculate_score, total_distance; rewrite Ek; cbn in *; lia.
    + assert (Hk : In k (houses s)) by (rewrite Ek; now left).
      destruct (inv_house s HI k Hk) as [[Kx Ky] _].
      unfold _calculate_score, total_distance; rewrite Eh, Ek; cbn [fold_left].
      change (min_distance [] k) with Inf; cbn [num_add].
      rewrite fold_add_inf; cbn [weight]; cbn [length] in Hf. nia.
  - destruct (score_between s HI) as (z & -> & Hz); [rewrite Eh; discriminate|].
    cbn [weight]; lia.
Qed.

(** X7.  A call of [optimize_distribution] on a reachable model
    returns within [h * (rows + cols - 2) + 1] sweeps, [h] being the
    number of houses: any allowance above [h * (rows + cols - 2)] is
    enough. *)
Theorem sweeps_bounded_by_grid (s : HospitalDistribution) (fuel : nat) :
  reachable order s ->
  Z.of_nat (length (houses s)) * (rows s + cols s - 2) < Z.of_nat fuel ->
  exists s' log, optimize_distribution order fuel s = Ret (s', log).
Proof. apply optimize_within_grid_bound. Qed.

(** X8.  The model a call of [optimize_distribution] returns is a
    local optimum: moving any one hospital to its own or a
    neighbouring cell of the grid, free and at distance 3 or more from
    the other hospitals, gives a score that is not lower. *)
Theorem result_is_local_optimum (s s' : HospitalDistribution) (fuel : nat)
        (log : list (Coordinate * Coordinate)) (h p : Coordinate) (n : nat) :
  reachable order s ->
  optimize_distribution order fuel s = Ret (s', log) ->
  In h (hospitals s') ->
  Z.abs (x p - x h) <= 1 -> Z.abs (y p - y h) <= 1 ->
  0 <= x p < rows s' -> 0 <= y p < cols s' ->
  cell (grid s') (x p) (y p) = Some 0 \/ position p = position h ->
  (forall h', In h' (hospitals s') -> h' <> h -> 3 <= distance_to p h') ->
  num_le (_calculate_score s') (_calculate_score (moved h p n s')) = true.
Proof.
  intros R E Hh Dx Dy Px Py Free Far.
  destruct (reachable_Inv order order_perm s R) as [HI _].
  destruct (optimize_spec order order_perm s s' fuel log HI E) as [HI' _ _ Cv _ _].
  assert (Hd : In (x p - x h, y p - y h) all_offsets).
  { unfold all_offsets, offsets; cbn [list_prod map app In].
    assert (Cx : x p - x h = -1 \/ x p - x h = 0 \/ x p - x h = 1) by lia.
    assert (Cy : y p - y h = -1 \/ y p - y h = 0 \/ y p - y h = 1) by lia.
    destruct Cx as [-> | [-> | ->]], Cy as [-> | [-> | ->]]; tauto. }
  pose proof (Cv h _ Hh Hd) as Im; unfold improving in Im; cbn [fst snd] in Im.
  replace (x h + (x p - x h)) with (x p) in Im by lia.
  replace (y h + (y p - y h)) with (y p) in Im by lia.
  assert (G : in_grid s' (x p) (y p) = true) by (apply in_grid_inside; now split).
  assert (V : candidate_valid s' h (x p) (y p) = true).
  { unfold candidate_valid.
    destruct (inv_hospital s' HI' h Hh) as [Hin Hc].
    assert (C : cell (put (grid s') (x h) (y h) 0) (x p) (y p) = Some 0).
    { destruct (Z.eq_dec (x h) (x p)) as [Ex|Nx], (Z.eq_dec (y h) (y p)) as [Ey|Ny].
      1:{ rewrite <- Ex, <- Ey.
          apply (cell_put_same (rows s') (cols s')); auto using inv_shape. }
      all: destruct Free as [Fr|Ep]; [|injection Ep; lia].
      all: unfold inside in Hin; rewrite cell_put_other by lia; exact Fr. }
    rewrite C, Z.eqb_refl; cbn [andb].
    rewrite (inv_min s' HI'); apply spaced_from_spec.
    intros h' H'; apply in_others in H'; destruct H' as [H' N'].
    change (distance_to {| oid := 0; x := x p; y := y p |} h')
      with (distance_to p h').
    apply Far; [assumption|congruence]. }
  rewrite G, V in Im; cbn [andb] in Im.
  rewrite score_moved; unfold num_le; now rewrite Im.
Qed.

End Bounds.

(** ** The distance *)

(** X9.  [distance_to] is a metric on the cells: never negative, zero
    exactly between coordinates of the same row and column, symmetric,
    and it satisfies the triangle inequality. *)
Theorem distance_to_is_a_metric (a b c : Coordinate) :
  0 <= distance_to a b
  /\ (distance_to a b = 0 <-> position a = position b)
  /\ distance_to a b = distance_to b a
  /\ distance_to a c <= distance_to a b + distance_to b c.
Proof.
  unfold distance_to, position; repeat split; try lia.
  - intros E; f_equal; lia.
  - intros E; injection E as Ex Ey; lia.
Qed.

(** ** A grid without cells *)

Lemma initialize_empty_grid (r c nh nk : Z) (d : Z * Z)
        (draws : list (Z * Z)) :
  r <= 0 \/ c <= 0 -> 0 < nh \/ 0 < nk ->
  initialize_random_positions (d :: draws) (new_HospitalDistribution r c nh nk)
  = Raise ValueError.
Proof.
  intros Hg Hn; destruct d as [r1 r2].
  assert (First : forall s ds,
             rows s = r -> cols s = c ->
             bind (randint 0 (rows s - 1) r1)
               (fun xv => bind (randint 0 (cols s - 1) r2) (ds xv))
             = @Raise (HospitalDistribution * list (Z * Z)) ValueError).
  { intros s ds -> ->; unfold randint.
    destruct (Z.ltb_spec (r - 1) 0); [reflexivity|cbn [bind]].
    destruct (Z.ltb_spec (c - 1) 0); [reflexivity|lia]. }
  unfold initialize_random_positions.
  destruct (Z.ltb_spec 0 nh) as [Lh|Lh].
  - cbn [place_hospitals]; unfold new_HospitalDistribution at 1 2; model_simpl.
    cbn [length Z.of_nat]; destruct (Z.ltb_spec 0 nh); [|lia].
    rewrite First by reflexivity; reflexivity.
  - cbn [place_hospitals]; unfold new_HospitalDistribution at 1 2; model_simpl.
    cbn [length Z.of_nat]; destruct (Z.ltb_spec 0 nh); [lia|].
    cbn [bind fst snd place_houses].
    unfold new_HospitalDistribution at 1 2; model_simpl.
    cbn [length Z.of_nat]; destruct (Z.ltb_spec 0 nk); [|lia].
    rewrite First by reflexivity; reflexivity.
Qed.

(** X10.  Asked for at least one hospital or house on a grid without
    a row or without a column, [initialize_random_positions] raises
    [ValueError] in the first iteration of a placement loop, whatever
    the draws: of the hospital loop when a hospital is asked for;
    otherwise the hospital loop ends at once, with the new model as it
    was and no draw taken, and the house loop raises.  The call that
    raises is [random.randint(0, rows - 1)] when there is no row;
    with a row and no column that call returns a row of the grid and
    [random.randint(0, cols - 1)] raises. *)
Theorem initialize_rejects_empty_grid (r c nh nk : Z) (d : Z * Z)
        (draws : list (Z * Z)) :
  r <= 0 \/ c <= 0 -> 0 < nh \/ 0 < nk ->
  initialize_random_positions (d :: draws) (new_HospitalDistribution r c nh nk)
  = Raise ValueError
  /\ (0 < nh ->
      place_hospitals (d :: draws) (new_HospitalDistribution r c nh nk)
      = Raise ValueError)
  /\ (nh <= 0 ->
      place_hospitals (d :: draws) (new_HospitalDistribution r c nh nk)
      = Ret (new_HospitalDistribution r c nh nk, d :: draws)
      /\ place_houses (d :: draws) (new_HospitalDistribution r c nh nk)
         = Raise ValueError)
  /\ (r <= 0 -> randint 0 (r - 1) (fst d) = Raise ValueError)
  /\ (0 < r ->
      (exists xv, randint 0 (r - 1) (fst d) = Ret xv /\ 0 <= xv < r)
      /\ randint 0 (c - 1) (snd d) = Raise ValueError).
Proof.
  intros Hg Hn; split; [now apply initialize_empty_grid|].
  destruct d as [r1 r2]; cbn [fst snd].
  assert (First : forall s ds,
             rows s = r -> cols s = c ->
             bind (randint 0 (rows s - 1) r1)
               (fun xv => bind (randint 0 (cols s - 1) r2) (ds xv))
             = @Raise (HospitalDistribution * list (Z * Z)) ValueError).
  { intros s ds -> ->; unfold randint.
    destruct (Z.ltb_spec (r - 1) 0); [reflexivity|cbn [bind]].
    destruct (Z.ltb_spec (c - 1) 0); [reflexivity|lia]. }
  split; [|split; [|split]].
  - intros Lh; cbn [place_hospitals]; unfold new_HospitalDistribution at 1 2; model_simpl.
    cbn [length Z.of_nat]; destruct (Z.ltb_spec 0 nh); [|lia].
    rewrite First by reflexivity; reflexivity.
  - intros Lh; split.
    + cbn [place_hospitals]; unfold new_HospitalDistribution at 1 2; model_simpl.
      cbn [length Z.of_nat]; destruct (Z.ltb_spec 0 nh); [lia|reflexivity].
    + cbn [place_houses]; unfold new_HospitalDistribution at 1 2; model_simpl.
      cbn [length Z.of_nat]; destruct (Z.ltb_spec 0 nk); [|lia].
      rewrite First by reflexivity; reflexivity.
  - intros Lr; unfold randint; destruct (Z.ltb_spec (r - 1) 0); [reflexivity|lia].
  - intros Lr; unfold randint; split.
    + destruct (Z.ltb_spec (r - 1) 0); [lia|].
      eexists; split; [reflexivity|].
      pose proof (Z.mod_pos_bound r1 (r - 1 - 0 + 1)); lia.
    + destruct (Z.ltb_spec (c - 1) 0); [reflexivity|lia].
Qed.

(** * Properties of the two windows *)

(** ** Loops that only add items *)

Lemma in_range (n i : Z) : In i (range n) <-> 0 <= i < n.
Proof.
  unfold range; rewrite in_map_iff; split.
  - intros (k & <- & H); apply in_seq in H; lia.
  - intros H; exists (Z.to_nat i); split; [lia|apply in_seq; lia].
Qed.

Lemma NoDup_range (n : Z) : NoDup (range n).
Proof.
  unfold range; apply NoDup_map_NoDup_ForallPairs; [|apply seq_NoDup].
  intros a b _ _; apply Nat2Z.inj.
Qed.

Lemma for_run_appends {A B : Type} (l : list A) (f : A -> list B)
      (body : A -> list B -> run (list B)) :
  (forall a st, In a l -> body a st = Finished (st ++ f a)) ->
  forall st, for_run l body st = Finished (st ++ flat_map f l).
Proof.
  induction l as [|a l IH]; intros H st; cbn [for_run flat_map].
  - now rewrite app_nil_r.
  - rewrite H by now left. cbn [run_bind].
    rewrite IH by (intros b st' Hb; apply H; now right).
    now rewrite app_assoc.
Qed.

Lemma flat_map_map {A B C : Type} (f : A -> B) (h : B -> list C) (l : list A) :
  flat_map h (map f l) = flat_map (fun a => h (f a)) l.
Proof. induction l as [|a l IH]; cbn [map flat_map]; [reflexivity|now rewrite IH]. Qed.

Lemma flat_map_prod {A B C : Type} (l : list A) (l' : list B) (g : A -> B -> list C) :
  flat_map (fun a => flat_map (g a) l') l
  = flat_map (fun p => g (fst p) (snd p)) (list_prod l l').
Proof.
  induction l as [|a l IH]; cbn [flat_map list_prod]; [reflexivity|].
  rewrite flat_map_app, IH, flat_map_map; reflexivity.
Qed.

Lemma flat_map_split {A B : Type} (f g : A -> list B) (l : list A) :
  Permutation (flat_map (fun a => f a ++ g a) l) (flat_map f l ++ flat_map g l).
Proof.
  induction l as [|a l IH]; cbn [flat_map]; [constructor|].
  rewrite <- !app_assoc; apply Permutation_app_head.
  eapply Permutation_trans; [apply Permutation_app_head, IH|].
  rewrite !app_assoc; apply Permutation_app_tail, Permutation_app_comm.
Qed.

Lemma flat_map_filter {A B : Type} (c : A -> bool) (w : A -> B) (l : list A) :
  flat_map (fun a => if c a then [w a] else []) l = map w (filter c l).
Proof.
  induction l as [|a l IH]; cbn [flat_map filter]; [reflexivity|].
  destruct (c a); cbn [app map]; now rewrite IH.
Qed.

(** The cells of the grid, row by row. *)
Definition cells (s : HospitalDistribution) : list (Z * Z) :=
  list_prod (range (rows s)) (range (cols s)).

Lemma in_cells (s : HospitalDistribution) (p : Z * Z) :
  In p (cells s) <-> inside (rows s) (cols s) (fst p) (snd p).
Proof.
  destruct p as [i j]; unfold cells, inside; cbn [fst snd].
  now rewrite in_prod_iff, !in_range.
Qed.

Lemma NoDup_cells (s : HospitalDistribution) : NoDup (cells s).
Proof.
  unfold cells; generalize (NoDup_range (cols s)), (NoDup_range (rows s)).
  generalize (range (cols s)) as l', (range (rows s)) as l.
  intros l' l N' N; induction N as [|a l Ha N IH]; cbn [list_prod]; [constructor|].
  apply NoDup_app; auto.
  - apply NoDup_map_NoDup_ForallPairs; [|assumption].
    intros b b' _ _ E; now injection E.
  - intros p Hp Hq; apply in_map_iff in Hp; destruct Hp as (b & <- & Hb).
    apply in_prod_iff in Hq; tauto.
Qed.

Definition holds (s : HospitalDistribution) (v : Z) (p : Z * Z) : bool :=
  match cell (grid s) (fst p) (snd p) with
  | Some w => w =? v
  | None => false
  end.

(** The cells that hold a house are the cells of the houses, and the
    same for the hospitals. *)
Lemma cells_of_members (s : HospitalDistribution) :
  Inv s -> occupancy s ->
  Permutation (filter (holds s 1) (cells s)) (map position (houses s))
  /\ Permutation (filter (holds s 2) (cells s)) (map position (hospitals s)).
Proof.
  intros HI Oc.
  destruct (Inv_placement s HI) as [Nd _ _ _ _].
  pose proof (NoDup_app_remove_l _ _ Nd) as Nk.
  pose proof (NoDup_app_remove_r _ _ Nd) as Nh.
  split; apply NoDup_Permutation; auto using NoDup_filter, NoDup_cells.
  - intros [i j]; rewrite filter_In, in_cells, in_map_iff; unfold holds, position;
      cbn [fst snd]; split.
    + intros [Hij E].
      destruct (cell (grid s) i j) as [w|] eqn:C; [|discriminate].
      apply Z.eqb_eq in E; subst w.
      apply (grid_agrees s i j HI Oc Hij) in C; destruct C as (k & K & <- & <-).
      now exists k.
    + intros (k & E & K); injection E as <- <-.
      destruct (inv_house s HI k K) as [Hin ->]; now split.
  - intros [i j]; rewrite filter_In, in_cells, in_map_iff; unfold holds, position;
      cbn [fst snd]; split.
    + intros [Hij E].
      destruct (cell (grid s) i j) as [w|] eqn:C; [|discriminate].
      apply Z.eqb_eq in E; subst w.
      apply (grid_agrees s i j HI Oc Hij) in C; destruct C as (k & K & <- & <-).
      now exists k.
    + intros (k & E & K); injection E as <- <-.
      destruct (inv_hospital s HI k K) as [Hin ->]; now split.
Qed.

(** ** What [draw_grid] of profundisacion.py puts on the canvas *)

Definition cell_width (d : HospitalDistribution) : Z := Z.max 1 (500 / cols d).
Definition cell_height (d : HospitalDistribution) : Z := Z.max 1 (500 / rows d).

(** The centre, in pixels, of the cell [p = (row, column)]. *)
Definition x_center (d : HospitalDistribution) (p : Z * Z) : Z :=
  snd p * cell_width d + cell_width d / 2.
Definition y_center (d : HospitalDistribution) (p : Z * Z) : Z :=
  fst p * cell_height d + cell_height d / 2.

(** The item drawn for a house and for a hospital on the cell [p]: the
    picture when it was loaded, otherwise a green square and a red
    disc, 30 pixels wide. *)
Definition house_item (house_image : bool) (d : HospitalDistribution) (p : Z * Z)
  : item :=
  if house_image then create_image (x_center d p) (y_center d p) house_png
  else create_rectangle (x_center d p - 15) (y_center d p - 15)
         (x_center d p + 15) (y_center d p + 15) (Some green) None.

Definition hospital_item (hospital_image : bool) (d : HospitalDistribution)
           (p : Z * Z) : item :=
  if hospital_image then create_image (x_center d p) (y_center d p) hospital_png
  else create_oval (x_center d p - 15) (y_center d p - 15)
         (x_center d p + 15) (y_center d p + 15) (Some red) None.

(** The gray lines of the grid: [rows + 1] horizontal, then
    [cols + 1] vertical ones. *)
Definition grid_lines (d : HospitalDistribution) : list item :=
  map (fun i => create_line 0 (i * cell_height d) 500 (i * cell_height d) gray)
    (range (rows d + 1))
  ++ map (fun j => create_line (j * cell_width d) 0 (j * cell_width d) 500 gray)
       (range (cols d + 1)).

Lemma flat_map_single {A B : Type} (f : A -> B) (l : list A) :
  flat_map (fun a => [f a]) l = map f l.
Proof. induction l as [|a l IH]; cbn [flat_map map app]; [reflexivity|now rewrite IH]. Qed.

Lemma draw_cell_spec (house_image hospital_image : bool) (d : HospitalDistribution)
      (i j : Z) (canvas : list item) :
  shaped (rows d) (cols d) (grid d) -> inside (rows d) (cols d) i j ->
  Profundisacion.draw_cell house_image hospital_image d
    (cell_width d) (cell_height d) i j canvas
  = Finished (canvas
              ++ (if holds d 1 (i, j) then [house_item house_image d (i, j)] else [])
              ++ (if holds d 2 (i, j)
                  then [hospital_item hospital_image d (i, j)] else [])).
Proof.
  intros Sh Hij; unfold Profundisacion.draw_cell, holds; cbv zeta; cbn [fst snd].
  destruct (grid_get_inside _ _ _ _ _ Sh Hij) as (v & -> & ->); cbn [lift run_bind].
  unfold house_item, hospital_item, x_center, y_center; cbn [fst snd].
  destruct (Z.eqb_spec v 1) as [->|N1].
  - cbn [Z.eqb Pos.eqb app]; destruct house_image; reflexivity.
  - destruct (v =? 2); cbn [app]; [destruct hospital_image|];
      rewrite ?app_nil_r; reflexivity.
Qed.

Lemma draw_grid_spec (house_image hospital_image : bool) (d : HospitalDistribution) :
  shaped (rows d) (cols d) (grid d) -> rows d <> 0 -> cols d <> 0 ->
  Profundisacion.draw_grid house_image hospital_image d
  = Finished
      (grid_lines d
       ++ flat_map
            (fun p =>
               (if holds d 1 p then [house_item house_image d p] else [])
               ++ (if holds d 2 p then [hospital_item hospital_image d p] else []))
            (cells d)).
Proof.
  intros Sh Hr Hc; unfold Profundisacion.draw_grid, floordiv; cbv zeta.
  destruct (Z.eqb_spec (cols d) 0) as [|_]; [contradiction|].
  destruct (Z.eqb_spec (rows d) 0) as [|_]; [contradiction|].
  cbn [run_bind]; fold (cell_width d) (cell_height d).
  rewrite (for_run_appends _
             (fun i => [create_line 0 (i * cell_height d) 500 (i * cell_height d) gray]))
    by reflexivity.
  cbn [run_bind app].
  rewrite (for_run_appends _
             (fun j => [create_line (j * cell_width d) 0 (j * cell_width d) 500 gray]))
    by reflexivity.
  cbn [run_bind]; rewrite !flat_map_single; fold (grid_lines d).
  rewrite (for_run_appends _
             (fun i => flat_map
                (fun j =>
                   (if holds d 1 (i, j) then [house_item house_image d (i, j)] else [])
                   ++ (if holds d 2 (i, j)
                       then [hospital_item hospital_image d (i, j)] else []))
                (range (cols d)))).
  - f_equal; f_equal; unfold cells.
    rewrite (flat_map_prod (range (rows d)) (range (cols d))
               (fun i j =>
                  (if holds d 1 (i, j) then [house_item house_image d (i, j)] else [])
                  ++ (if holds d 2 (i, j)
                      then [hospital_item hospital_image d (i, j)] else []))).
    apply flat_map_ext; intros [i j]; reflexivity.
  - intros i st Hi; apply for_run_appends; intros j st' Hj.
    apply draw_cell_spec; [assumption|].
    apply in_range in Hi, Hj; now split.
Qed.

Lemma shapes_of_members {B : Type} (s : HospitalDistribution) (w1 w2 : Z * Z -> B) :
  Inv s -> occupancy s ->
  Permutation
    (flat_map (fun p => (if holds s 1 p then [w1 p] else [])
                        ++ (if holds s 2 p then [w2 p] else [])) (cells s))
    (map (fun k => w1 (position k)) (houses s)
     ++ map (fun h => w2 (position h)) (hospitals s)).
Proof.
  intros HI Oc; destruct (cells_of_members s HI Oc) as [Pk Ph].
  eapply Permutation_trans; [apply flat_map_split|].
  rewrite !flat_map_filter, <- !(map_map position).
  apply Permutation_app; now apply Permutation_map.
Qed.

Section Window.

Variable order : list Coordinate -> list Coordinate.
Hypothesis order_perm : forall l, Permutation (order l) l.

(** X11.  On a reachable model with at least one row and one column
    [draw_grid] of profundisacion.py does not fail, and leaves on the
    canvas the grid lines followed by exactly one item for every house
    and one for every hospital, each centred on the member's cell. *)
Theorem draw_grid_shows_the_model (house_image hospital_image : bool)
        (d : HospitalDistribution) :
  reachable order d -> 0 < rows d -> 0 < cols d ->
  exists shapes,
    Profundisacion.draw_grid house_image hospital_image d
    = Finished (grid_lines d ++ shapes)
    /\ Permutation shapes
         (map (fun k => house_item house_image d (position k)) (houses d)
          ++ map (fun h => hospital_item hospital_image d (position h))
               (hospitals d)).
Proof.
  intros R Hr Hc; destruct (reachable_Inv order order_perm d R) as [HI _].
  eexists; split.
  - apply draw_grid_spec; [now apply inv_shape|lia|lia].
  - apply shapes_of_members; [assumption|now apply (reachable_occupancy order)].
Qed.

(** X12.  With at most 500 rows and 500 columns, the centre of the
    item [draw_grid] draws for a member of a reachable model lies on
    the 500 x 500 canvas, and members on different cells get different
    centres. *)
Theorem members_drawn_on_the_canvas (d : HospitalDistribution) (c c' : Coordinate) :
  reachable order d -> rows d <= 500 -> cols d <= 500 ->
  In c (hospitals d) \/ In c (houses d) ->
  In c' (hospitals d) \/ In c' (houses d) ->
  (0 <= x_center d (position c) < 500 /\ 0 <= y_center d (position c) < 500)
  /\ (position c <> position c' ->
      x_center d (position c) <> x_center d (position c')
      \/ y_center d (position c) <> y_center d (position c')).
Proof.
  intros R Hr Hc Hm Hm'; destruct (reachable_Inv order order_perm d R) as [HI _].
  assert (In1 : forall e, In e (hospitals d) \/ In e (houses d) ->
                          inside (rows d) (cols d) (x e) (y e)).
  { intros e [H|H]; [apply (inv_hospital d HI e H)|apply (inv_house d HI e H)]. }
  destruct (In1 c Hm) as [Cx Cy], (In1 c' Hm') as [Cx' Cy'].
  unfold x_center, y_center, cell_width, cell_height, position; cbn [fst snd].
  assert (Wc : 1 <= 500 / cols d /\ cols d * (500 / cols d) <= 500).
  { split; [apply Z.div_le_lower_bound; lia|apply Z.mul_div_le; lia]. }
  assert (Wr : 1 <= 500 / rows d /\ rows d * (500 / rows d) <= 500).
  { split; [apply Z.div_le_lower_bound; lia|apply Z.mul_div_le; lia]. }
  rewrite !Z.max_r by lia.
  set (cw := 500 / cols d) in *; set (ch := 500 / rows d) in *.
  assert (Hw : 0 <= cw / 2 < cw) by (split; [apply Z.div_pos|apply Z.div_lt]; lia).
  assert (Hh : 0 <= ch / 2 < ch) by (split; [apply Z.div_pos|apply Z.div_lt]; lia).
  split; [split; nia|].
  intros N.
  destruct (Z.eq_dec (y c) (y c')) as [Ey|Ny].
  - right; intros E.
    assert (x c = x c') by nia; apply N; congruence.
  - left; intros E; apply Ny; nia.
Qed.

Lemma draw_grid_total (house_image hospital_image : bool) (d : HospitalDistribution) :
  Inv d -> 0 < rows d -> 0 < cols d ->
  exists canvas,
    Profundisacion.draw_grid house_image hospital_image d = Finished canvas.
Proof.
  intros HI Hr Hc; eexists; apply draw_grid_spec; [now apply inv_shape|lia|lia].
Qed.

(** X13.  [start_simulation] of profundisacion.py answers a field that
    is not an integer with the dialog "Por favor ingresa valores
    numéricos válidos", a number of hospitals or houses that is not
    positive with "Números deben ser mayores a 0", and, the numbers
    being positive, a number of rows or columns that is not positive
    with the first dialog again (the [ValueError] of [random.randint]
    is caught by the same handler).  Nothing is drawn then. *)
Theorem start_simulation_reports (house_image hospital_image : bool)
        (rows_var cols_var hospitals_var houses_var : option Z)
        (draws : list (Z * Z)) :
  (rows_var = None \/ cols_var = None \/ hospitals_var = None \/ houses_var = None ->
   Profundisacion.start_simulation house_image hospital_image
     rows_var cols_var hospitals_var houses_var draws
   = Finished (showerror enter_valid_numbers))
  /\ (forall r c nh nk,
        rows_var = Some r -> cols_var = Some c ->
        hospitals_var = Some nh -> houses_var = Some nk ->
        (nh <= 0 \/ nk <= 0 ->
         Profundisacion.start_simulation house_image hospital_image
           rows_var cols_var hospitals_var houses_var draws
         = Finished (showerror numbers_must_be_positive))
        /\ (0 < nh -> 0 < nk -> r <= 0 \/ c <= 0 -> draws <> [] ->
            Profundisacion.start_simulation house_image hospital_image
              rows_var cols_var hospitals_var houses_var draws
            = Finished (showerror enter_valid_numbers))).
Proof.
  split.
  - intros H; unfold Profundisacion.start_simulation.
    destruct rows_var as [r|]; [|reflexivity].
    destruct cols_var as [c|]; [|reflexivity].
    destruct hospitals_var as [nh|]; [|reflexivity].
    destruct houses_var as [nk|]; [|reflexivity].
    destruct H as [H|[H|[H|H]]]; discriminate.
  - intros r c nh nk -> -> -> ->; unfold Profundisacion.start_simulation;
      cbn [int run_bind]; split.
    + intros H.
      assert (E : (nh <=? 0) || (nk <=? 0) = true)
        by (apply orb_true_iff; rewrite !Z.leb_le; exact H).
      now rewrite E.
    + intros Hh Hk Hg Hd.
      assert (E : (nh <=? 0) || (nk <=? 0) = false)
        by (apply orb_false_iff; rewrite !Z.leb_gt; now split).
      rewrite E; destruct draws as [|d draws]; [congruence|].
      rewrite initialize_empty_grid by auto; reflexivity.
Qed.

(** X14.  With four positive numbers [start_simulation] of
    profundisacion.py opens no dialog and raises nothing: either the
    placement is still drawing cells, or the window holds a reachable
    model of the size and with the numbers of hospitals and houses
    asked for, drawn by [draw_grid], and [optimize_step] is scheduled.
    When the numbers have no feasible layout, it stays in the
    placement for ever. *)
Theorem start_simulation_starts (house_image hospital_image : bool)
        (r c nh nk : Z) (draws : list (Z * Z)) :
  0 < r -> 0 < c -> 0 < nh -> 0 < nk ->
  match Profundisacion.start_simulation house_image hospital_image
          (Some r) (Some c) (Some nh) (Some nk) draws with
  | Finished (started d canvas) =>
      reachable order d
      /\ rows d = r /\ cols d = c
      /\ Z.of_nat (length (hospitals d)) = nh
      /\ Z.of_nat (length (houses d)) = nk
      /\ Profundisacion.draw_grid house_image hospital_image d = Finished canvas
  | Finished (showerror _) => False
  | Failed _ => False
  | Unfinished => True
  end
  /\ ((forall hp kp, ~ placement r c nh nk hp kp) ->
      Profundisacion.start_simulation house_image hospital_image
        (Some r) (Some c) (Some nh) (Some nk) draws = Unfinished).
Proof.
  intros Hr Hc Hh Hk; unfold Profundisacion.start_simulation; cbn [int run_bind].
  assert (E : (nh <=? 0) || (nk <=? 0) = false)
    by (apply orb_false_iff; rewrite !Z.leb_gt; now split).
  rewrite E.
  pose proof (initialize_spec draws _ (Inv_new r c nh nk)) as Sp.
  pose proof (initialize_outcomes r c nh nk draws Hr Hc) as Out.
  destruct (initialize_random_positions draws _) as [[d rest]| |] eqn:Ei;
    cbn [lift run_bind fst]; [|destruct Out|split; [exact I|reflexivity]].
  destruct Sp as (HI & (Er & Ec & Eh & Ek & _) & Lh & Lk).
  unfold new_HospitalDistribution in *; model_simpl; cbn [length] in Lh, Lk.
  destruct (draw_grid_total house_image hospital_image d HI) as (canvas & Ed);
    [lia|lia|].
  rewrite Ed; cbn [run_bind except_ValueError]; split.
  - split; [exact (reach_init order r c nh nk draws rest d Ei)|].
    repeat split; auto; lia.
  - intros No; exfalso; eapply No; eassumption.
Qed.

(** X15.  [optimize_step] of profundisacion.py, on a reachable model
    with a row and a column, raises nothing; allowed more sweeps than
    the number of houses times [rows + cols - 2], it finishes with a
    reachable model in which no hospital has an improving move, drawn
    by [draw_grid]. *)
Theorem optimize_step_redraws (house_image hospital_image : bool)
        (d : HospitalDistribution) :
  reachable order d -> 0 < rows d -> 0 < cols d ->
  (forall fuel e,
     Profundisacion.optimize_step order fuel house_image hospital_image d
     <> Failed e)
  /\ (forall fuel,
        Z.of_nat (length (houses d)) * (rows d + cols d - 2) < Z.of_nat fuel ->
        exists d' canvas,
          Profundisacion.optimize_step order fuel house_image hospital_image d
          = Finished (d', canvas)
          /\ reachable order d' /\ converged d'
          /\ Profundisacion.draw_grid house_image hospital_image d'
             = Finished canvas).
Proof.
  intros R Hr Hc; destruct (reachable_Inv order order_perm d R) as [HI _].
  assert (Step : forall fuel d' log,
             optimize_distribution order fuel d = Ret (d', log) ->
             converged d'
             /\ exists canvas,
                 Profundisacion.draw_grid house_image hospital_image d'
                 = Finished canvas).
  { intros fuel d' log E.
    destruct (optimize_spec order order_perm d d' fuel log HI E) as [HI' Ev _ Cv _ _].
    split; [assumption|].
    apply draw_grid_total; [assumption|rewrite (ev_rows _ _ Ev)|rewrite (ev_cols _ _ Ev)];
      assumption. }
  split.
  - intros fuel e; unfold Profundisacion.optimize_step.
    pose proof (optimize_keeps (fun _ => True) (fun _ _ _ _ _ _ _ => I)
                  order order_perm fuel d HI I) as K.
    destruct (optimize_distribution order fuel d) as [[d' log]| |] eqn:E;
      cbn [lift run_bind fst]; [|destruct K|discriminate].
    destruct (Step fuel d' log E) as (_ & canvas & ->); discriminate.
  - intros fuel Hf.
    destruct (optimize_within_grid_bound order order_perm d fuel R Hf)
      as (d' & log & E).
    destruct (Step fuel d' log E) as (Cv & canvas & Ed).
    exists d', canvas; unfold Profundisacion.optimize_step.
    rewrite E; cbn [lift run_bind fst]; rewrite Ed; cbn [run_bind].
    repeat split; auto.
    exact (reach_optimize order d d' fuel log R E).
Qed.

End Window.

(** ** The window of profundizacion.py *)

(** The gray outline of the cell [p], and the shapes drawn inside it
    for a house and for a hospital; the cell sizes are not clamped
    here. *)
Definition cell_outline (d : HospitalDistribution) (p : Z * Z) : item :=
  create_rectangle (snd p * (500 / cols d)) (fst p * (500 / rows d))
    (snd p * (500 / cols d) + 500 / cols d) (fst p * (500 / rows d) + 500 / rows d)
    None (Some gray).

Definition house_square (d : HospitalDistribution) (p : Z * Z) : item :=
  create_rectangle (snd p * (500 / cols d) + 5) (fst p * (500 / rows d) + 5)
    (snd p * (500 / cols d) + 500 / cols d - 5)
    (fst p * (500 / rows d) + 500 / rows d - 5)
    (Some green) (Some black).

Definition hospital_disc (d : HospitalDistribution) (p : Z * Z) : item :=
  create_oval (snd p * (500 / cols d) + 5) (fst p * (500 / rows d) + 5)
    (snd p * (500 / cols d) + 500 / cols d - 5)
    (fst p * (500 / rows d) + 500 / rows d - 5)
    (Some red) (Some black).

Lemma plain_draw_cell_spec (d : HospitalDistribution) (i j : Z) (canvas : list item) :
  shaped (rows d) (cols d) (grid d) -> inside (rows d) (cols d) i j ->
  Profundizacion.draw_cell d (500 / cols d) (500 / rows d) i j canvas
  = Finished (canvas
              ++ [cell_outline d (i, j)]
              ++ (if holds d 1 (i, j) then [house_square d (i, j)] else [])
              ++ (if holds d 2 (i, j) then [hospital_disc d (i, j)] else [])).
Proof.
  intros Sh Hij; unfold Profundizacion.draw_cell, holds; cbv zeta; cbn [fst snd].
  destruct (grid_get_inside _ _ _ _ _ Sh Hij) as (v & -> & ->); cbn [lift run_bind].
  unfold cell_outline, house_square, hospital_disc; cbn [fst snd].
  destruct (Z.eqb_spec v 1) as [->|N1].
  - cbn [Z.eqb Pos.eqb app]; now rewrite <- app_assoc.
  - destruct (v =? 2); cbn [app]; rewrite <- ?app_assoc; cbn [app];
      rewrite ?app_nil_r; reflexivity.
Qed.

Lemma plain_draw_grid_spec (d : HospitalDistribution) :
  shaped (rows d) (cols d) (grid d) -> rows d <> 0 -> cols d <> 0 ->
  Profundizacion.draw_grid d
  = Finished
      (flat_map
         (fun p =>
            [cell_outline d p]
            ++ (if holds d 1 p then [house_square d p] else [])
            ++ (if holds d 2 p then [hospital_disc d p] else []))
         (cells d)).
Proof.
  intros Sh Hr Hc; unfold Profundizacion.draw_grid, floordiv; cbv zeta.
  destruct (Z.eqb_spec (cols d) 0) as [|_]; [contradiction|].
  destruct (Z.eqb_spec (rows d) 0) as [|_]; [contradiction|].
  cbn [run_bind].
  rewrite (for_run_appends _
             (fun i => flat_map
                (fun j =>
                   [cell_outline d (i, j)]
                   ++ (if holds d 1 (i, j) then [house_square d (i, j)] else [])
                   ++ (if holds d 2 (i, j) then [hospital_disc d (i, j)] else []))
                (range (cols d)))).
  - rewrite app_nil_l; f_equal; unfold cells.
    rewrite (flat_map_prod (range (rows d)) (range (cols d))
               (fun i j =>
                  [cell_outline d (i, j)]
                  ++ (if holds d 1 (i, j) then [house_square d (i, j)] else [])
                  ++ (if holds d 2 (i, j) then [hospital_disc d (i, j)] else []))).
    apply flat_map_ext; intros [i j]; reflexivity.
  - intros i st Hi; apply for_run_appends; intros j st' Hj.
    apply plain_draw_cell_spec; [assumption|].
    apply in_range in Hi, Hj; now split.
Qed.

Lemma flat_map_same {A B : Type} (f g : A -> list B) (l : list A) :
  (forall a, In a l -> f a = g a) -> flat_map f l = flat_map g l.
Proof.
  induction l as [|a l IH]; intros H; cbn [flat_map]; [reflexivity|].
  rewrite (H a) by now left.
  now rewrite IH by (intros b Hb; apply H; now right).
Qed.

Lemma plain_draw_grid_empty (r c nh nk : Z) :
  0 < r -> 0 < c ->
  Profundizacion.draw_grid (new_HospitalDistribution r c nh nk)
  = Finished (map (cell_outline (new_HospitalDistribution r c nh nk))
                (cells (new_HospitalDistribution r c nh nk))).
Proof.
  intros Hr Hc; rewrite plain_draw_grid_spec;
    [|apply (inv_shape _ (Inv_new r c nh nk))
     |unfold new_HospitalDistribution; model_simpl; lia..].
  f_equal; rewrite <- flat_map_single; apply flat_map_same.
  intros p Hp; apply in_cells in Hp.
  pose proof (occupancy_new r c nh nk _ _ Hp) as [C|[[_ (k & [] & _)]|[_ (h & [] & _)]]].
  unfold holds; rewrite C; reflexivity.
Qed.

Section PlainWindow.

Variable order : list Coordinate -> list Coordinate.
Hypothesis order_perm : forall l, Permutation (order l) l.

(** X16.  On a reachable model with at least one row and one column
    [draw_grid] of profundizacion.py does not fail, and leaves on the
    canvas exactly the gray outline of every cell, a green square for
    every house and a red disc for every hospital, each inside the
    member's cell. *)
Theorem plain_draw_grid_shows_the_model (d : HospitalDistribution) :
  reachable order d -> 0 < rows d -> 0 < cols d ->
  exists canvas,
    Profundizacion.draw_grid d = Finished canvas
    /\ Permutation canvas
         (map (cell_outline d) (cells d)
          ++ map (fun k => house_square d (position k)) (houses d)
          ++ map (fun h => hospital_disc d (position h)) (hospitals d)).
Proof.
  intros R Hr Hc; destruct (reachable_Inv order order_perm d R) as [HI _].
  eexists; split.
  - apply plain_draw_grid_spec; [now apply inv_shape|lia|lia].
  - eapply Permutation_trans; [apply flat_map_split|].
    rewrite flat_map_single; apply Permutation_app_head.
    apply shapes_of_members; [assumption|now apply (reachable_occupancy order)].
Qed.

(** X17.  [start_simulation] of profundizacion.py tests nothing and
    catches nothing: a field that is not an integer, or a grid without
    a row or column when a hospital or a house is asked for, ends the
    callback with [ValueError]; when neither is asked for, such a grid
    ends it with [ZeroDivisionError] in [draw_grid], and a grid with
    rows and columns is drawn empty; four positive numbers never
    raise. *)
Theorem plain_start_simulation_is_unguarded
        (rows_var cols_var hospitals_var houses_var : option Z)
        (draws : list (Z * Z)) :
  (rows_var = None \/ cols_var = None \/ hospitals_var = None \/ houses_var = None ->
   Profundizacion.start_simulation rows_var cols_var hospitals_var houses_var draws
   = Failed (core ValueError))
  /\ (forall r c nh nk,
        rows_var = Some r -> cols_var = Some c ->
        hospitals_var = Some nh -> houses_var = Some nk ->
        (r <= 0 \/ c <= 0 -> 0 < nh \/ 0 < nk -> draws <> [] ->
         Profundizacion.start_simulation rows_var cols_var hospitals_var houses_var
           draws = Failed (core ValueError))
        /\ (r = 0 \/ c = 0 -> nh <= 0 -> nk <= 0 ->
            Profundizacion.start_simulation rows_var cols_var hospitals_var
              houses_var draws = Failed ZeroDivisionError)
        /\ (0 < r -> 0 < c -> nh <= 0 -> nk <= 0 ->
            Profundizacion.start_simulation rows_var cols_var hospitals_var
              houses_var draws
            = Finished
                (started (new_HospitalDistribution r c nh nk)
                   (map (cell_outline (new_HospitalDistribution r c nh nk))
                      (cells (new_HospitalDistribution r c nh nk)))))
        /\ (0 < r -> 0 < c -> 0 < nh -> 0 < nk ->
            forall e,
              Profundizacion.start_simulation rows_var cols_var hospitals_var
                houses_var draws <> Failed e)).
Proof.
  split.
  - intros H; unfold Profundizacion.start_simulation.
    destruct rows_var as [r|]; [|reflexivity].
    destruct cols_var as [c|]; [|reflexivity].
    destruct hospitals_var as [nh|]; [|reflexivity].
    destruct houses_var as [nk|]; [|reflexivity].
    destruct H as [H|[H|[H|H]]]; discriminate.
  - intros r c nh nk -> -> -> ->; unfold Profundizacion.start_simulation;
      cbn [int run_bind].
    assert (Nothing : nh <= 0 -> nk <= 0 ->
              initialize_random_positions draws (new_HospitalDistribution r c nh nk)
              = Ret (new_HospitalDistribution r c nh nk, draws)).
    { intros Hh Hk; unfold initialize_random_positions.
      assert (E1 : place_hospitals draws (new_HospitalDistribution r c nh nk)
                   = Ret (new_HospitalDistribution r c nh nk, draws)).
      { destruct draws as [|[r1 r2] draws]; cbn [place_hospitals];
          unfold new_HospitalDistribution at 1 2; model_simpl; cbn [length Z.of_nat];
          destruct (Z.ltb_spec 0 nh); try lia; reflexivity. }
      rewrite E1; cbn [bind fst snd].
      destruct draws as [|[r1 r2] draws]; cbn [place_houses];
        unfold new_HospitalDistribution at 1 2; model_simpl; cbn [length Z.of_nat];
        destruct (Z.ltb_spec 0 nk); try lia; reflexivity. }
    split; [|split; [|split]].
    + intros Hg Hn Hd; destruct draws as [|d draws]; [congruence|].
      rewrite initialize_empty_grid by auto; reflexivity.
    + intros Hg Hh Hk; rewrite Nothing by assumption; cbn [lift run_bind fst].
      unfold Profundizacion.draw_grid, floordiv, new_HospitalDistribution;
        model_simpl.
      destruct (Z.eqb_spec c 0) as [|Nc]; [reflexivity|cbn [run_bind]].
      destruct (Z.eqb_spec r 0) as [|Nr]; [reflexivity|lia].
    + intros Hr Hc Hh Hk; rewrite Nothing by assumption; cbn [lift run_bind fst].
      now rewrite plain_draw_grid_empty.
    + intros Hr Hc Hh Hk e.
      pose proof (initialize_spec draws _ (Inv_new r c nh nk)) as Sp.
      pose proof (initialize_outcomes r c nh nk draws Hr Hc) as Out.
      destruct (initialize_random_positions draws _) as [[d rest]| |];
        cbn [lift run_bind fst]; [|destruct Out|discriminate].
      destruct Sp as (HI & (Er & Ec & _) & _).
      unfold new_HospitalDistribution in *; model_simpl.
      rewrite plain_draw_grid_spec by (try apply inv_shape; auto; lia).
      discriminate.
Qed.

End PlainWindow.

(** ** The further properties on the small models *)

Lemma members_inside_grid_witness :
  0 <= x (mkCoordinate 1 0 5) < rows example_model
  /\ 0 <= y (mkCoordinate 1 0 5) < cols example_model.
Proof.
  apply (members_inside_grid listed listed_perm example_model _ example_reachable).
  left; right; now left.
Defined.

Lemma members_on_distinct_cells_witness :
  position (mkCoordinate 0 0 0) <> position (mkCoordinate 2 0 3).
Proof.
  apply (proj1 (members_on_distinct_cells listed listed_perm example_model
                  example_reachable)); now left.
Defined.

Lemma grid_shows_the_sets_witness :
  cell (grid example_model) 0 3 = Some 1 <->
  exists k, In k (houses example_model) /\ x k = 0 /\ y k = 3.
Proof.
  apply (grid_shows_the_sets listed listed_perm example_model 0 3 example_reachable);
    split; reflexivity || discriminate.
Defined.

Lemma optimizer_never_raises_witness :
  optimize_distribution listed 0 example_model <> Raise KeyError.
Proof.
  apply (proj1 (optimizer_never_raises listed listed_perm example_model
                  example_reachable)).
Defined.

Lemma relocations_pay_with_score_witness :
  exists z', _calculate_score example_optimized = Int z' /\ 0 <= z'
             /\ Z.of_nat (length [(mkCoordinate 1 0 5, mkCoordinate 5 0 4)]) <= 2 - z'.
Proof.
  apply (proj1 (relocations_pay_with_score listed listed_perm example_model
                  example_optimized 2 _ example_reachable example_call) 2).
  reflexivity.
Defined.

Lemma score_bounds_witness :
  exists z, _calculate_score example_model = Int z
            /\ Z.of_nat (length (houses example_model)) <= z
               <= Z.of_nat (length (houses example_model))
                  * (rows example_model + cols example_model - 2).
Proof.
  apply (score_bounds listed listed_perm example_model example_reachable).
  discriminate.
Defined.

Lemma sweeps_bounded_by_grid_witness :
  exists s' log, optimize_distribution listed 6 example_model = Ret (s', log).
Proof.
  apply (sweeps_bounded_by_grid listed listed_perm example_model 6 example_reachable).
  reflexivity.
Defined.

Lemma result_is_local_optimum_witness :
  num_le (_calculate_score example_optimized)
    (_calculate_score
       (moved (mkCoordinate 5 0 4) (mkCoordinate 12 0 5) 13 example_optimized))
  = true.
Proof.
  apply (result_is_local_optimum listed listed_perm example_model example_optimized
           2 _ (mkCoordinate 5 0 4) (mkCoordinate 12 0 5) 13
           example_reachable example_call).
  - right; now left.
  - discriminate.
  - discriminate.
  - split; reflexivity || discriminate.
  - split; reflexivity || discriminate.
  - left; reflexivity.
  - intros h' [<-|[<-|[]]] N; [discriminate|congruence].
Defined.

Lemma initialize_rejects_empty_grid_witness :
  initialize_random_positions [(3, 4)] (new_HospitalDistribution 2 0 1 1)
  = Raise ValueError
  /\ place_hospitals [(3, 4)] (new_HospitalDistribution 2 0 1 1) = Raise ValueError
  /\ (exists xv, randint 0 (2 - 1) 3 = Ret xv /\ 0 <= xv < 2)
  /\ randint 0 (0 - 1) 4 = Raise ValueError.
Proof.
  pose proof (initialize_rejects_empty_grid 2 0 1 1 (3, 4) []) as H.
  destruct H as (Call & Loop & _ & _ & Col).
  - right; discriminate.
  - left; reflexivity.
  - split; [exact Call|split; [now apply Loop|now apply Col]].
Defined.

Lemma draw_grid_shows_the_model_witness :
  exists shapes,
    Profundisacion.draw_grid true false example_model
    = Finished (grid_lines example_model ++ shapes)
    /\ Permutation shapes
         (map (fun k => house_item true example_model (position k))
            (houses example_model)
          ++ map (fun h => hospital_item false example_model (position h))
               (hospitals example_model)).
Proof.
  exact (draw_grid_shows_the_model listed listed_perm true false example_model
           example_reachable eq_refl eq_refl).
Defined.

Lemma members_drawn_on_the_canvas_witness :
  (0 <= x_center example_model (position (mkCoordinate 0 0 0)) < 500
   /\ 0 <= y_center example_model (position (mkCoordinate 0 0 0)) < 500)
  /\ (position (mkCoordinate 0 0 0) <> position (mkCoordinate 2 0 3) ->
      x_center example_model (position (mkCoordinate 0 0 0))
      <> x_center example_model (position (mkCoordinate 2 0 3))
      \/ y_center example_model (position (mkCoordinate 0 0 0))
         <> y_center example_model (position (mkCoordinate 2 0 3))).
Proof.
  apply (members_drawn_on_the_canvas listed listed_perm example_model
           (mkCoordinate 0 0 0) (mkCoordinate 2 0 3) example_reachable).
  - discriminate.
  - discriminate.
  - left; now left.
  - right; now left.
Defined.

Lemma example_start :
  exists canvas,
    Profundisacion.start_simulation true true (Some 1) (Some 6) (Some 2) (Some 1)
      example_draws = Finished (started example_model canvas).
Proof. vm_compute; eexists; reflexivity. Qed.

Lemma start_simulation_starts_witness :
  exists canvas,
    Profundisacion.start_simulation true true (Some 1) (Some 6) (Some 2) (Some 1)
      example_draws = Finished (started example_model canvas)
    /\ reachable listed example_model
    /\ Profundisacion.draw_grid true true example_model = Finished canvas.
Proof.
  destruct example_start as (canvas & E).
  pose proof (start_simulation_starts listed true true 1 6 2 1 example_draws) as H.
  specialize (H eq_refl eq_refl eq_refl eq_refl).
  destruct H as [H _].
  rewrite E in H; destruct H as (R & _ & _ & _ & _ & D).
  exists canvas; repeat split; assumption.
Defined.

Lemma optimize_step_redraws_witness :
  exists d' canvas,
    Profundisacion.optimize_step listed 6 true true example_model
    = Finished (d', canvas)
    /\ reachable listed d' /\ converged d'
    /\ Profundisacion.draw_grid true true d' = Finished canvas.
Proof.
  apply (proj2 (optimize_step_redraws listed listed_perm true true example_model
                  example_reachable eq_refl eq_refl) 6%nat).
  reflexivity.
Defined.

Lemma plain_draw_grid_shows_the_model_witness :
  exists canvas,
    Profundizacion.draw_grid example_model = Finished canvas
    /\ Permutation canvas
         (map (cell_outline example_model) (cells example_model)
          ++ map (fun k => house_square example_model (position k))
               (houses example_model)
          ++ map (fun h => hospital_disc example_model (position h))
               (hospitals example_model)).
Proof.
  exact (plain_draw_grid_shows_the_model listed listed_perm example_model
           example_reachable eq_refl eq_refl).
Defined.

Lemma start_simulation_reports_witness :
  Profundisacion.start_simulation true true (Some 1) None (Some 2) (Some 1)
    example_draws = Finished (showerror enter_valid_numbers)
  /\ Profundisacion.start_simulation true true (Some 1) (Some 6) (Some 0) (Some 1)
       example_draws = Finished (showerror numbers_must_be_positive)
  /\ Profundisacion.start_simulation true true (Some 0) (Some 6) (Some 2) (Some 1)
       example_draws = Finished (showerror enter_valid_numbers).
Proof.
  split; [|split].
  - apply (start_simulation_reports true true (Some 1) None (Some 2) (Some 1)
             example_draws).
    right; left; reflexivity.
  - apply (proj2 (start_simulation_reports true true (Some 1) (Some 6) (Some 0)
                    (Some 1) example_draws) 1 6 0 1 eq_refl eq_refl eq_refl eq_refl).
    left; discriminate.
  - apply (proj2 (start_simulation_reports true true (Some 0) (Some 6) (Some 2)
                    (Some 1) example_draws) 0 6 2 1 eq_refl eq_refl eq_refl eq_refl).
    + reflexivity.
    + reflexivity.
    + left; discriminate.
    + discriminate.
Defined.

Lemma plain_start_simulation_is_unguarded_witness :
  Profundizacion.start_simulation (Some 1) None (Some 2) (Some 1) example_draws
  = Failed (core ValueError)
  /\ Profundizacion.start_simulation (Some 0) (Some 6) (Some 2) (Some 1) example_draws
     = Failed (core ValueError)
  /\ Profundizacion.start_simulation (Some 2) (Some 0) (Some 0) (Some 0) example_draws
     = Failed ZeroDivisionError
  /\ Profundizacion.start_simulation (Some 1) (Some 6) (Some 2) (Some 1) example_draws
     <> Failed (core IndexError).
Proof.
  split; [|split; [|split]].
  - apply (plain_start_simulation_is_unguarded (Some 1) None (Some 2) (Some 1)
             example_draws).
    right; left; reflexivity.
  - apply (proj2 (plain_start_simulation_is_unguarded (Some 0) (Some 6) (Some 2)
                    (Some 1) example_draws) 0 6 2 1 eq_refl eq_refl eq_refl eq_refl).
    + left; discriminate.
    + left; reflexivity.
    + discriminate.
  - apply (proj2 (plain_start_simulation_is_unguarded (Some 2) (Some 0) (Some 0)
                    (Some 0) example_draws) 2 0 0 0 eq_refl eq_refl eq_refl eq_refl).
    + right; reflexivity.
    + discriminate.
    + discriminate.
  - apply (proj2 (plain_start_simulation_is_unguarded (Some 1) (Some 6) (Some 2)
                    (Some 1) example_draws) 1 6 2 1 eq_refl eq_refl eq_refl eq_refl);
      reflexivity.
Defined.
